(** * Flood propagation over a raster (simulacion.py, [propagar_inundacion])

    A shallow embedding of the raster flood fill of [simulacion.py] and of
    the per-level step of its simulation loop (PASO 6), with the properties
    the specification states about them.

    Numbers: elevations and water levels are NumPy / Python floating-point
    values in the script; they are embedded as the rationals they denote
    ([Q]).  The two arithmetic operations of the flood fill,
    [dem[y, x] + nivel_agua] and [dem[y, x] - 1.0], round their exact result
    into the format of the operation, which the dtype of the raster and the
    NumPy version decide (binary32 or binary64): the embedding is over that
    rounding, [fl].  The logged area of PASO 6 is computed on Python floats,
    in binary64.  Comparisons of floats are exact and are embedded as
    [Qle_bool].  Infinities and NaN, and so overflow, are outside the model.
    Grid coordinates are Python integers and are embedded as [Z], so that
    [y + dy] can really be [-1] and the bounds test of the source matters. *)

From Stdlib Require Import ZArith QArith Qabs Qround Qpower Lqa Lia List
  Permutation.
From stdpp Require Import base option list gmap.

Local Open Scope Z_scope.

(** ** Two-dimensional arrays *)

(** A NumPy array of rank 2: its shape and its rows. *)
Record ndarray (A : Type) : Type := NdArray {
  shape0 : nat;
  shape1 : nat;
  filas : list (list A)
}.

Arguments NdArray {A} _ _ _.
Arguments shape0 {A} _.
Arguments shape1 {A} _.
Arguments filas {A} _.

(** The representation invariant of an array: [shape0] rows of [shape1]
    cells each. *)
Definition bien_formado {A} (a : ndarray A) : bool :=
  (length (filas a) =? shape0 a)%nat
  && forallb (fun fila => (length fila =? shape1 a)%nat) (filas a).

Definition misma_forma {A B} (a : ndarray A) (b : ndarray B) : bool :=
  (shape0 a =? shape0 b)%nat && (shape1 a =? shape1 b)%nat.

(** A grid cell, [(y, x)] = (row, column). *)
Definition celda : Type := (Z * Z)%type.

(** How NumPy resolves one index [i] along an axis of length [n]: an index
    in [[0, n)] is taken as it is, an index in [[-n, 0)] counts from the
    end, anything else raises [IndexError]. *)
Definition np_index (i : Z) (n : nat) : option nat :=
  if (0 <=? i) && (i <? Z.of_nat n) then Some (Z.to_nat i)
  else if (- Z.of_nat n <=? i) && (i <? 0) then Some (Z.to_nat (i + Z.of_nat n))
  else None.

(** An index resolution without wrap-around: every index outside [[0, n)]
    is an error.  A run that succeeds with it touched no cell outside the
    grid and relied on no negative index. *)
Definition strict_index (i : Z) (n : nat) : option nat :=
  if (0 <=? i) && (i <? Z.of_nat n) then Some (Z.to_nat i) else None.

(** Reading a cell by its coordinates when they are inside the grid; used
    to state properties, not by the embedded code. *)
Definition lee {A} (a : ndarray A) (c : celda) : option A :=
  if (0 <=? c.1) && (0 <=? c.2)
  then fila ← filas a !! Z.to_nat c.1; fila !! Z.to_nat c.2
  else None.

Definition en_rango {A} (a : ndarray A) (c : celda) : Prop :=
  0 <= c.1 < Z.of_nat (shape0 a) /\ 0 <= c.2 < Z.of_nat (shape1 a).

(** [for x in l: s = f(s, x)], where the body may raise. *)
Fixpoint para_cada {S X} (f : S -> X -> option S) (l : list X) (s : S)
  : option S :=
  match l with
  | [] => Some s
  | x :: l' => s' ← f s x; para_cada f l' s'
  end.

(** [np.zeros_like(a, dtype=bool)] *)
Definition zeros_like {A} (a : ndarray A) : ndarray bool :=
  NdArray (shape0 a) (shape1 a)
          (replicate (shape0 a) (replicate (shape1 a) false)).

(** [np.where(a)] on a boolean array of rank 2: the coordinates of the true
    cells, in row-major order. *)
Fixpoint where_fila (y x : Z) (fila : list bool) : list celda :=
  match fila with
  | [] => []
  | b :: r => (if b then [(y, x)] else []) ++ where_fila y (x + 1) r
  end.

Fixpoint where_filas (y : Z) (fs : list (list bool)) : list celda :=
  match fs with
  | [] => []
  | f :: r => where_fila y 0 f ++ where_filas (y + 1) r
  end.

Definition np_where (a : ndarray bool) : list celda := where_filas 0 (filas a).

(** [a.astype(np.uint8)] on a boolean array. *)
Definition astype_uint8 (a : ndarray bool) : ndarray Z :=
  NdArray (shape0 a) (shape1 a)
          (map (map (fun b : bool => if b then 1 else 0)) (filas a)).

(** [a == v] elementwise. *)
Definition eq_escalar (a : ndarray Z) (v : Z) : ndarray bool :=
  NdArray (shape0 a) (shape1 a) (map (map (fun w => w =? v)) (filas a)).

(** NumPy broadcasting of one axis. *)
Definition difusion (n m : nat) : option nat :=
  if (n =? m)%nat then Some n
  else if (n =? 1)%nat then Some m
  else if (m =? 1)%nat then Some n
  else None.

Definition tabular {A} (n : nat) (f : nat -> A) : list A := map f (seq 0 n).

(** [a * b] on two [uint8] arrays: broadcast, multiply, wrap modulo 256;
    [ValueError] when the shapes do not broadcast. *)
Definition np_mul_uint8 (a b : ndarray Z) : option (ndarray Z) :=
  r ← difusion (shape0 a) (shape0 b);
  c ← difusion (shape1 a) (shape1 b);
  let at_ (m : ndarray Z) (i j : nat) : Z :=
    let i' := if (shape0 m =? 1)%nat then 0%nat else i in
    let j' := if (shape1 m =? 1)%nat then 0%nat else j in
    default 0 (fila ← filas m !! i'; fila !! j') in
  Some (NdArray r c
          (tabular r (fun i => tabular c (fun j => (at_ a i j * at_ b i j) mod 256)))).

(** ** Floating-point formats *)

(** A rounding never reverses the order of two numbers: IEEE 754 roundings
    are monotone. *)
Definition monotona (fl : Q -> Q) : Prop :=
  forall x y, (x <= y)%Q -> (fl x <= fl y)%Q.

(** [x] is a value of the format: rounding leaves it as it is. *)
Definition representable (fl : Q -> Q) (x : Q) : Prop := (fl x == x)%Q.

(** The nearest integer, ties to the even one. *)
Definition redondear_par (q : Q) : Z :=
  let f := Qfloor q in
  match (q - inject_Z f ?= 1 # 2)%Q with
  | Lt => f
  | Gt => f + 1
  | Eq => if Z.even f then f else f + 1
  end.

(** For [q > 0], the [e] with [2^e <= q < 2^(e+1)]. *)
Definition exponente (q : Q) : Z :=
  let e := Z.log2 (Qnum q) - Z.log2 (Zpos (Qden q)) in
  if Qle_bool (2 ^ e) q then e else e - 1.

Definition binario_pos (p : Z) (q : Q) : Q :=
  let ulp := (2 ^ (exponente q - p + 1))%Q in
  (inject_Z (redondear_par (q / ulp)) * ulp)%Q.

(** Rounding to nearest, ties to even, into the binary format with [p]
    significant bits.  The range of the exponent is not bounded: overflow
    and subnormal numbers are outside. *)
Definition binario (p : Z) (q : Q) : Q :=
  match (q ?= 0)%Q with
  | Eq => 0%Q
  | Gt => binario_pos p q
  | Lt => (- binario_pos p (- q))%Q
  end.

(** [np.float64] and Python's [float]; [np.float32]. *)
Definition float64 : Q -> Q := binario 53.
Definition float32 : Q -> Q := binario 24.

(** Arithmetic without rounding. *)
Definition exacto : Q -> Q := fun q => q.

Section Formato.

(** [fl] rounds the exact result of an arithmetic operation into the
    floating-point format in which NumPy evaluates it. *)
Variable fl : Q -> Q.

(** [dem[y, x] + nivel_agua]: the Python float [nivel_agua] is converted
    into the format of the operation, and the sum is rounded. *)
Definition mas_nivel (c nivel_agua : Q) : Q := fl (c + fl nivel_agua).

(** [dem[y, x] - 1.0]; 1.0 is a value of every binary format. *)
Definition menos_uno (c : Q) : Q := fl (c - 1).

(** ** The propagation, over any index resolution and processing order *)

Section Propagacion.

(** [resolve] is the index resolution of the array accesses ([np_index] in
    the script); [orden k l] is the order in which round [k] walks the
    frontier [l] (the script walks it as collected). *)
Variable resolve : Z -> nat -> option nat.
Variable orden : nat -> list celda -> list celda.

(** [a[y, x]] *)
Definition getitem {A} (a : ndarray A) (y x : Z) : option A :=
  i ← resolve y (shape0 a);
  j ← resolve x (shape1 a);
  fila ← filas a !! i;
  fila !! j.

(** [a[y, x] = v], in place *)
Definition setitem {A} (a : ndarray A) (y x : Z) (v : A) : option (ndarray A) :=
  i ← resolve y (shape0 a);
  j ← resolve x (shape1 a);
  fila ← filas a !! i;
  _ ← fila !! j;
  Some (NdArray (shape0 a) (shape1 a) (<[i := <[j := v]> fila]> (filas a))).

(** Python's short-circuit [and] over operands that may raise. *)
Definition y_perezoso (p q : option bool) : option bool :=
  match p with
  | Some true => q
  | Some false => Some false
  | None => None
  end.

(** The state of one round: the flooded grid and [nuevos_puntos]. *)
Definition estado : Type := (ndarray bool * list celda)%type.

(** The body of the two inner loops (lines 277-293) for one offset. *)
Definition visitar (dem : ndarray Q) (y x : Z) (elev_actual : Q)
    (dy dx : Z) (st : estado) : option estado :=
  let '(inundacion, nuevos_puntos) := st in
  if (dy =? 0) && (dx =? 0) then Some st
  else
    let ny := y + dy in
    let nx := x + dx in
    if (0 <=? ny) && (ny <? Z.of_nat (shape0 dem))
       && ((0 <=? nx) && (nx <? Z.of_nat (shape1 dem)))
    then
      condicion ←
        y_perezoso (negb <$> getitem inundacion ny nx)
          (y_perezoso
             (e ← getitem dem ny nx; Some (Qle_bool e elev_actual))
             (e ← getitem dem ny nx; c ← getitem dem y x;
              Some (Qle_bool (menos_uno c) e)));
      if (condicion : bool) then
        inundacion' ← setitem inundacion ny nx true;
        Some (inundacion', nuevos_puntos ++ [(ny, nx)])
      else Some st
    else Some st.

(** The body of [for y, x in puntos_activos] (lines 270-293). *)
Definition procesar_punto (dem : ndarray Q) (nivel_agua : Q)
    (st : estado) (p : celda) : option estado :=
  let '(y, x) := p in
  c ← getitem dem y x;
  let elev_actual := mas_nivel c nivel_agua in
  para_cada (fun st dy =>
    para_cada (fun st dx => visitar dem y x elev_actual dy dx st)
              [-1; 0; 1] st)
    [-1; 0; 1] st.

(** [for iteracion in range(pasos)] (lines 267-298): [n] rounds are left,
    [iteracion] is the index of the next one. *)
Fixpoint iterar (dem : ndarray Q) (nivel_agua : Q) (n : nat) (iteracion : nat)
    (inundacion : ndarray bool) (puntos_activos : list celda)
  : option (ndarray bool) :=
  match n with
  | O => Some inundacion
  | S n' =>
      '(inundacion', nuevos_puntos) ←
        para_cada (procesar_punto dem nivel_agua)
                  (orden iteracion puntos_activos) (inundacion, []);
      match nuevos_puntos with
      | [] => Some inundacion'
      | _ :: _ => iterar dem nivel_agua n' (S iteracion) inundacion' nuevos_puntos
      end
  end.

(** Lines 256-264: the fresh grid with the seeds marked. *)
Definition marcar_semillas (dem : ndarray Q) (puntos_activos : list celda)
  : option (ndarray bool) :=
  para_cada (fun inundacion '(y, x) => setitem inundacion y x true)
            puntos_activos (zeros_like dem).

Definition propagar_con (dem : ndarray Q) (semillas : ndarray bool)
    (nivel_agua : Q) (pasos : Z) : option (ndarray Z) :=
  let puntos_activos := np_where semillas in
  inundacion ← marcar_semillas dem puntos_activos;
  inundacion ← iterar dem nivel_agua (Z.to_nat pasos) 0 inundacion puntos_activos;
  Some (astype_uint8 inundacion).

End Propagacion.

(** [propagar_inundacion(dem, semillas, nivel_agua, pasos)] as the script
    runs it: NumPy's index resolution, the frontier walked as collected. *)
Definition propagar_inundacion (dem : ndarray Q) (semillas : ndarray bool)
    (nivel_agua : Q) (pasos : Z) : option (ndarray Z) :=
  propagar_con np_index (fun _ l => l) dem semillas nivel_agua pasos.

(** The propagation operation of the specification: the flood fill followed
    by the containment product of the simulation loop
    ([inundacion * cuenca_mask], line 330) when a containment mask is given. *)
Definition extension (dem : ndarray Q) (semillas : ndarray bool)
    (contencion : option (ndarray Z)) (nivel_agua : Q) (pasos : Z)
  : option (ndarray Z) :=
  inundacion ← propagar_inundacion dem semillas nivel_agua pasos;
  match contencion with
  | Some cuenca_mask => np_mul_uint8 inundacion cuenca_mask
  | None => Some inundacion
  end.

(** One pass of the simulation loop (lines 324-330). *)
Definition simular_nivel (dem : ndarray Q) (rio_mask cuenca_mask : ndarray Z)
    (nivel : Q) : option (ndarray Z) :=
  let semillas := eq_escalar rio_mask 1 in
  extension dem semillas (Some cuenca_mask) nivel 100.

(** The inputs the specification asks for: well-formed grids of one shape. *)
Definition contencion_valida (dem : ndarray Q) (cont : option (ndarray Z)) : bool :=
  match cont with
  | Some m => bien_formado m && misma_forma m dem
  | None => true
  end.

Definition entrada_valida (dem : ndarray Q) (sem : ndarray bool)
    (cont : option (ndarray Z)) : bool :=
  bien_formado dem && bien_formado sem && misma_forma sem dem
  && contencion_valida dem cont.

(** Following the specification's words (the script has no such variant):
    the flood fill at level [l2] seeded with the original seeds together
    with the extent computed at the lower level [l1]. *)
Definition unir_semillas (sem : ndarray bool) (previa : ndarray Z)
  : ndarray bool :=
  NdArray (shape0 sem) (shape1 sem)
          (zip_with (zip_with (fun (b : bool) v => b || negb (v =? 0)))
                    (filas sem) (filas previa)).

Definition propagar_reusando (dem : ndarray Q) (sem : ndarray bool)
    (l1 l2 : Q) (pasos : Z) : option (ndarray Z) :=
  previa ← propagar_inundacion dem sem l1 pasos;
  propagar_inundacion dem (unir_semillas sem previa) l2 pasos.

(** The grids of the barrier scenario: a 5x5 grid with elevation 100 in
    column 3 and 0 elsewhere, and a single seed at (2, 0). *)
Definition dem_barrera : ndarray Q :=
  NdArray 5 5 (replicate 5 [0%Q; 0%Q; 0%Q; 100%Q; 0%Q]).

Definition semilla_2_0 : ndarray bool :=
  NdArray 5 5 [replicate 5 false; replicate 5 false;
               [true; false; false; false; false];
               replicate 5 false; replicate 5 false].

(** A flat strip of 202 cells with a seed at its left end. *)
Definition franja : ndarray Q := NdArray 1 202 [replicate 202 0%Q].

Definition semilla_franja : ndarray bool :=
  NdArray 1 202 [true :: replicate 201 false].

(** ** What the specification talks about *)

(** [n] is one of the 8 grid neighbours of [c]. *)
Definition vecinos8 (c n : celda) : Prop :=
  c <> n /\ -1 <= n.1 - c.1 <= 1 /\ -1 <= n.2 - c.2 <= 1.

(** The elevation part of the admission rule, from a flooded cell [c] to
    its neighbour [n], both inside the grid: with
    [head = elevation c + level], [elevation n <= head] and
    [elevation n >= elevation c - 1.0], the sum and the difference being
    the floating-point ones. *)
Definition admisible (dem : ndarray Q) (nivel : Q) (c n : celda) : Prop :=
  exists ec en, lee dem c = Some ec /\ lee dem n = Some en
                /\ (en <= mas_nivel ec nivel)%Q /\ (menos_uno ec <= en)%Q.

Definition paso (dem : ndarray Q) (nivel : Q) (c n : celda) : Prop :=
  vecinos8 c n /\ admisible dem nivel c n.

(** [alcanza dem sem nivel k c]: [c] is a seed, or is reached from a seed by
    a chain of at most [k] admissible neighbour steps. *)
Inductive alcanza (dem : ndarray Q) (sem : ndarray bool) (nivel : Q)
  : nat -> celda -> Prop :=
| alcanza_semilla k c : lee sem c = Some true -> alcanza dem sem nivel k c
| alcanza_paso k c n :
    alcanza dem sem nivel k c -> paso dem nivel c n ->
    alcanza dem sem nivel (S k) n.

(** [ronda dem sem nivel k n]: [n] is admitted in expansion round [k]
    (round 0 marks the seeds): it is not flooded when round [k] starts, and
    a cell admitted in the round before admits it. *)
Fixpoint ronda (dem : ndarray Q) (sem : ndarray bool) (nivel : Q)
    (k : nat) (n : celda) : Prop :=
  match k with
  | O => lee sem n = Some true
  | S k' => ~ alcanza dem sem nivel k' n
            /\ exists c, ronda dem sem nivel k' c /\ paso dem nivel c n
  end.

(** A cell of a [uint8] result is flooded when it is not zero. *)
Definition inundada (r : ndarray Z) (c : celda) : Prop :=
  exists v, lee r c = Some v /\ v <> 0.

(** A cell lies within a containment mask when the mask is not zero
    there. *)
Definition dentro_de (m : ndarray Z) (c : celda) : Prop :=
  exists v, lee m c = Some v /\ v <> 0.

(** A boolean grid as a set of cells. *)
Definition mojada (a : ndarray bool) (c : celda) : Prop := lee a c = Some true.

(** ** Invariants of the run *)

(** The flooded grid keeps the shape of the elevation grid. *)
Definition bueno (dem : ndarray Q) (inund : ndarray bool) : Prop :=
  bien_formado inund = true
  /\ shape0 inund = shape0 dem /\ shape1 inund = shape1 dem.

(** [extiende dem X st st']: from [st] to [st'] exactly the cells of [X]
    were flooded, and those of them that were dry were appended to the new
    frontier. *)
Definition extiende (dem : ndarray Q) (X : celda -> Prop)
    (st st' : ndarray bool * list celda) : Prop :=
  bueno dem st'.1
  /\ (forall c, mojada st'.1 c <-> mojada st.1 c \/ X c)
  /\ (forall c, In c st'.2 <-> In c st.2 \/ (X c /\ ~ mojada st.1 c)).

(** After [k] rounds: the flooded cells are those reached within [k]
    steps, the frontier is flooded, and a flooded cell outside the
    frontier has admitted all it can. *)
Definition inv dem sem nivel (k : nat) (inund : ndarray bool)
    (activos : list celda) : Prop :=
  bueno dem inund
  /\ (forall c, mojada inund c <-> alcanza dem sem nivel k c)
  /\ (forall c, In c activos -> mojada inund c)
  /\ (forall c n, alcanza dem sem nivel k c -> ~ In c activos ->
                  paso dem nivel c n -> alcanza dem sem nivel k n).

(** The configurations the specification wants rejected. *)
Definition configuracion_invalida (dem : ndarray Q) (sem : ndarray bool)
    (cont : option (ndarray Z)) (nivel : Q) (pasos : Z) : Prop :=
  misma_forma sem dem = false
  \/ (exists m, cont = Some m /\ misma_forma m dem = false)
  \/ pasos <= 0
  \/ (nivel < 0)%Q.

(** Small inputs used in the examples. *)
Definition cuenca_izquierda : ndarray Z :=
  NdArray 5 5 (replicate 5 [1; 1; 0; 0; 0]).

Definition dem_1x2 : ndarray Q := NdArray 1 2 [[0%Q; 0%Q]].

Definition semilla_1x1 : ndarray bool := NdArray 1 1 [[true]].

Definition dem_1x1 : ndarray Q := NdArray 1 1 [[0%Q]].

Definition semilla_2x2 : ndarray bool :=
  NdArray 2 2 [[false; false]; [false; true]].

(** Two cells that rounding brings together: elevations 1024 - 2^-14 and
    1024.5, both values of binary32; at level 0.5 the head of the first,
    1024.5 - 2^-14, is no value of binary32. *)
Definition dem_redondeo : ndarray Q :=
  NdArray 1 2 [[(16777215 # 16384)%Q; (2049 # 2)%Q]].

(** A step down of exactly 1.0. *)
Definition dem_escalon : ndarray Q := NdArray 1 2 [[1000%Q; 999%Q]].

Definition semilla_izquierda : ndarray bool := NdArray 1 2 [[true; false]].

(** ** The same call over a store of array objects

    The script passes arrays by reference and writes [inundacion] in place.
    Here every array is an object of a store, the parameters are references
    into it, and a raised exception leaves the store as it is at that
    point. *)

Inductive objeto : Type :=
| ArrFloat (a : ndarray Q)
| ArrBool (a : ndarray bool)
| ArrUint8 (a : ndarray Z).

(** A computation over the store that may raise. *)
Definition M (A : Type) : Type :=
  gmap positive objeto -> gmap positive objeto * option A.

#[global] Instance M_ret : MRet M := fun A (a : A) h => (h, Some a).

#[global] Instance M_bind : MBind M := fun A B (f : A -> M B) (m : M A) h =>
  match m h with
  | (h', Some a) => f a h'
  | (h', None) => (h', None)
  end.

(** A pure step that may raise. *)
Definition elevar {A} (o : option A) : M A := fun h => (h, o).

(** Allocation of a new array object. *)
Definition nuevo (o : objeto) : M positive :=
  fun h => let l := fresh (dom h) in (<[l := o]> h, Some l).

Definition leer_float (l : positive) : M (ndarray Q) :=
  fun h => (h, match h !! l with Some (ArrFloat a) => Some a | _ => None end).

Definition leer_bool (l : positive) : M (ndarray bool) :=
  fun h => (h, match h !! l with Some (ArrBool a) => Some a | _ => None end).

Definition leer_uint8 (l : positive) : M (ndarray Z) :=
  fun h => (h, match h !! l with Some (ArrUint8 a) => Some a | _ => None end).

Definition escribir (l : positive) (o : objeto) : M unit :=
  fun h => (<[l := o]> h, Some tt).

Definition getitem_float (l : positive) (y x : Z) : M Q :=
  a ← leer_float l; elevar (getitem np_index a y x).

Definition getitem_bool (l : positive) (y x : Z) : M bool :=
  a ← leer_bool l; elevar (getitem np_index a y x).

Definition setitem_bool (l : positive) (y x : Z) (v : bool) : M unit :=
  a ← leer_bool l;
  a' ← elevar (setitem np_index a y x v);
  escribir l (ArrBool a').

Definition shape_float (l : positive) : M (nat * nat) :=
  a ← leer_float l; mret (shape0 a, shape1 a).

Fixpoint para_cada_m {S X} (f : S -> X -> M S) (l : list X) (s : S) : M S :=
  match l with
  | [] => mret s
  | x :: l' => s' ← f s x; para_cada_m f l' s'
  end.

Definition y_perezoso_m (p q : M bool) : M bool :=
  p ≫= fun b : bool => if b then q else mret false.

Definition visitar_ref (dem inundacion : positive) (y x : Z) (elev_actual : Q)
    (dy dx : Z) (nuevos_puntos : list celda) : M (list celda) :=
  if (dy =? 0) && (dx =? 0) then mret nuevos_puntos
  else
    let ny := y + dy in
    let nx := x + dx in
    forma ← shape_float dem;
    if (0 <=? ny) && (ny <? Z.of_nat forma.1)
       && ((0 <=? nx) && (nx <? Z.of_nat forma.2))
    then
      y_perezoso_m (b ← getitem_bool inundacion ny nx; mret (negb b))
        (y_perezoso_m
           (e ← getitem_float dem ny nx; mret (Qle_bool e elev_actual))
           (e ← getitem_float dem ny nx; c ← getitem_float dem y x;
            mret (Qle_bool (menos_uno c) e)))
      ≫= fun condicion : bool =>
        if condicion then
          _ ← setitem_bool inundacion ny nx true;
          mret (nuevos_puntos ++ [(ny, nx)])
        else mret nuevos_puntos
    else mret nuevos_puntos.

Definition procesar_punto_ref (dem inundacion : positive) (nivel_agua : Q)
    (nuevos_puntos : list celda) (p : celda) : M (list celda) :=
  let '(y, x) := p in
  c ← getitem_float dem y x;
  let elev_actual := mas_nivel c nivel_agua in
  para_cada_m (fun nuevos dy =>
    para_cada_m (fun nuevos dx =>
                   visitar_ref dem inundacion y x elev_actual dy dx nuevos)
                [-1; 0; 1] nuevos)
    [-1; 0; 1] nuevos_puntos.

Fixpoint iterar_ref (dem inundacion : positive) (nivel_agua : Q) (n : nat)
    (puntos_activos : list celda) : M unit :=
  match n with
  | O => mret tt
  | S n' =>
      nuevos_puntos ←
        para_cada_m (procesar_punto_ref dem inundacion nivel_agua)
                    puntos_activos [];
      match nuevos_puntos with
      | [] => mret tt
      | _ :: _ => iterar_ref dem inundacion nivel_agua n' nuevos_puntos
      end
  end.

(** [propagar_inundacion(dem, semillas, nivel_agua, pasos)] on references:
    the result is the reference of the array [astype] allocates. *)
Definition propagar_inundacion_ref (dem semillas : positive) (nivel_agua : Q)
    (pasos : Z) : M positive :=
  d ← leer_float dem;
  inundacion ← nuevo (ArrBool (zeros_like d));
  s ← leer_bool semillas;
  let puntos_activos := np_where s in
  _ ← para_cada_m (fun (_ : unit) '(y, x) => setitem_bool inundacion y x true)
                  puntos_activos tt;
  _ ← iterar_ref dem inundacion nivel_agua (Z.to_nat pasos) puntos_activos;
  a ← leer_bool inundacion;
  nuevo (ArrUint8 (astype_uint8 a)).

(** The propagation operation on references: the flood fill, then the
    product with the containment mask, which allocates its result. *)
Definition extension_ref (dem semillas : positive) (contencion : option positive)
    (nivel_agua : Q) (pasos : Z) : M positive :=
  inundacion ← propagar_inundacion_ref dem semillas nivel_agua pasos;
  match contencion with
  | Some cuenca_mask =>
      a ← leer_uint8 inundacion;
      m ← leer_uint8 cuenca_mask;
      r ← elevar (np_mul_uint8 a m);
      nuevo (ArrUint8 r)
  | None => mret inundacion
  end.

(** [respeta P m]: [m] keeps every object of the store, and changes none
    outside [P]. *)
Definition respeta {A} (P : positive -> Prop) (m : M A) : Prop :=
  forall h l o, h !! l = Some o ->
    is_Some ((m h).1 !! l) /\ (~ P l -> (m h).1 !! l = Some o).

(** [da_nuevo m]: the reference [m] returns was not in the store before. *)
Definition da_nuevo (m : M positive) : Prop :=
  forall h h' r, m h = (h', Some r) -> h !! r = None /\ is_Some (h' !! r).

(** The store holds the elevation grid at [d] and the flooded grid at [i]. *)
Definition contiene (d i : positive) (dem : ndarray Q) (inund : ndarray bool)
    (h : gmap positive objeto) : Prop :=
  h !! d = Some (ArrFloat dem) /\ h !! i = Some (ArrBool inund).

(** [simula d i dem m r h]: run on the store [h], [m] does what the
    value-level result [r] says: it raises when [r] is an error, and otherwise
    returns the value of [r] and leaves the grid of [r] at [i]. *)
Definition simula {A} (d i : positive) (dem : ndarray Q) (m : M A)
    (r : option (ndarray bool * A)) (h : gmap positive objeto) : Prop :=
  match r with
  | Some (inund', a) =>
      exists h', m h = (h', Some a) /\ contiene d i dem inund' h'
  | None => (m h).2 = None
  end.

(** The containment mask behind an optional reference. *)
Definition contencion_en (h : gmap positive objeto) (c : option positive)
    (cont : option (ndarray Z)) : Prop :=
  match c, cont with
  | Some l, Some m => h !! l = Some (ArrUint8 m)
  | None, None => True
  | _, _ => False
  end.

(** A store with the grids of the barrier scenario. *)
Definition almacen_ejemplo : gmap positive objeto :=
  <[1%positive := ArrFloat dem_barrera]>
    (<[2%positive := ArrBool semilla_2_0]> ∅).

(** ** The simulation loop (PASO 6) and its log *)

(** [np.sum(a)] of a [uint8] array: NumPy accumulates in the unsigned
    platform integer, 64 bits wide. *)
Definition np_sum_uint8 (a : ndarray Z) : Z :=
  fold_right Z.add 0 (concat (filas a)) mod 2 ^ 64.

(** One entry of [log_data]. *)
Record registro : Type := Registro {
  Nivel_m : Q;
  Area_km2 : Q;
  Pixeles : Z
}.

(** [np.sum(inundacion) * abs(transform[0] * transform[4])] and then
    [area_m2 / 1e6] (lines 341-342): the [uint64] sum is converted to
    binary64, the other operands are Python floats, and every operation
    rounds to binary64. *)
Definition area_km2_de (pixeles : Z) (t0 t4 : Q) : Q :=
  let area_m2 :=
    float64 (float64 (inject_Z pixeles) * Qabs (float64 (t0 * t4))) in
  float64 (area_m2 / 1000000).

(** The body of [for i, nivel in enumerate(niveles_agua)] (lines 320-348).
    [t0] and [t4] are [transform[0]] and [transform[4]], the cell width and
    height of the raster.  The progress message and the raster file written
    at each level are outside the embedding. *)
Definition paso6_cuerpo (dem : ndarray Q) (rio_mask cuenca_mask : ndarray Z)
    (t0 t4 : Q) (log_data : list registro) (nivel : Q)
  : option (list registro) :=
  inundacion ← simular_nivel dem rio_mask cuenca_mask nivel;
  let area_km2 := area_km2_de (np_sum_uint8 inundacion) t0 t4 in
  Some (log_data ++ [{| Nivel_m := nivel;
                        Area_km2 := area_km2;
                        Pixeles := np_sum_uint8 inundacion |}]).

(** Lines 318-348: [log_data] after the loop over the levels. *)
Definition paso6 (dem : ndarray Q) (rio_mask cuenca_mask : ndarray Z)
    (t0 t4 : Q) (niveles : list Q) : option (list registro) :=
  para_cada (paso6_cuerpo dem rio_mask cuenca_mask t0 t4) niveles [].

(** Line 313. *)
Definition niveles_agua : list Q :=
  [1 # 2; 1; 3 # 2; 2; 5 # 2; 3; 7 # 2; 4; 9 # 2; 5; 11 # 2; 6; 7]%Q.

(** The masks as the script builds them: grids of the shape of the
    elevation grid. *)
Definition mascaras_validas (dem : ndarray Q) (rio_mask cuenca_mask : ndarray Z)
  : bool :=
  bien_formado dem
  && (bien_formado rio_mask && misma_forma rio_mask dem)
  && (bien_formado cuenca_mask && misma_forma cuenca_mask dem).

(** Every cell of the array is a [uint8] value. *)
Definition es_uint8 (a : ndarray Z) : bool :=
  forallb (forallb (fun v => (0 <=? v) && (v <? 256))) (filas a).

(** Every cell of the array is 0 or 1, as in a rasterized mask. *)
Definition es_binaria (a : ndarray Z) : bool :=
  forallb (forallb (fun v => (v =? 0) || (v =? 1))) (filas a).

(** The sum of the cells, without wrap-around. *)
Definition suma (a : ndarray Z) : Z := fold_right Z.add 0 (concat (filas a)).

(** The number of cells that are not zero. *)
Definition no_nulas (a : ndarray Z) : nat :=
  length (List.filter (fun v => negb (v =? 0)) (concat (filas a))).

(** The log entry of a level whose extent is [out]. *)
Definition registro_de (t0 t4 : Q) (nivel : Q) (out : ndarray Z) : registro :=
  {| Nivel_m := nivel;
     Area_km2 := area_km2_de (np_sum_uint8 out) t0 t4;
     Pixeles := np_sum_uint8 out |}.

(** ** Further notions used to state properties *)

(** All the cells of a grid. *)
Definition todas {A} (a : ndarray A) : list celda :=
  flat_map (fun i => map (fun j => (Z.of_nat i, Z.of_nat j))
                         (seq 0 (shape1 a)))
           (seq 0 (shape0 a)).

Definition esta_inundada (r : ndarray Z) (c : celda) : bool :=
  match lee r c with
  | Some v => negb (v =? 0)
  | None => false
  end.

(** The number of flooded cells of a result. *)
Definition cuenta (dem : ndarray Q) (r : ndarray Z) : nat :=
  length (List.filter (esta_inundada r) (todas dem)).

(** Every cell of the elevation grid has elevation [e0]. *)
Definition plano (dem : ndarray Q) (e0 : Q) : bool :=
  forallb (forallb (Qeq_bool e0)) (filas dem).

(** [c] is within [k] king moves of [s]. *)
Definition cerca (k : nat) (s c : celda) : Prop :=
  Z.abs (c.1 - s.1) <= Z.of_nat k /\ Z.abs (c.2 - s.2) <= Z.of_nat k.

(** One seed mask is contained in another. *)
Definition semillas_incluidas (sem sem' : ndarray bool) : Prop :=
  forall c, lee sem c = Some true -> lee sem' c = Some true.

(** What a round keeps true of its state, [inund0] being the flooded grid
    when the round starts: the new frontier has no repeated cell, its cells
    are flooded now and were dry when the round started, and nothing has
    dried. *)
Definition frontera_sana (inund0 : ndarray bool)
    (st : ndarray bool * list celda) : Prop :=
  NoDup st.2
  /\ (forall c, In c st.2 -> mojada st.1 c /\ ~ mojada inund0 c)
  /\ (forall c, mojada inund0 c -> mojada st.1 c).

(** A river mask for the barrier scenario: the river is the cell (2, 0). *)
Definition rio_ejemplo : ndarray Z :=
  NdArray 5 5 [replicate 5 0; replicate 5 0; [1; 0; 0; 0; 0];
               replicate 5 0; replicate 5 0].

(** A flat 5x5 grid and a seed at its centre. *)
Definition dem_plano : ndarray Q := NdArray 5 5 (replicate 5 (replicate 5 0%Q)).

Definition semilla_centro : ndarray bool :=
  NdArray 5 5 [replicate 5 false; replicate 5 false;
               [false; false; true; false; false];
               replicate 5 false; replicate 5 false].

Definition semillas_dos : ndarray bool :=
  NdArray 5 5 [replicate 5 false; replicate 5 false;
               [true; false; true; false; false];
               replicate 5 false; replicate 5 false].

(** ** Binary rounding is monotone *)

Lemma redondear_par_cotas q :
  Qfloor q <= redondear_par q <= Qfloor q + 1.
Proof.
  unfold redondear_par.
  destruct (q - inject_Z (Qfloor q) ?= 1 # 2)%Q; [|lia|lia].
  destruct (Z.even (Qfloor q)); lia.
Qed.

Lemma redondear_par_mono x y :
  (x <= y)%Q -> redondear_par x <= redondear_par y.
Proof.
  intros H. pose proof (Qfloor_resp_le x y H) as Hf.
  pose proof (redondear_par_cotas x) as Hx.
  pose proof (redondear_par_cotas y) as Hy.
  destruct (Z.eq_dec (Qfloor x) (Qfloor y)) as [E|E]; [|lia].
  unfold redondear_par. rewrite <- E.
  destruct (Qcompare_spec (x - inject_Z (Qfloor x)) (1 # 2)) as [H1|H1|H1];
    destruct (Qcompare_spec (y - inject_Z (Qfloor x)) (1 # 2)) as [H2|H2|H2];
    try lia; try (destruct (Z.even (Qfloor x)); lia); exfalso; lra.
Qed.

Lemma redondear_par_entero n : redondear_par (inject_Z n) = n.
Proof.
  unfold redondear_par. rewrite Qfloor_Z.
  assert (inject_Z n - inject_Z n == 0)%Q as -> by ring.
  reflexivity.
Qed.

Lemma dos_positivo e : (0 < 2 ^ e)%Q.
Proof. apply Qpower_0_lt. reflexivity. Qed.

Lemma dos_no_nulo : ~ (2 == 0)%Q.
Proof. discriminate. Qed.

Lemma dos_entero n : 0 <= n -> (inject_Z (2 ^ n) == 2 ^ n)%Q.
Proof. intros H. now rewrite Zpower_Qpower. Qed.

Lemma exponente_cotas q :
  (0 < q)%Q -> (2 ^ exponente q <= q)%Q /\ (q < 2 ^ (exponente q + 1))%Q.
Proof.
  intros Hq. destruct q as [n d]. unfold exponente. simpl Qnum. simpl Qden.
  assert (0 < n) as Hn by (unfold Qlt in Hq; simpl in Hq; lia).
  set (a := Z.log2 n). set (b := Z.log2 (Z.pos d)).
  pose proof (Z.log2_nonneg n) as Ha0. fold a in Ha0.
  pose proof (Z.log2_nonneg (Z.pos d)) as Hb0. fold b in Hb0.
  destruct (Z.log2_spec n Hn) as [Ha1 Ha2]. fold a in Ha1, Ha2.
  destruct (Z.log2_spec (Z.pos d) eq_refl) as [Hb1 Hb2]. fold b in Hb1, Hb2.
  assert (forall u v, 0 <= u -> 0 <= v ->
            (2 ^ (u - v) == inject_Z (2 ^ u) / inject_Z (2 ^ v))%Q) as Hpow.
  { intros u v Hu Hv. rewrite Qpower_minus by exact dos_no_nulo.
    now rewrite !dos_entero. }
  assert (0 < inject_Z (2 ^ b))%Q as Hpb.
  { rewrite dos_entero by lia. apply dos_positivo. }
  assert (0 < inject_Z (2 ^ (b + 1)))%Q as Hpb1.
  { rewrite dos_entero by lia. apply dos_positivo. }
  assert (n # d == inject_Z n / inject_Z (Z.pos d))%Q as Hnd
    by apply Qmake_Qdiv.
  assert (0 < inject_Z (Z.pos d))%Q as Hd by reflexivity.
  destruct (Qle_bool (2 ^ (a - b)) (n # d)) eqn:Eb.
  - apply Qle_bool_iff in Eb. split; [exact Eb|].
    replace (a - b + 1) with (a + 1 - b) by lia.
    rewrite Hpow by lia. rewrite Hnd.
    apply Qlt_shift_div_l; [exact Hpb|].
    unfold Qdiv. rewrite <- Qmult_assoc, (Qmult_comm (/ _)), Qmult_assoc.
    apply Qlt_shift_div_r; [exact Hd|].
    rewrite <- !inject_Z_mult, <- Zlt_Qlt.
    replace (Z.succ a) with (a + 1) in Ha2 by lia. nia.
  - assert (n # d < 2 ^ (a - b))%Q as Hlt.
    { apply Qnot_le_lt. intros H. apply Qle_bool_iff in H. congruence. }
    split.
    + replace (a - b - 1) with (a - (b + 1)) by lia.
      rewrite Hpow by lia. rewrite Hnd.
      apply Qle_shift_div_r; [exact Hpb1|].
      unfold Qdiv. rewrite <- Qmult_assoc, (Qmult_comm (/ _)), Qmult_assoc.
      apply Qle_shift_div_l; [exact Hd|].
      rewrite <- !inject_Z_mult, <- Zle_Qle.
      replace (Z.succ b) with (b + 1) in Hb2 by lia. nia.
    + replace (a - b - 1 + 1) with (a - b) by lia. exact Hlt.
Qed.

Lemma binario_pos_cotas p q :
  1 <= p -> (0 < q)%Q ->
  (2 ^ exponente q <= binario_pos p q)%Q
  /\ (binario_pos p q <= 2 ^ (exponente q + 1))%Q.
Proof.
  intros Hp Hq. destruct (exponente_cotas q Hq) as [H1 H2].
  unfold binario_pos. set (e := exponente q) in *.
  set (ulp := (2 ^ (e - p + 1))%Q).
  assert (0 < ulp)%Q as Hu by apply dos_positivo.
  assert (2 ^ e == inject_Z (2 ^ (p - 1)) * ulp)%Q as E1.
  { rewrite dos_entero by lia. unfold ulp.
    rewrite <- Qpower_plus by exact dos_no_nulo. f_equiv. lia. }
  assert (2 ^ (e + 1) == inject_Z (2 ^ p) * ulp)%Q as E2.
  { rewrite dos_entero by lia. unfold ulp.
    rewrite <- Qpower_plus by exact dos_no_nulo. f_equiv. lia. }
  split.
  - rewrite E1. apply Qmult_le_compat_r; [|now apply Qlt_le_weak].
    rewrite <- Zle_Qle. rewrite <- (redondear_par_entero (2 ^ (p - 1))).
    apply redondear_par_mono. apply Qle_shift_div_l; [exact Hu|].
    now rewrite <- E1.
  - rewrite E2. apply Qmult_le_compat_r; [|now apply Qlt_le_weak].
    rewrite <- Zle_Qle. rewrite <- (redondear_par_entero (2 ^ p)).
    apply redondear_par_mono. apply Qle_shift_div_r; [exact Hu|].
    rewrite <- E2. now apply Qlt_le_weak.
Qed.

Lemma binario_pos_mono p x y :
  1 <= p -> (0 < x)%Q -> (x <= y)%Q ->
  (binario_pos p x <= binario_pos p y)%Q.
Proof.
  intros Hp Hx Hxy.
  assert (0 < y)%Q as Hy by (eapply Qlt_le_trans; eauto).
  destruct (exponente_cotas x Hx) as [Hx1 Hx2].
  destruct (exponente_cotas y Hy) as [Hy1 Hy2].
  destruct (binario_pos_cotas p x Hp Hx) as [_ Bx].
  destruct (binario_pos_cotas p y Hp Hy) as [By _].
  destruct (Z.lt_trichotomy (exponente x) (exponente y)) as [H|[H|H]].
  - apply Qle_trans with (2 ^ (exponente x + 1))%Q; [exact Bx|].
    apply Qle_trans with (2 ^ exponente y)%Q; [|exact By].
    apply Qpower_le_compat_l; [lia|discriminate].
  - unfold binario_pos. rewrite H.
    apply Qmult_le_compat_r; [|apply Qlt_le_weak, dos_positivo].
    rewrite <- Zle_Qle. apply redondear_par_mono.
    apply Qmult_le_compat_r; [exact Hxy|].
    apply Qlt_le_weak, Qinv_lt_0_compat, dos_positivo.
  - exfalso.
    assert (2 ^ (exponente y + 1) <= 2 ^ exponente x)%Q as Hle
      by (apply Qpower_le_compat_l; [lia|discriminate]).
    lra.
Qed.

Lemma binario_pos_positivo p q : 1 <= p -> (0 < q)%Q -> (0 < binario_pos p q)%Q.
Proof.
  intros Hp Hq. destruct (binario_pos_cotas p q Hp Hq) as [H _].
  eapply Qlt_le_trans; [apply (dos_positivo (exponente q))|exact H].
Qed.

Lemma binario_mono p : 1 <= p -> monotona (binario p).
Proof.
  intros Hp x y Hxy. unfold binario.
  destruct (Qcompare_spec x 0) as [Hx|Hx|Hx];
    destruct (Qcompare_spec y 0) as [Hy|Hy|Hy]; try (exfalso; lra).
  - apply Qle_refl.
  - apply Qlt_le_weak. now apply binario_pos_positivo.
  - assert (0 < binario_pos p (- x))%Q
      by (apply binario_pos_positivo; [exact Hp|lra]).
    lra.
  - assert (binario_pos p (- y) <= binario_pos p (- x))%Q
      by (apply binario_pos_mono; [exact Hp|lra|lra]).
    lra.
  - assert (0 < binario_pos p (- x))%Q
      by (apply binario_pos_positivo; [exact Hp|lra]).
    assert (0 < binario_pos p y)%Q by now apply binario_pos_positivo.
    lra.
  - now apply binario_pos_mono.
Qed.

Lemma float64_monotona : monotona float64.
Proof. apply binario_mono. lia. Qed.

Lemma float32_monotona : monotona float32.
Proof. apply binario_mono. lia. Qed.

(** ** Arrays: reading, writing, extensionality *)

Lemma bien_formado_spec {A} (a : ndarray A) :
  bien_formado a = true <->
  length (filas a) = shape0 a /\ Forall (fun f => length f = shape1 a) (filas a).
Proof.
  unfold bien_formado.
  rewrite andb_true_iff, Nat.eqb_eq, forallb_forall, List.Forall_forall.
  split; intros [H1 H2]; split; auto; intros f Hf.
  - apply Nat.eqb_eq; auto.
  - apply Nat.eqb_eq; auto.
Qed.

Lemma misma_forma_spec {A B} (a : ndarray A) (b : ndarray B) :
  misma_forma a b = true <-> shape0 a = shape0 b /\ shape1 a = shape1 b.
Proof. unfold misma_forma. now rewrite andb_true_iff, !Nat.eqb_eq. Qed.

Lemma en_rango_forma {A B} (a : ndarray A) (b : ndarray B) c :
  shape0 a = shape0 b -> shape1 a = shape1 b -> en_rango a c -> en_rango b c.
Proof. unfold en_rango. intros -> ->. auto. Qed.

Lemma lee_en_rango {A} (a : ndarray A) c :
  bien_formado a = true -> en_rango a c -> exists v, lee a c = Some v.
Proof.
  intros [Hl Hf]%bien_formado_spec [Hy Hx]. unfold lee.
  replace ((0 <=? c.1) && (0 <=? c.2)) with true
    by (symmetry; apply andb_true_iff; split; apply Z.leb_le; lia).
  destruct (lookup_lt_is_Some_2 (filas a) (Z.to_nat c.1)) as [f Hfila]; [lia|].
  rewrite Hfila. simpl.
  assert (length f = shape1 a) as Hlen
    by (eapply (Forall_lookup_1 _ _ _ _ Hf); eauto).
  destruct (lookup_lt_is_Some_2 f (Z.to_nat c.2)) as [v Hv]; [lia|].
  eauto.
Qed.

Lemma lee_Some_en_rango {A} (a : ndarray A) c v :
  bien_formado a = true -> lee a c = Some v -> en_rango a c.
Proof.
  intros [Hl Hf]%bien_formado_spec. unfold lee, en_rango.
  destruct (0 <=? c.1) eqn:E1; [|discriminate].
  destruct (0 <=? c.2) eqn:E2; [|discriminate]. simpl.
  apply Z.leb_le in E1, E2.
  destruct (filas a !! Z.to_nat c.1) as [f|] eqn:Hfila; [|discriminate].
  simpl. intros Hv.
  assert (length f = shape1 a) as Hlen
    by (eapply (Forall_lookup_1 _ _ _ _ Hf); eauto).
  apply lookup_lt_Some in Hfila, Hv. lia.
Qed.

(** Two well-formed arrays of one shape with the same cells are equal. *)
Lemma ndarray_ext {A} (a b : ndarray A) :
  bien_formado a = true -> bien_formado b = true ->
  shape0 a = shape0 b -> shape1 a = shape1 b ->
  (forall c, en_rango a c -> lee a c = lee b c) ->
  a = b.
Proof.
  intros [Hla Hfa]%bien_formado_spec [Hlb Hfb]%bien_formado_spec H0 H1 Hc.
  destruct a as [a0 a1 fa], b as [b0 b1 fb]. simpl in *.
  assert (fa = fb) as ->; [|congruence]. subst b0 b1.
  apply list_eq_same_length with (n := a0); auto; try lia.
  intros i f g Hi Hf Hg.
  assert (length f = a1) by (eapply (Forall_lookup_1 _ _ _ _ Hfa); eauto).
  assert (length g = a1) by (eapply (Forall_lookup_1 _ _ _ _ Hfb); eauto).
  apply list_eq_same_length with (n := a1); auto; try lia.
  intros j v w Hj Hv Hw.
  specialize (Hc (Z.of_nat i, Z.of_nat j)).
  unfold lee, en_rango in Hc. simpl in Hc.
  replace ((0 <=? Z.of_nat i) && (0 <=? Z.of_nat j)) with true in Hc
    by (symmetry; apply andb_true_iff; split; apply Z.leb_le; lia).
  rewrite !Nat2Z.id, Hf, Hg in Hc. simpl in Hc.
  rewrite Hv, Hw in Hc. assert (Some v = Some w) by (apply Hc; lia).
  congruence.
Qed.

Lemma zeros_like_bien_formado {A} (a : ndarray A) :
  bien_formado (zeros_like a) = true.
Proof.
  apply bien_formado_spec. simpl. split.
  - apply length_replicate.
  - apply Forall_replicate, length_replicate.
Qed.

Lemma lee_zeros_like {A} (a : ndarray A) c : lee (zeros_like a) c <> Some true.
Proof.
  unfold lee. destruct ((0 <=? c.1) && (0 <=? c.2)); [|discriminate].
  simpl. destruct (replicate _ _ !! _) as [f|] eqn:Hf; [|discriminate].
  apply lookup_replicate in Hf as [-> _]. simpl.
  intros [? _]%lookup_replicate. discriminate.
Qed.

Lemma astype_uint8_bien_formado a :
  bien_formado a = true -> bien_formado (astype_uint8 a) = true.
Proof.
  rewrite !bien_formado_spec. simpl. intros [Hl Hf]. split.
  - now rewrite length_map.
  - apply Forall_map. eapply Forall_impl; [exact Hf|].
    intros f Hlen. simpl. now rewrite length_map.
Qed.

Lemma lee_astype_uint8 a c :
  lee (astype_uint8 a) c = (fun b : bool => if b then 1 else 0) <$> lee a c.
Proof.
  unfold lee. destruct ((0 <=? c.1) && (0 <=? c.2)); [|reflexivity].
  simpl. rewrite list_lookup_fmap.
  destruct (filas a !! Z.to_nat c.1) as [f|]; [|reflexivity].
  simpl. apply list_lookup_fmap.
Qed.

Lemma inundada_astype a c : inundada (astype_uint8 a) c <-> mojada a c.
Proof.
  unfold inundada, mojada. rewrite lee_astype_uint8.
  destruct (lee a c) as [[|]|]; simpl; split.
  - auto.
  - intros _. exists 1. split; [reflexivity|lia].
  - intros (v & [= <-] & Hv). lia.
  - discriminate.
  - intros (v & [=] & _).
  - discriminate.
Qed.

(** [np.where] lists exactly the true cells. *)
Lemma where_fila_In y x0 fila c :
  In c (where_fila y x0 fila) <->
  c.1 = y /\ x0 <= c.2 /\ fila !! Z.to_nat (c.2 - x0) = Some true.
Proof.
  revert x0. induction fila as [|b r IH]; intros x0; simpl.
  - split; [tauto|]. intros (_ & _ & H). discriminate.
  - rewrite in_app_iff, IH. split.
    + intros [H|(H1 & H2 & H3)].
      * destruct b; [|contradiction]. destruct H as [<-|[]]. simpl.
        repeat split; try lia. now rewrite Z.sub_diag.
      * repeat split; try lia.
        replace (Z.to_nat (c.2 - x0)) with (S (Z.to_nat (c.2 - (x0 + 1)))) by lia.
        exact H3.
    + intros (H1 & H2 & H3).
      destruct (Z.eq_dec c.2 x0) as [E|E].
      * left. rewrite E, Z.sub_diag in H3. simpl in H3. injection H3 as ->.
        left. destruct c; simpl in *; congruence.
      * right. repeat split; try lia.
        replace (Z.to_nat (c.2 - x0)) with (S (Z.to_nat (c.2 - (x0 + 1)))) in H3 by lia.
        exact H3.
Qed.

Lemma where_filas_In y0 fs c :
  In c (where_filas y0 fs) <->
  y0 <= c.1 /\ 0 <= c.2 /\
  exists fila, fs !! Z.to_nat (c.1 - y0) = Some fila /\ fila !! Z.to_nat c.2 = Some true.
Proof.
  revert y0. induction fs as [|f r IH]; intros y0; simpl.
  - split; [tauto|]. intros (_ & _ & ? & H & _). discriminate.
  - rewrite in_app_iff, IH, where_fila_In. split.
    + intros [(H1 & H2 & H3)|(H1 & H2 & fila & H3 & H4)].
      * repeat split; try lia. exists f. rewrite H1, Z.sub_diag. simpl.
        split; [reflexivity|]. now rewrite Z.sub_0_r in H3.
      * repeat split; try lia. exists fila. split; [|exact H4].
        replace (Z.to_nat (c.1 - y0)) with (S (Z.to_nat (c.1 - (y0 + 1)))) by lia.
        exact H3.
    + intros (H1 & H2 & fila & H3 & H4).
      destruct (Z.eq_dec c.1 y0) as [E|E].
      * left. rewrite E, Z.sub_diag in H3. simpl in H3. injection H3 as ->.
        repeat split; try lia. now rewrite Z.sub_0_r.
      * right. repeat split; try lia. exists fila. split; [|exact H4].
        replace (Z.to_nat (c.1 - y0)) with (S (Z.to_nat (c.1 - (y0 + 1)))) in H3 by lia.
        exact H3.
Qed.

Lemma np_where_In a c : In c (np_where a) <-> lee a c = Some true.
Proof.
  unfold np_where, lee. rewrite where_filas_In, Z.sub_0_r.
  destruct (0 <=? c.1) eqn:E1; destruct (0 <=? c.2) eqn:E2; simpl;
    try apply Z.leb_le in E1; try apply Z.leb_le in E2;
    try apply Z.leb_gt in E1; try apply Z.leb_gt in E2.
  - split.
    + intros (_ & _ & fila & -> & H). exact H.
    + intros H. repeat split; try lia.
      destruct (filas a !! Z.to_nat c.1) as [fila|]; [|discriminate]. eauto.
  - split; [lia|discriminate].
  - split; [lia|discriminate].
  - split; [lia|discriminate].
Qed.

(** ** Reachability *)

Lemma alcanza_mono dem sem nivel k k' c :
  alcanza dem sem nivel k c -> (k <= k')%nat -> alcanza dem sem nivel k' c.
Proof.
  intros H. revert k'. induction H as [k c Hs|k c n Hc IH Hp]; intros k' Hk.
  - now apply alcanza_semilla.
  - destruct k' as [|k']; [lia|].
    apply alcanza_paso with c; [apply IH; lia|exact Hp].
Qed.

Lemma alcanza_cerrado dem sem nivel k :
  (forall c n, alcanza dem sem nivel k c -> paso dem nivel c n ->
               alcanza dem sem nivel k n) ->
  forall m c, alcanza dem sem nivel m c -> alcanza dem sem nivel k c.
Proof.
  intros Hcl m c H. induction H as [m c Hs|m c n Hc IH Hp].
  - now apply alcanza_semilla.
  - eapply Hcl; eauto.
Qed.

(** Inside a rectangle of cells that holds the seed [s] and in which every
    step between neighbours is admissible, a cell within [k] king moves of
    [s] is reached within [k] steps. *)
Lemma caja_alcanza dem sem nivel s y0 y1 x0 x1 :
  (forall c n, y0 <= c.1 <= y1 -> x0 <= c.2 <= x1 ->
               y0 <= n.1 <= y1 -> x0 <= n.2 <= x1 ->
               vecinos8 c n -> paso dem nivel c n) ->
  lee sem s = Some true -> y0 <= s.1 <= y1 -> x0 <= s.2 <= x1 ->
  forall k c, y0 <= c.1 <= y1 -> x0 <= c.2 <= x1 -> cerca k s c ->
              alcanza dem sem nivel k c.
Proof.
  intros Hp Hs Hsy Hsx. induction k as [|k IH]; intros c Hcy Hcx [H1 H2].
  - assert (c = s) as -> by (destruct c, s; simpl in *; f_equal; lia).
    now apply alcanza_semilla.
  - destruct (decide (c = s)) as [->|Hne]; [now apply alcanza_semilla|].
    set (dy := if s.1 <? c.1 then -1 else if c.1 <? s.1 then 1 else 0).
    set (dx := if s.2 <? c.2 then -1 else if c.2 <? s.2 then 1 else 0).
    assert (cerca k s (c.1 + dy, c.2 + dx)
            /\ (y0 <= c.1 + dy <= y1 /\ x0 <= c.2 + dx <= x1)
            /\ vecinos8 (c.1 + dy, c.2 + dx) c) as (Hk & [Hy Hx] & Hv).
    { unfold cerca, vecinos8, dy, dx. simpl.
      destruct (Z.ltb_spec s.1 c.1); destruct (Z.ltb_spec c.1 s.1);
        destruct (Z.ltb_spec s.2 c.2); destruct (Z.ltb_spec c.2 s.2);
        try lia;
        (split; [lia|]; split; [lia|]; split; [|lia]);
        intros E; destruct c as [cy cx], s as [sy sx]; simpl in *;
        try (apply Hne; f_equal; lia);
        injection E as E1 E2; lia. }
    eapply alcanza_paso; [apply (IH (c.1 + dy, c.2 + dx) Hy Hx Hk)|].
    apply Hp; auto.
Qed.

Lemma alcanza_0 dem sem nivel c :
  alcanza dem sem nivel 0 c <-> lee sem c = Some true.
Proof.
  split; [|apply alcanza_semilla]. intros H. now inversion H.
Qed.

Lemma alcanza_S dem sem nivel k n :
  alcanza dem sem nivel (S k) n <->
  alcanza dem sem nivel k n
  \/ exists c, alcanza dem sem nivel k c /\ paso dem nivel c n.
Proof.
  split.
  - intros H. inversion H; subst.
    + left. now apply alcanza_semilla.
    + right. eauto.
  - intros [H|(c & Hc & Hp)].
    + eapply alcanza_mono; eauto.
    + eapply alcanza_paso; eauto.
Qed.

(** A higher level admits every step a lower level admits. *)
(** A monotone rounding takes equal numbers to equal numbers. *)
Lemma fl_comp x y : monotona fl -> (x == y)%Q -> (fl x == fl y)%Q.
Proof.
  intros fl_mono H.
  apply Qle_antisym; apply fl_mono; rewrite H; apply Qle_refl.
Qed.

(** With a monotone rounding the head grows with the level. *)
Lemma mas_nivel_mono c l1 l2 :
  monotona fl -> (l1 <= l2)%Q -> (mas_nivel c l1 <= mas_nivel c l2)%Q.
Proof.
  intros fl_mono H. unfold mas_nivel. apply fl_mono.
  apply Qplus_le_r. now apply fl_mono.
Qed.

Lemma paso_nivel dem l1 l2 c n :
  monotona fl -> (l1 <= l2)%Q -> paso dem l1 c n -> paso dem l2 c n.
Proof.
  intros fl_mono Hl [Hv (ec & en & Hc & Hn & H1 & H2)]. split; [exact Hv|].
  exists ec, en. repeat split; auto.
  eapply Qle_trans; [exact H1|]. now apply mas_nivel_mono.
Qed.

Lemma alcanza_nivel dem sem l1 l2 k c :
  monotona fl ->
  (l1 <= l2)%Q -> alcanza dem sem l1 k c -> alcanza dem sem l2 k c.
Proof.
  intros fl_mono Hl H. induction H as [k c Hs|k c n Hc IH Hp].
  - now apply alcanza_semilla.
  - eapply alcanza_paso; [exact IH|]. now apply paso_nivel with l1.
Qed.

(** More seeds reach at least as much. *)
Lemma alcanza_semillas dem sem sem' nivel k c :
  (forall c, lee sem c = Some true -> lee sem' c = Some true) ->
  alcanza dem sem nivel k c -> alcanza dem sem' nivel k c.
Proof.
  intros Hs H. induction H as [k c Hc|k c n Hc IH Hp].
  - apply alcanza_semilla; auto.
  - eapply alcanza_paso; eauto.
Qed.

(** A cell reached within [k] steps and no sooner was admitted in
    round [k]. *)
Lemma alcanza_ronda dem sem nivel k c :
  alcanza dem sem nivel k c ->
  (forall j, (j < k)%nat -> ~ alcanza dem sem nivel j c) ->
  ronda dem sem nivel k c.
Proof.
  revert c. induction k as [|k IH]; intros c H Hmin.
  - now apply alcanza_0 in H.
  - simpl. split; [apply Hmin; lia|].
    apply alcanza_S in H as [H|(c0 & Hc0 & Hp)]; [exfalso; eapply Hmin; eauto|].
    exists c0. split; [|exact Hp]. apply IH; [exact Hc0|].
    intros j Hj Hcj. apply (Hmin (S j)); [lia|].
    eapply alcanza_paso; eauto.
Qed.

Lemma ronda_alcanza dem sem nivel k c :
  ronda dem sem nivel k c -> alcanza dem sem nivel k c.
Proof.
  revert c. induction k as [|k IH]; intros c; simpl.
  - apply alcanza_semilla.
  - intros (_ & c0 & Hc0 & Hp). eapply alcanza_paso; eauto.
Qed.

(** ** The grid during a round *)

Lemma mojada_dec a c : {mojada a c} + {~ mojada a c}.
Proof.
  unfold mojada. destruct (lee a c) as [[|]|]; [left|right|right]; congruence.
Qed.

Lemma extiende_igual dem (X : celda -> Prop) st :
  bueno dem st.1 -> (forall c, X c -> mojada st.1 c) -> extiende dem X st st.
Proof.
  intros Hb HX. split; [exact Hb|]. split; intros c; split; auto.
  - intros [H|H]; auto.
  - intros [H|[H1 H2]]; auto. elim H2; auto.
Qed.

Lemma extiende_iff dem (X Y : celda -> Prop) st st' :
  (forall c, X c <-> Y c) -> extiende dem X st st' -> extiende dem Y st st'.
Proof.
  intros HXY (Hb & Hm & Hn). split; [exact Hb|].
  split; intros c; [rewrite Hm|rewrite Hn]; rewrite HXY; reflexivity.
Qed.

Lemma extiende_trans dem (X Y : celda -> Prop) st st' st'' :
  extiende dem X st st' -> extiende dem Y st' st'' ->
  extiende dem (fun c => X c \/ Y c) st st''.
Proof.
  intros (Hb & Hm & Hn) (Hb' & Hm' & Hn'). split; [exact Hb'|].
  split; intros c.
  - rewrite Hm', Hm. tauto.
  - rewrite Hn', Hn, Hm.
    destruct (mojada_dec st'.1 c) as [H|H]; rewrite Hm in H; tauto.
Qed.

Lemma para_cada_extiende {T} dem (f : ndarray bool * list celda -> T ->
                                  option (ndarray bool * list celda))
    (X : T -> celda -> Prop) (l : list T) :
  (forall t st, In t l -> bueno dem st.1 ->
                exists st', f st t = Some st' /\ extiende dem (X t) st st') ->
  forall st, bueno dem st.1 ->
    exists st', para_cada f l st = Some st'
                /\ extiende dem (fun c => exists t, In t l /\ X t c) st st'.
Proof.
  induction l as [|t l IH]; intros Hf st Hb; simpl.
  - exists st. split; [reflexivity|].
    apply extiende_igual; [exact Hb|]. intros c (t & [] & _).
  - destruct (Hf t st) as (st1 & E1 & H1); [now left|exact Hb|].
    rewrite E1. simpl.
    destruct (IH (fun t' st' Hin => Hf t' st' (or_intror Hin)) st1)
      as (st2 & E2 & H2); [apply H1|].
    exists st2. split; [exact E2|].
    eapply extiende_iff; [|eapply extiende_trans; [exact H1|exact H2]].
    intros c. simpl. split.
    + intros [H|(t' & Hin & H)]; eauto.
    + intros (t' & [<-|Hin] & H); eauto.
Qed.

(** ** The run, for any index resolution that agrees with NumPy's on
     in-range and on too-large indices, and any processing order *)

Section Correccion.

Variable resolve : Z -> nat -> option nat.
Variable orden : nat -> list celda -> list celda.

Hypothesis resolve_dentro :
  forall i n, 0 <= i < Z.of_nat n -> resolve i n = Some (Z.to_nat i).
Hypothesis resolve_fuera :
  forall i n, Z.of_nat n <= i -> resolve i n = None.
Hypothesis orden_perm : forall k l, Permutation (orden k l) l.

Lemma getitem_lee {A} (a : ndarray A) y x :
  en_rango a (y, x) -> getitem resolve a y x = lee a (y, x).
Proof.
  intros [Hy Hx]. simpl in *. unfold getitem, lee. simpl.
  rewrite (resolve_dentro y), (resolve_dentro x) by lia. simpl.
  replace ((0 <=? y) && (0 <=? x)) with true
    by (symmetry; apply andb_true_iff; split; apply Z.leb_le; lia).
  reflexivity.
Qed.

Lemma setitem_dentro {A} (a : ndarray A) y x v :
  bien_formado a = true -> en_rango a (y, x) ->
  exists a', setitem resolve a y x v = Some a'
    /\ bien_formado a' = true
    /\ shape0 a' = shape0 a /\ shape1 a' = shape1 a
    /\ forall c, lee a' c = if decide (c = (y, x)) then Some v else lee a c.
Proof.
  intros Hwf [Hy Hx]. simpl in *.
  pose proof Hwf as [Hl Hf]%bien_formado_spec.
  unfold setitem.
  rewrite (resolve_dentro y), (resolve_dentro x) by lia. simpl.
  destruct (lookup_lt_is_Some_2 (filas a) (Z.to_nat y)) as [f Hfila]; [lia|].
  rewrite Hfila. simpl.
  assert (length f = shape1 a) as Hlen
    by (eapply (Forall_lookup_1 _ _ _ _ Hf); eauto).
  destruct (lookup_lt_is_Some_2 f (Z.to_nat x)) as [w Hw]; [lia|].
  rewrite Hw. simpl. eexists. split; [reflexivity|].
  split; [|split; [reflexivity|split; [reflexivity|]]].
  - apply bien_formado_spec. simpl. split.
    + now rewrite length_insert.
    + apply Forall_insert; [exact Hf|]. now rewrite length_insert.
  - intros c. unfold lee. simpl.
    destruct (0 <=? c.1) eqn:E1; destruct (0 <=? c.2) eqn:E2; simpl;
      try apply Z.leb_le in E1; try apply Z.leb_le in E2;
      try apply Z.leb_gt in E1; try apply Z.leb_gt in E2.
    + destruct (decide (c = (y, x))) as [->|Hne]; simpl.
      * rewrite list_lookup_insert_eq by lia. simpl.
        apply list_lookup_insert_eq. lia.
      * destruct (decide (Z.to_nat y = Z.to_nat c.1)) as [E|E].
        -- rewrite <- E, list_lookup_insert_eq by lia. simpl.
           rewrite Hfila. simpl. apply list_lookup_insert_ne.
           intros E'. apply Hne. destruct c; simpl in *. f_equal; lia.
        -- now rewrite list_lookup_insert_ne by exact E.
    + destruct (decide (c = (y, x))) as [->|Hne]; [simpl in *; lia|reflexivity].
    + destruct (decide (c = (y, x))) as [->|Hne]; [simpl in *; lia|reflexivity].
    + destruct (decide (c = (y, x))) as [->|Hne]; [simpl in *; lia|reflexivity].
Qed.

Lemma setitem_fuera {A} (a : ndarray A) y x v :
  0 <= y -> 0 <= x -> ~ en_rango a (y, x) -> setitem resolve a y x v = None.
Proof.
  intros Hy Hx Hr. unfold en_rango in Hr. simpl in Hr. unfold setitem.
  destruct (Z_lt_le_dec y (Z.of_nat (shape0 a))) as [Hy'|Hy'].
  - rewrite (resolve_dentro y), (resolve_fuera x) by lia. reflexivity.
  - now rewrite (resolve_fuera y) by lia.
Qed.

(** *** One neighbour, one frontier cell, one round *)

Lemma visitar_extiende dem nivel y x ec dy dx st :
  bien_formado dem = true ->
  lee dem (y, x) = Some ec ->
  -1 <= dy <= 1 -> -1 <= dx <= 1 ->
  bueno dem st.1 ->
  exists st', visitar resolve dem y x (mas_nivel ec nivel) dy dx st = Some st'
    /\ extiende dem (fun c => c = (y + dy, x + dx)
                              /\ paso dem nivel (y, x) c) st st'.
Proof.
  intros Hwf Hec Hdy Hdx Hb. destruct st as [inund nuevos]. simpl in Hb.
  pose proof (lee_Some_en_rango _ _ _ Hwf Hec) as Hyx.
  unfold visitar.
  destruct ((dy =? 0) && (dx =? 0)) eqn:E0.
  { apply andb_true_iff in E0 as [->%Z.eqb_eq ->%Z.eqb_eq].
    eexists. split; [reflexivity|]. apply extiende_igual; [exact Hb|].
    intros c (-> & [Hne _] & _). elim Hne. f_equal; lia. }
  destruct ((0 <=? y + dy) && (y + dy <? Z.of_nat (shape0 dem))
            && ((0 <=? x + dx) && (x + dx <? Z.of_nat (shape1 dem)))) eqn:Er.
  2:{ eexists. split; [reflexivity|]. apply extiende_igual; [exact Hb|].
      intros c (-> & _ & (ec' & en & _ & Hn & _)).
      apply (lee_Some_en_rango _ _ _ Hwf) in Hn as [Hn1 Hn2]. simpl in *.
      assert ((0 <=? y + dy) && (y + dy <? Z.of_nat (shape0 dem))
              && ((0 <=? x + dx) && (x + dx <? Z.of_nat (shape1 dem))) = true)
        as Habs; [|congruence].
      rewrite !andb_true_iff, !Z.leb_le, !Z.ltb_lt. lia. }
  rewrite !andb_true_iff, !Z.leb_le, !Z.ltb_lt in Er.
  assert (en_rango dem (y + dy, x + dx)) as Hn by (unfold en_rango; simpl; lia).
  destruct Hb as (Hbw & Hb0 & Hb1).
  assert (en_rango inund (y + dy, x + dx)) as Hn'
    by (eapply en_rango_forma; [symmetry; exact Hb0|symmetry; exact Hb1|exact Hn]).
  rewrite !getitem_lee by assumption. rewrite Hec.
  destruct (lee_en_rango _ _ Hbw Hn') as [b Hbv].
  destruct (lee_en_rango _ _ Hwf Hn) as [en Hen].
  rewrite Hbv, Hen. simpl.
  assert (vecinos8 (y, x) (y + dy, x + dx)) as Hvec.
  { split; [|simpl; lia]. intros [= H1 H2].
    apply andb_false_iff in E0 as [E0|E0]; apply Z.eqb_neq in E0; lia. }
  destruct b; simpl.
  { eexists. split; [reflexivity|].
    apply extiende_igual; [now repeat split|]. now intros c (-> & _). }
  destruct (Qle_bool en (mas_nivel ec nivel)) eqn:Q1; simpl.
  2:{ eexists. split; [reflexivity|].
      apply extiende_igual; [now repeat split|].
      intros c (-> & _ & (ec' & en' & Hc' & Hn'' & H1 & _)).
      rewrite Hec in Hc'. rewrite Hen in Hn''.
      injection Hc' as <-. injection Hn'' as <-.
      apply Qle_bool_iff in H1. congruence. }
  destruct (Qle_bool (menos_uno ec) en) eqn:Q2; simpl.
  2:{ eexists. split; [reflexivity|].
      apply extiende_igual; [now repeat split|].
      intros c (-> & _ & (ec' & en' & Hc' & Hn'' & _ & H2)).
      rewrite Hec in Hc'. rewrite Hen in Hn''.
      injection Hc' as <-. injection Hn'' as <-.
      apply Qle_bool_iff in H2. congruence. }
  destruct (setitem_dentro inund (y + dy) (x + dx) true Hbw Hn')
    as (inund' & Eset & Hw' & Hs0 & Hs1 & Hlee).
  rewrite Eset. simpl. eexists. split; [reflexivity|].
  apply Qle_bool_iff in Q1, Q2.
  assert (paso dem nivel (y, x) (y + dy, x + dx)) as Hpaso.
  { split; [exact Hvec|]. exists ec, en. auto. }
  split; [|split]; simpl.
  - repeat split; congruence.
  - intros c. unfold mojada. rewrite Hlee.
    destruct (decide (c = (y + dy, x + dx))) as [->|Hne].
    + split; auto.
    + split; [auto|]. intros [H|[H _]]; [exact H|contradiction].
  - intros c. rewrite in_app_iff. simpl. unfold mojada. split.
    + intros [H|[<-|[]]]; [now left|]. right.
      split; [split; [reflexivity|exact Hpaso]|]. rewrite Hbv. discriminate.
    + intros [H|[[-> _] _]]; auto.
Qed.

Lemma procesar_punto_extiende dem nivel st p :
  bien_formado dem = true -> en_rango dem p -> bueno dem st.1 ->
  exists st', procesar_punto resolve dem nivel st p = Some st'
    /\ extiende dem (paso dem nivel p) st st'.
Proof.
  intros Hwf Hp Hb. destruct p as [y x]. unfold procesar_punto.
  rewrite getitem_lee by exact Hp.
  destruct (lee_en_rango _ _ Hwf Hp) as [ec Hec]. rewrite Hec. simpl.
  edestruct (para_cada_extiende dem
    (fun st dy => para_cada
       (fun st dx => visitar resolve dem y x (mas_nivel ec nivel) dy dx st)
       [-1; 0; 1] st)
    (fun dy c => exists dx, In dx [-1; 0; 1]
                 /\ c = (y + dy, x + dx) /\ paso dem nivel (y, x) c)
    [-1; 0; 1]) as (st' & E & Hext); [|exact Hb|].
  - intros dy st0 Hdy Hb0.
    apply (para_cada_extiende dem
      (fun st dx => visitar resolve dem y x (mas_nivel ec nivel) dy dx st)
      (fun dx c => c = (y + dy, x + dx) /\ paso dem nivel (y, x) c));
      [|exact Hb0].
    intros dx st1 Hdx Hb1. apply visitar_extiende; auto.
    + simpl in Hdy. lia.
    + simpl in Hdx. lia.
  - exists st'. split; [exact E|]. eapply extiende_iff; [|exact Hext].
    intros c. split.
    + intros (dy & _ & dx & _ & _ & H). exact H.
    + intros H. pose proof H as [(Hne & H1 & H2) _]. simpl in *.
      exists (c.1 - y). split; [simpl; lia|].
      exists (c.2 - x). split; [simpl; lia|].
      split; [|exact H]. destruct c; simpl; f_equal; lia.
Qed.

Lemma ronda_extiende dem nivel k inund activos :
  bien_formado dem = true -> bueno dem inund ->
  (forall p, In p activos -> en_rango dem p) ->
  exists st', para_cada (procesar_punto resolve dem nivel)
                        (orden k activos) (inund, []) = Some st'
    /\ extiende dem (fun c => exists p, In p activos /\ paso dem nivel p c)
                (inund, []) st'.
Proof.
  intros Hwf Hb Hact.
  assert (forall p st, In p (orden k activos) -> bueno dem st.1 ->
            exists st', procesar_punto resolve dem nivel st p = Some st'
                        /\ extiende dem (paso dem nivel p) st st') as Hcada.
  { intros p st Hp Hb'. apply procesar_punto_extiende; auto.
    apply Hact. eapply Permutation_in; [apply orden_perm|exact Hp]. }
  destruct (para_cada_extiende dem _ _ _ Hcada (inund, []) Hb)
    as (st' & E & Hext).
  exists st'. split; [exact E|]. eapply extiende_iff; [|exact Hext].
  intros c. split; intros (p & Hp & H); exists p; split; auto.
  - eapply Permutation_in; [apply orden_perm|exact Hp].
  - eapply Permutation_in; [apply Permutation_sym, orden_perm|exact Hp].
Qed.

(** *** Marking the seeds *)

Lemma marcar_desde inund dem pts :
  bueno dem inund ->
  (forall p, In p pts -> en_rango dem p) ->
  exists inund',
    para_cada (fun inundacion '(y, x) => setitem resolve inundacion y x true)
              pts inund = Some inund'
    /\ bueno dem inund'
    /\ forall c, mojada inund' c <-> mojada inund c \/ In c pts.
Proof.
  revert inund. induction pts as [|[y x] pts IH]; intros inund Hb Hpts; simpl.
  - exists inund. split; [reflexivity|]. split; [exact Hb|]. tauto.
  - destruct Hb as (Hbw & Hb0 & Hb1).
    assert (en_rango inund (y, x)) as Hr.
    { eapply en_rango_forma; [symmetry; exact Hb0|symmetry; exact Hb1|].
      apply Hpts. now left. }
    destruct (setitem_dentro inund y x true Hbw Hr)
      as (a' & E & Hw' & H0 & H1 & Hlee).
    rewrite E. simpl.
    destruct (IH a') as (r & Er & Hbr & Hr').
    + repeat split; congruence.
    + intros p Hp. apply Hpts. now right.
    + exists r. split; [exact Er|]. split; [exact Hbr|].
      intros c. rewrite Hr'. unfold mojada. rewrite Hlee.
      destruct (decide (c = (y, x))) as [->|Hne]; [tauto|].
      split; [tauto|]. intros [H|[H|H]]; auto. congruence.
Qed.

Lemma marcar_semillas_ok dem pts :
  (forall p, In p pts -> en_rango dem p) ->
  exists inund, marcar_semillas resolve dem pts = Some inund
    /\ bueno dem inund /\ forall c, mojada inund c <-> In c pts.
Proof.
  intros Hpts. unfold marcar_semillas.
  destruct (marcar_desde (zeros_like dem) dem pts) as (r & E & Hb & Hr).
  - split; [apply zeros_like_bien_formado|]. split; reflexivity.
  - exact Hpts.
  - exists r. split; [exact E|]. split; [exact Hb|].
    intros c. rewrite Hr. split; [|tauto].
    intros [H|H]; [|exact H]. now apply lee_zeros_like in H.
Qed.

Lemma marcar_desde_falla inund dem pts :
  bueno dem inund ->
  (forall p, In p pts -> 0 <= p.1 /\ 0 <= p.2) ->
  (exists p, In p pts /\ ~ en_rango dem p) ->
  para_cada (fun inundacion '(y, x) => setitem resolve inundacion y x true)
            pts inund = None.
Proof.
  revert inund. induction pts as [|[y x] pts IH]; intros inund Hb Hpos Hex; simpl.
  - destruct Hex as (p & [] & _).
  - destruct (setitem resolve inund y x true) as [a'|] eqn:E; [|reflexivity].
    simpl. destruct Hb as (Hbw & Hb0 & Hb1).
    assert (en_rango inund (y, x)) as Hr.
    { destruct (Hpos (y, x)) as [Hy Hx]; [now left|]. simpl in *.
      unfold en_rango. simpl.
      destruct (Z_lt_le_dec y (Z.of_nat (shape0 inund)));
        destruct (Z_lt_le_dec x (Z.of_nat (shape1 inund))); try lia;
        rewrite setitem_fuera in E; try discriminate; auto;
        unfold en_rango; simpl; lia. }
    destruct (setitem_dentro inund y x true Hbw Hr)
      as (a'' & E' & Hw' & H0 & H1 & _).
    rewrite E in E'. injection E' as <-.
    apply IH.
    + repeat split; congruence.
    + intros p Hp. apply Hpos. now right.
    + destruct Hex as (p & [<-|Hp] & Hn); [|eauto].
      elim Hn. eapply en_rango_forma; [exact Hb0|exact Hb1|exact Hr].
Qed.

(** *** The rounds *)

Lemma celda_In_dec (c : celda) l : {In c l} + {~ In c l}.
Proof. apply in_dec. intros [a b] [a' b']. decide equality; apply Z.eq_dec. Qed.

Lemma inv_ronda dem sem nivel k inund activos st' :
  inv dem sem nivel k inund activos ->
  extiende dem (fun c => exists p, In p activos /\ paso dem nivel p c)
           (inund, []) st' ->
  inv dem sem nivel (S k) st'.1 st'.2.
Proof.
  intros (Hb & J1 & J2 & J3) (Hb' & Hm & Hn). simpl in *.
  assert (forall c, mojada st'.1 c <-> alcanza dem sem nivel (S k) c) as J1'.
  { intros c. rewrite Hm, alcanza_S, J1. split.
    - intros [H|(p & Hp & Hpc)]; [now left|]. right. exists p.
      split; [|exact Hpc]. apply J1, J2, Hp.
    - intros [H|(p & Hp & Hpc)]; [now left|].
      destruct (celda_In_dec p activos) as [Hin|Hout]; [right; eauto|].
      left. eapply J3; eauto. }
  split; [exact Hb'|]. split; [exact J1'|]. split.
  - intros c Hc. apply Hm. apply Hn in Hc as [[]|[H _]]. now right.
  - intros c n Hc Hout Hp.
    assert (mojada inund c) as Hmc.
    { destruct (mojada_dec inund c) as [H|H]; [exact H|].
      apply J1', Hm in Hc as [Hc|Hc]; [exact Hc|].
      elim Hout. apply Hn. right. now split. }
    apply J1 in Hmc.
    destruct (celda_In_dec c activos) as [Hin|Hnin].
    + apply J1', Hm. right. eauto.
    + apply alcanza_S. left. eapply J3; eauto.
Qed.

Lemma iterar_ok dem sem nivel n : forall k inund activos,
  bien_formado dem = true ->
  inv dem sem nivel k inund activos ->
  exists r, iterar resolve orden dem nivel n k inund activos = Some r
    /\ bueno dem r
    /\ forall c, mojada r c <-> alcanza dem sem nivel (k + n) c.
Proof.
  induction n as [|n IH]; intros k inund activos Hwf Hinv; simpl.
  - exists inund. split; [reflexivity|]. rewrite Nat.add_0_r.
    destruct Hinv as (Hb & J1 & _). auto.
  - pose proof Hinv as (Hb & J1 & J2 & J3).
    destruct (ronda_extiende dem nivel k inund activos Hwf Hb)
      as ([inund' nuevos] & E & Hext).
    { intros p Hp. apply J2 in Hp. destruct Hb as (Hbw & Hb0 & Hb1).
      eapply en_rango_forma; [exact Hb0|exact Hb1|].
      eapply lee_Some_en_rango; eauto. }
    rewrite E. simpl.
    pose proof (inv_ronda _ _ _ _ _ _ _ Hinv Hext) as Hinv'. simpl in Hinv'.
    destruct nuevos as [|p nuevos].
    + exists inund'. split; [reflexivity|].
      destruct Hinv' as (Hb' & J1' & _ & J3'). split; [exact Hb'|].
      intros c. rewrite J1'. split.
      * intros H. eapply alcanza_mono; [exact H|lia].
      * apply alcanza_cerrado. intros c0 n0 Hc0 Hp0.
        eapply J3'; eauto.
    + destruct (IH (S k) inund' (p :: nuevos) Hwf Hinv') as (r & Er & Hbr & Hr).
      exists r. split; [exact Er|]. split; [exact Hbr|].
      intros c. rewrite Hr. now replace (k + S n)%nat with (S k + n)%nat by lia.
Qed.

(** *** The whole call *)

Lemma propagar_con_ok dem sem nivel pasos :
  bien_formado dem = true ->
  (forall c, lee sem c = Some true -> en_rango dem c) ->
  exists r, propagar_con resolve orden dem sem nivel pasos
            = Some (astype_uint8 r)
    /\ bueno dem r
    /\ forall c, mojada r c <-> alcanza dem sem nivel (Z.to_nat pasos) c.
Proof.
  intros Hwf Hsem. unfold propagar_con.
  destruct (marcar_semillas_ok dem (np_where sem)) as (i0 & E0 & Hb0 & H0).
  { intros p Hp. apply Hsem. now apply np_where_In. }
  rewrite E0. simpl.
  destruct (iterar_ok dem sem nivel (Z.to_nat pasos) 0 i0 (np_where sem) Hwf)
    as (r & Er & Hbr & Hr).
  - split; [exact Hb0|]. split; [|split].
    + intros c. now rewrite H0, np_where_In, alcanza_0.
    + intros c Hc. now apply H0.
    + intros c n Hc Hout _. elim Hout. apply np_where_In.
      now apply alcanza_0 in Hc.
  - rewrite Er. simpl. exists r. auto.
Qed.

(** A true seed cell outside the elevation grid makes the call fail (the
    [IndexError] of line 264). *)
Lemma marcar_semillas_falla dem sem :
  (exists c, lee sem c = Some true /\ ~ en_rango dem c) ->
  marcar_semillas resolve dem (np_where sem) = None.
Proof.
  intros (c & Hc & Hout). unfold marcar_semillas.
  apply (marcar_desde_falla (zeros_like dem) dem (np_where sem)).
  - split; [apply zeros_like_bien_formado|]. split; reflexivity.
  - intros p Hp. apply np_where_In in Hp. unfold lee in Hp.
    destruct (0 <=? p.1) eqn:E1; [|discriminate].
    destruct (0 <=? p.2) eqn:E2; [|discriminate].
    apply Z.leb_le in E1, E2. auto.
  - exists c. split; [now apply np_where_In|exact Hout].
Qed.

Lemma propagar_con_falla dem sem nivel pasos :
  (exists c, lee sem c = Some true /\ ~ en_rango dem c) ->
  propagar_con resolve orden dem sem nivel pasos = None.
Proof.
  intros (c & Hc & Hout). unfold propagar_con, marcar_semillas.
  rewrite (marcar_desde_falla (zeros_like dem) dem (np_where sem)).
  - reflexivity.
  - split; [apply zeros_like_bien_formado|]. split; reflexivity.
  - intros p Hp. apply np_where_In in Hp. unfold lee in Hp.
    destruct (0 <=? p.1) eqn:E1; [|discriminate].
    destruct (0 <=? p.2) eqn:E2; [|discriminate].
    apply Z.leb_le in E1, E2. auto.
  - exists c. split; [now apply np_where_In|exact Hout].
Qed.

End Correccion.

(** ** The script's own run *)

Lemma np_index_dentro i n :
  0 <= i < Z.of_nat n -> np_index i n = Some (Z.to_nat i).
Proof.
  intros H. unfold np_index.
  replace ((0 <=? i) && (i <? Z.of_nat n)) with true; [reflexivity|].
  symmetry. apply andb_true_iff. split; [apply Z.leb_le|apply Z.ltb_lt]; lia.
Qed.

Lemma np_index_fuera i n : Z.of_nat n <= i -> np_index i n = None.
Proof.
  intros H. unfold np_index.
  replace (i <? Z.of_nat n) with false by (symmetry; apply Z.ltb_ge; lia).
  replace (i <? 0) with false by (symmetry; apply Z.ltb_ge; lia).
  now rewrite !andb_false_r.
Qed.

Lemma strict_index_dentro i n :
  0 <= i < Z.of_nat n -> strict_index i n = Some (Z.to_nat i).
Proof.
  intros H. unfold strict_index.
  replace ((0 <=? i) && (i <? Z.of_nat n)) with true; [reflexivity|].
  symmetry. apply andb_true_iff. split; [apply Z.leb_le|apply Z.ltb_lt]; lia.
Qed.

Lemma strict_index_fuera i n : Z.of_nat n <= i -> strict_index i n = None.
Proof.
  intros H. unfold strict_index.
  replace (i <? Z.of_nat n) with false by (symmetry; apply Z.ltb_ge; lia).
  now rewrite andb_false_r.
Qed.

Lemma entrada_valida_spec dem sem cont :
  entrada_valida dem sem cont = true <->
  bien_formado dem = true /\ bien_formado sem = true
  /\ misma_forma sem dem = true
  /\ match cont with
     | Some m => bien_formado m = true /\ misma_forma m dem = true
     | None => True
     end.
Proof.
  unfold entrada_valida, contencion_valida.
  destruct cont as [m|]; rewrite !andb_true_iff; intuition.
Qed.

Lemma semillas_en_rango (dem : ndarray Q) (sem : ndarray bool) :
  bien_formado sem = true -> misma_forma sem dem = true ->
  forall c, lee sem c = Some true -> en_rango dem c.
Proof.
  intros Hw [H0 H1]%misma_forma_spec c Hc.
  eapply en_rango_forma; [exact H0|exact H1|].
  eapply lee_Some_en_rango; eauto.
Qed.

Lemma propagar_inundacion_ok dem sem nivel pasos :
  bien_formado dem = true ->
  (forall c, lee sem c = Some true -> en_rango dem c) ->
  exists r, propagar_inundacion dem sem nivel pasos = Some (astype_uint8 r)
    /\ bueno dem r
    /\ forall c, mojada r c <-> alcanza dem sem nivel (Z.to_nat pasos) c.
Proof.
  apply propagar_con_ok.
  - apply np_index_dentro.
  - reflexivity.
Qed.

(** Reachability within [k] steps is decided by a run of [k] rounds. *)
Lemma alcanza_dec dem sem nivel k c :
  bien_formado dem = true ->
  (forall c, lee sem c = Some true -> en_rango dem c) ->
  alcanza dem sem nivel k c \/ ~ alcanza dem sem nivel k c.
Proof.
  intros Hwf Hsem.
  destruct (propagar_inundacion_ok dem sem nivel (Z.of_nat k) Hwf Hsem)
    as (r & _ & _ & Hr).
  rewrite Nat2Z.id in Hr.
  destruct (mojada_dec r c) as [H|H]; rewrite Hr in H; auto.
Qed.

Lemma alcanza_primera dem sem nivel k c :
  bien_formado dem = true ->
  (forall c, lee sem c = Some true -> en_rango dem c) ->
  alcanza dem sem nivel k c ->
  exists j, (j <= k)%nat /\ ronda dem sem nivel j c.
Proof.
  intros Hwf Hsem. induction k as [|k IH]; intros H.
  - exists 0%nat. split; [lia|]. now apply alcanza_0 in H.
  - destruct (alcanza_dec dem sem nivel k c Hwf Hsem) as [Hk|Hk].
    + destruct (IH Hk) as (j & Hj & Hr). exists j. split; [lia|exact Hr].
    + exists (S k). split; [lia|]. apply alcanza_ronda; [exact H|].
      intros j Hj Hc. apply Hk. eapply alcanza_mono; [exact Hc|lia].
Qed.

(** Two boolean grids of the shape of [dem] that flood the same cells are
    the same grid. *)
Lemma bueno_ext dem r r' :
  bien_formado dem = true -> bueno dem r -> bueno dem r' ->
  (forall c, mojada r c <-> mojada r' c) -> r = r'.
Proof.
  intros Hwf (Hw & H0 & H1) (Hw' & H0' & H1') Hm.
  apply ndarray_ext; try congruence.
  intros c Hc.
  destruct (lee_en_rango r c Hw Hc) as [b Hb].
  assert (en_rango r' c) as Hc'
    by (eapply en_rango_forma; [| |exact Hc]; congruence).
  destruct (lee_en_rango r' c Hw' Hc') as [b' Hb'].
  specialize (Hm c). unfold mojada in Hm. rewrite Hb, Hb' in *.
  destruct b, b'; try reflexivity.
  - destruct Hm as [Hm _]. now rewrite Hm.
  - destruct Hm as [_ Hm]. now rewrite Hm.
Qed.

(** *** The containment product *)

Lemma difusion_igual n : difusion n n = Some n.
Proof. unfold difusion. now rewrite Nat.eqb_refl. Qed.

Lemma lee_tabular {A} r c (f : nat -> nat -> A) s0 s1 p :
  lee (NdArray s0 s1 (tabular r (fun i => tabular c (fun j => f i j)))) p =
  if (0 <=? p.1) && (p.1 <? Z.of_nat r) && ((0 <=? p.2) && (p.2 <? Z.of_nat c))
  then Some (f (Z.to_nat p.1) (Z.to_nat p.2)) else None.
Proof.
  unfold lee, tabular. simpl.
  destruct (0 <=? p.1) eqn:E1; simpl; [|reflexivity].
  destruct (0 <=? p.2) eqn:E2; simpl; [|now rewrite andb_false_r].
  apply Z.leb_le in E1, E2. rewrite list_lookup_fmap.
  destruct (p.1 <? Z.of_nat r) eqn:E3; simpl.
  - apply Z.ltb_lt in E3. rewrite lookup_seq_lt by lia. simpl.
    rewrite list_lookup_fmap.
    destruct (p.2 <? Z.of_nat c) eqn:E4.
    + apply Z.ltb_lt in E4. now rewrite lookup_seq_lt by lia.
    + apply Z.ltb_ge in E4. now rewrite lookup_seq_ge by lia.
  - apply Z.ltb_ge in E3. now rewrite lookup_seq_ge by lia.
Qed.

Lemma np_mul_uint8_ok a b :
  bien_formado a = true -> bien_formado b = true ->
  shape0 b = shape0 a -> shape1 b = shape1 a ->
  exists r, np_mul_uint8 a b = Some r
    /\ bien_formado r = true /\ shape0 r = shape0 a /\ shape1 r = shape1 a
    /\ forall c, lee r c =
         va ← lee a c; vb ← lee b c; Some ((va * vb) mod 256).
Proof.
  intros Hwa Hwb H0 H1. unfold np_mul_uint8. rewrite H0, H1, !difusion_igual.
  simpl. eexists. split; [reflexivity|].
  split; [|split; [reflexivity|split; [reflexivity|]]].
  - apply bien_formado_spec. unfold tabular. simpl. split.
    + now rewrite length_map, length_seq.
    + apply Forall_map, Forall_forall. intros i _. simpl.
      now rewrite length_map, length_seq.
  - intros c. rewrite lee_tabular.
    destruct ((0 <=? c.1) && (c.1 <? Z.of_nat (shape0 a))
              && ((0 <=? c.2) && (c.2 <? Z.of_nat (shape1 a)))) eqn:E.
    + rewrite !andb_true_iff, !Z.leb_le, !Z.ltb_lt in E.
      assert (en_rango a c) as Ha by exact E.
      assert (en_rango b c) as Hb
        by (eapply en_rango_forma; [| |exact Ha]; congruence).
      destruct (lee_en_rango a c Hwa Ha) as [va Hva].
      destruct (lee_en_rango b c Hwb Hb) as [vb Hvb].
      rewrite Hva, Hvb. simpl. f_equal.
      assert (forall (m : ndarray Z) v, lee m c = Some v -> en_rango m c ->
                default 0
                  (fila ← filas m
                       !! (if (shape0 m =? 1)%nat then 0%nat else Z.to_nat c.1);
                   fila !! (if (shape1 m =? 1)%nat then 0%nat else Z.to_nat c.2))
                = v) as Hat.
      { intros m v Hv [Hm1 Hm2]. unfold lee in Hv.
        replace ((0 <=? c.1) && (0 <=? c.2)) with true in Hv
          by (symmetry; apply andb_true_iff; split; apply Z.leb_le; lia).
        replace (if (shape0 m =? 1)%nat then 0%nat else Z.to_nat c.1)
          with (Z.to_nat c.1)
          by (destruct (Nat.eqb_spec (shape0 m) 1); lia).
        replace (if (shape1 m =? 1)%nat then 0%nat else Z.to_nat c.2)
          with (Z.to_nat c.2)
          by (destruct (Nat.eqb_spec (shape1 m) 1); lia).
        now rewrite Hv. }
      rewrite (Hat a va Hva Ha).
      rewrite <- H0, <- H1. rewrite (Hat b vb Hvb Hb). reflexivity.
    + destruct (lee a c) as [va|] eqn:Hva; [|reflexivity]. exfalso.
      apply (lee_Some_en_rango _ _ _ Hwa) in Hva as [Ha1 Ha2].
      assert ((0 <=? c.1) && (c.1 <? Z.of_nat (shape0 a))
              && ((0 <=? c.2) && (c.2 <? Z.of_nat (shape1 a))) = true)
        as Habs; [|congruence].
      rewrite !andb_true_iff, !Z.leb_le, !Z.ltb_lt. lia.
Qed.

Lemma np_mul_uint8_None a b :
  np_mul_uint8 a b = None <->
  difusion (shape0 a) (shape0 b) = None \/ difusion (shape1 a) (shape1 b) = None.
Proof.
  unfold np_mul_uint8.
  destruct (difusion (shape0 a) (shape0 b)); simpl;
    destruct (difusion (shape1 a) (shape1 b)); simpl; split;
    try tauto; try discriminate; intros [H|H]; discriminate.
Qed.

(** With a boolean grid as the left factor the product is the
    intersection. *)
Lemma inundada_producto r m out c :
  (forall c, lee out c =
     va ← lee (astype_uint8 r) c; vb ← lee m c; Some ((va * vb) mod 256)) ->
  inundada out c <->
  mojada r c /\ exists v, lee m c = Some v /\ v mod 256 <> 0.
Proof.
  intros Hout. unfold inundada, mojada. rewrite Hout, lee_astype_uint8.
  destruct (lee r c) as [[|]|]; simpl.
  - destruct (lee m c) as [v|]; simpl.
    + split.
      * intros (w & [= <-] & Hw). split; [reflexivity|].
        exists v. split; [reflexivity|].
        now replace (1 * v) with v in Hw by lia.
      * intros (_ & w & [= <-] & Hw). exists ((1 * v) mod 256).
        split; [reflexivity|]. now replace (1 * v) with v by lia.
    + split; [intros (w & [=] & _)|intros (_ & w & [=] & _)].
  - split; [|intros ([=] & _)].
    destruct (lee m c) as [v|]; simpl; [|intros (w & [=] & _)].
    intros (w & [= <-] & Hw). now rewrite Zmod_0_l in Hw.
  - split; [intros (w & [=] & _)|intros ([=] & _)].
Qed.

(** ** The propagation operation on valid inputs *)

(** A pass of the simulation loop is the propagation operation with the
    river cells as seeds, the basin mask as containment and 100 rounds. *)
Lemma simular_nivel_extension dem rio_mask cuenca_mask nivel :
  simular_nivel dem rio_mask cuenca_mask nivel
  = extension dem (eq_escalar rio_mask 1) (Some cuenca_mask) nivel 100.
Proof. reflexivity. Qed.

Lemma extension_ok dem sem cont nivel pasos :
  entrada_valida dem sem cont = true ->
  exists r out,
    propagar_inundacion dem sem nivel pasos = Some (astype_uint8 r)
    /\ bueno dem r
    /\ (forall c, mojada r c <-> alcanza dem sem nivel (Z.to_nat pasos) c)
    /\ extension dem sem cont nivel pasos = Some out
    /\ forall c, inundada out c <->
         mojada r c
         /\ match cont with
            | Some m => exists v, lee m c = Some v /\ v mod 256 <> 0
            | None => True
            end.
Proof.
  intros (Hwf & Hws & Hms & Hc)%entrada_valida_spec.
  destruct (propagar_inundacion_ok dem sem nivel pasos Hwf
              (semillas_en_rango dem sem Hws Hms)) as (r & E & Hb & Hr).
  exists r. unfold extension. rewrite E. simpl.
  destruct cont as [m|].
  - destruct Hc as [Hwm [Hm0 Hm1]%misma_forma_spec].
    destruct Hb as (Hbw & Hb0 & Hb1).
    destruct (np_mul_uint8_ok (astype_uint8 r) m) as (out & Eo & _ & _ & _ & Ho).
    + now apply astype_uint8_bien_formado.
    + exact Hwm.
    + simpl. congruence.
    + simpl. congruence.
    + exists out. split; [reflexivity|]. split; [now repeat split|].
      split; [exact Hr|]. split; [exact Eo|].
      intros c. apply (inundada_producto r m out c Ho).
  - exists (astype_uint8 r). split; [reflexivity|]. split; [exact Hb|].
    split; [exact Hr|]. split; [reflexivity|].
    intros c. rewrite inundada_astype. tauto.
Qed.

Lemma en_rango_dec {A} (a : ndarray A) c : {en_rango a c} + {~ en_rango a c}.
Proof.
  unfold en_rango.
  destruct (Z_le_dec 0 c.1); [|right; lia].
  destruct (Z_lt_dec c.1 (Z.of_nat (shape0 a))); [|right; lia].
  destruct (Z_le_dec 0 c.2); [|right; lia].
  destruct (Z_lt_dec c.2 (Z.of_nat (shape1 a))); [|right; lia].
  left. lia.
Qed.

Lemma semillas_dec (dem : ndarray Q) (sem : ndarray bool) :
  (forall c, lee sem c = Some true -> en_rango dem c)
  \/ (exists c, lee sem c = Some true /\ ~ en_rango dem c).
Proof.
  assert (forall l : list celda,
            (forall p, In p l -> en_rango dem p)
            \/ (exists p, In p l /\ ~ en_rango dem p)) as Hl.
  { induction l as [|p l [IH|(q & Hq & Hn)]].
    - left. intros p [].
    - destruct (en_rango_dec dem p) as [H|H].
      + left. intros q [<-|Hq]; auto.
      + right. exists p. split; [now left|exact H].
    - right. exists q. split; [now right|exact Hn]. }
  destruct (Hl (np_where sem)) as [H|(p & Hp & Hn)].
  - left. intros c Hc. now apply H, np_where_In.
  - right. exists p. split; [now apply np_where_In|exact Hn].
Qed.

(** *** The barrier scenario *)

Lemma lee_dem_barrera c e :
  lee dem_barrera c = Some e -> e = if c.2 =? 3 then 100%Q else 0%Q.
Proof.
  intros H.
  pose proof (lee_Some_en_rango dem_barrera c e eq_refl H) as [Hy Hx].
  destruct c as [y x]. simpl in *.
  assert (y = 0 \/ y = 1 \/ y = 2 \/ y = 3 \/ y = 4) as Hy' by lia.
  assert (x = 0 \/ x = 1 \/ x = 2 \/ x = 3 \/ x = 4) as Hx' by lia.
  destruct Hy' as [->|[->|[->|[->| ->]]]];
    destruct Hx' as [->|[->|[->|[->| ->]]]];
    vm_compute in H; injection H as <-; reflexivity.
Qed.

Lemma lee_semilla_2_0 c : lee semilla_2_0 c = Some true -> c = (2, 0).
Proof.
  intros H.
  pose proof (lee_Some_en_rango semilla_2_0 c true eq_refl H) as [Hy Hx].
  destruct c as [y x]. simpl in *.
  assert (y = 0 \/ y = 1 \/ y = 2 \/ y = 3 \/ y = 4) as Hy' by lia.
  assert (x = 0 \/ x = 1 \/ x = 2 \/ x = 3 \/ x = 4) as Hx' by lia.
  destruct Hy' as [->|[->|[->|[->| ->]]]];
    destruct Hx' as [->|[->|[->|[->| ->]]]];
    vm_compute in H; try discriminate; reflexivity.
Qed.

(** Where 1 is a value of the format, the head of a cell of elevation 0
    at level 1.0 is 1. *)
Lemma cabeza_barrera :
  monotona fl -> representable fl 1 -> (mas_nivel 0 1 == 1)%Q.
Proof.
  unfold representable, mas_nivel. intros fl_mono H1.
  rewrite (fl_comp (0 + fl 1) 1 fl_mono); [exact H1|]. rewrite H1. reflexivity.
Qed.

Lemma alcanza_barrera k c :
  monotona fl -> representable fl 1 ->
  alcanza dem_barrera semilla_2_0 1 k c -> c.2 <= 2.
Proof.
  intros fl_mono H1 H. induction H as [k c Hs|k c n Hc IH Hp].
  - apply lee_semilla_2_0 in Hs. subst c. simpl. lia.
  - destruct Hp as [(_ & _ & Hx) (ec & en & Hec & Hen & Hle & _)].
    apply lee_dem_barrera in Hec, Hen.
    destruct (Z.eqb_spec c.2 3) as [E|_]; [lia|].
    destruct (Z.eqb_spec n.2 3) as [E|E]; [|lia].
    subst ec en. exfalso. rewrite (cabeza_barrera fl_mono H1) in Hle.
    revert Hle. unfold Qle. simpl. lia.
Qed.

(** Left of the wall every step between neighbours is admissible. *)
Lemma paso_barrera c n :
  monotona fl -> representable fl 0 -> representable fl 1 ->
  0 <= c.1 <= 4 -> 0 <= c.2 <= 2 -> 0 <= n.1 <= 4 -> 0 <= n.2 <= 2 ->
  vecinos8 c n -> paso dem_barrera 1 c n.
Proof.
  intros fl_mono H0 H1 Hcy Hcx Hny Hnx Hv. split; [exact Hv|].
  destruct (lee_en_rango dem_barrera c eq_refl) as [ec Hec].
  { unfold en_rango. simpl. lia. }
  destruct (lee_en_rango dem_barrera n eq_refl) as [en Hen].
  { unfold en_rango. simpl. lia. }
  exists ec, en. split; [exact Hec|]. split; [exact Hen|].
  apply lee_dem_barrera in Hec, Hen.
  destruct (Z.eqb_spec c.2 3) as [E|_]; [lia|].
  destruct (Z.eqb_spec n.2 3) as [E|_]; [lia|].
  subst ec en. split.
  - rewrite (cabeza_barrera fl_mono H1). discriminate.
  - unfold menos_uno. apply Qle_trans with (fl 0).
    + apply fl_mono. discriminate.
    + unfold representable in H0. rewrite H0. apply Qle_refl.
Qed.

(** The flood of the barrier scenario after 10 rounds, as a set. *)
Lemma mojada_barrera c :
  mojada (NdArray 5 5 (replicate 5 [true; true; true; false; false])) c <->
  0 <= c.1 <= 4 /\ 0 <= c.2 <= 2.
Proof.
  unfold mojada. split.
  - intros H.
    pose proof (lee_Some_en_rango
                  (NdArray 5 5 (replicate 5 [true; true; true; false; false]))
                  c true eq_refl H) as [Hy Hx].
    destruct c as [y x]. simpl in *.
    assert (y = 0 \/ y = 1 \/ y = 2 \/ y = 3 \/ y = 4) as Hy' by lia.
    assert (x = 0 \/ x = 1 \/ x = 2 \/ x = 3 \/ x = 4) as Hx' by lia.
    destruct Hy' as [->|[->|[->|[->| ->]]]];
      destruct Hx' as [->|[->|[->|[->| ->]]]];
      vm_compute in H; try discriminate; lia.
  - intros [Hy Hx]. destruct c as [y x]. simpl in *.
    assert (y = 0 \/ y = 1 \/ y = 2 \/ y = 3 \/ y = 4) as Hy' by lia.
    assert (x = 0 \/ x = 1 \/ x = 2) as Hx' by lia.
    destruct Hy' as [->|[->|[->|[->| ->]]]];
      destruct Hx' as [->|[->| ->]]; reflexivity.
Qed.

(** *** Reusing a lower level's extent as seeds *)

Lemma unir_semillas_ok dem sem r :
  bien_formado sem = true -> misma_forma sem dem = true -> bueno dem r ->
  bien_formado (unir_semillas sem (astype_uint8 r)) = true
  /\ misma_forma (unir_semillas sem (astype_uint8 r)) dem = true
  /\ forall c, lee (unir_semillas sem (astype_uint8 r)) c = Some true <->
               lee sem c = Some true \/ mojada r c.
Proof.
  intros Hws Hms (Hwr & H0 & H1).
  pose proof Hms as [Hs0 Hs1]%misma_forma_spec.
  assert (forall c, lee (unir_semillas sem (astype_uint8 r)) c =
            b ← lee sem c; b' ← lee r c; Some (b || b')) as Hlee.
  { intros c. unfold lee. simpl.
    destruct ((0 <=? c.1) && (0 <=? c.2)); [|reflexivity]. simpl.
    rewrite lookup_zip_with, list_lookup_fmap.
    destruct (filas sem !! Z.to_nat c.1) as [f|]; [|reflexivity]. simpl.
    destruct (filas r !! Z.to_nat c.1) as [g|]; simpl.
    2:{ now destruct (f !! Z.to_nat c.2). }
    rewrite lookup_zip_with, list_lookup_fmap.
    destruct (f !! Z.to_nat c.2) as [b|]; [|reflexivity]. simpl.
    destruct (g !! Z.to_nat c.2) as [[|]|]; reflexivity. }
  pose proof Hws as [Hls Hfs]%bien_formado_spec.
  pose proof Hwr as [Hlr Hfr]%bien_formado_spec.
  split; [|split].
  - apply bien_formado_spec. simpl. split.
    + rewrite length_zip_with, length_map. lia.
    + apply Forall_lookup. intros i row Hrow.
      rewrite lookup_zip_with, list_lookup_fmap in Hrow.
      destruct (filas sem !! i) as [f|] eqn:Hf; [|discriminate].
      destruct (filas r !! i) as [g|] eqn:Hg; [|discriminate].
      simpl in Hrow. injection Hrow as <-.
      rewrite length_zip_with, length_map.
      rewrite (Forall_lookup_1 _ _ _ _ Hfs Hf), (Forall_lookup_1 _ _ _ _ Hfr Hg).
      lia.
  - exact Hms.
  - intros c. rewrite Hlee. unfold mojada. split.
    + destruct (lee sem c) as [[|]|]; simpl; auto; try discriminate.
      destruct (lee r c) as [[|]|]; simpl; auto; discriminate.
    + intros [H|H].
      * rewrite H. simpl.
        assert (en_rango r c) as Hc.
        { apply (en_rango_forma sem r); [congruence|congruence|].
          eapply lee_Some_en_rango; eauto. }
        destruct (lee_en_rango r c Hwr Hc) as [b Hb]. now rewrite Hb.
      * rewrite H.
        assert (en_rango sem c) as Hc.
        { apply (en_rango_forma r sem); [congruence|congruence|].
          eapply lee_Some_en_rango; eauto. }
        destruct (lee_en_rango sem c Hws Hc) as [b Hb]. rewrite Hb. simpl.
        now rewrite orb_true_r.
Qed.

(** ** The store: what a call leaves untouched *)

Lemma ligar_eq {A B} (m : M A) (f : A -> M B) h :
  (m ≫= f) h = match m h with
               | (h', Some a) => f a h'
               | (h', None) => (h', None)
               end.
Proof. reflexivity. Qed.

Lemma respeta_mret {A} P (a : A) : respeta P (mret a).
Proof. intros h l o H. simpl. eauto. Qed.

Lemma respeta_elevar {A} P (o : option A) : respeta P (elevar o).
Proof. intros h l o' H. simpl. eauto. Qed.

Lemma respeta_leer_float P l : respeta P (leer_float l).
Proof. intros h l' o H. simpl. eauto. Qed.

Lemma respeta_leer_bool P l : respeta P (leer_bool l).
Proof. intros h l' o H. simpl. eauto. Qed.

Lemma respeta_leer_uint8 P l : respeta P (leer_uint8 l).
Proof. intros h l' o H. simpl. eauto. Qed.

Lemma respeta_nuevo P o : respeta P (nuevo o).
Proof.
  intros h l o' H. unfold nuevo. simpl.
  assert (fresh (dom h) <> l) as Hne.
  { intros <-. apply (is_fresh (dom h)). apply elem_of_dom. eauto. }
  rewrite lookup_insert_ne by exact Hne. eauto.
Qed.

Lemma respeta_escribir (P : positive -> Prop) l o : P l -> respeta P (escribir l o).
Proof.
  intros HP h l' o' H. unfold escribir. simpl.
  destruct (decide (l = l')) as [<-|Hne].
  - rewrite lookup_insert_eq. split; [eauto|]. intros Hn. now elim Hn.
  - rewrite lookup_insert_ne by exact Hne. eauto.
Qed.

Lemma respeta_ligar {A B} P (m : M A) (f : A -> M B) :
  respeta P m -> (forall a, respeta P (f a)) -> respeta P (m ≫= f).
Proof.
  intros Hm Hf h l o H. rewrite ligar_eq.
  destruct (Hm h l o H) as [[o1 H1] H2].
  destruct (m h) as [h1 [a|]]; simpl in *.
  - destruct (Hf a h1 l o1 H1) as [H3 H4]. split; [exact H3|].
    intros Hn. specialize (H2 Hn). rewrite H2 in H1. injection H1 as <-.
    now apply H4.
  - split; eauto.
Qed.

Lemma respeta_para_cada_m {S X} P (f : S -> X -> M S) l :
  (forall s x, respeta P (f s x)) -> forall s, respeta P (para_cada_m f l s).
Proof.
  intros Hf. induction l as [|x l IH]; intros s; simpl.
  - apply respeta_mret.
  - apply respeta_ligar; auto.
Qed.

Lemma respeta_getitem_float P l y x : respeta P (getitem_float l y x).
Proof.
  apply respeta_ligar; [apply respeta_leer_float|].
  intros a. apply respeta_elevar.
Qed.

Lemma respeta_getitem_bool P l y x : respeta P (getitem_bool l y x).
Proof.
  apply respeta_ligar; [apply respeta_leer_bool|].
  intros a. apply respeta_elevar.
Qed.

Lemma respeta_setitem_bool i y x v : respeta (eq i) (setitem_bool i y x v).
Proof.
  apply respeta_ligar; [apply respeta_leer_bool|]. intros a.
  apply respeta_ligar; [apply respeta_elevar|]. intros a'.
  now apply respeta_escribir.
Qed.

Lemma respeta_y_perezoso_m P p q :
  respeta P p -> respeta P q -> respeta P (y_perezoso_m p q).
Proof.
  intros Hp Hq. apply respeta_ligar; [exact Hp|].
  intros [|]; [exact Hq|apply respeta_mret].
Qed.

Lemma respeta_visitar_ref d i y x e dy dx nuevos :
  respeta (eq i) (visitar_ref d i y x e dy dx nuevos).
Proof.
  unfold visitar_ref. destruct ((dy =? 0) && (dx =? 0)); [apply respeta_mret|].
  apply respeta_ligar.
  { apply respeta_ligar; [apply respeta_leer_float|].
    intros a. apply respeta_mret. }
  intros forma.
  destruct ((0 <=? y + dy) && (y + dy <? Z.of_nat forma.1)
            && ((0 <=? x + dx) && (x + dx <? Z.of_nat forma.2)));
    [|apply respeta_mret].
  apply respeta_ligar.
  - apply respeta_y_perezoso_m; [|apply respeta_y_perezoso_m].
    + apply respeta_ligar; [apply respeta_getitem_bool|].
      intros b. apply respeta_mret.
    + apply respeta_ligar; [apply respeta_getitem_float|].
      intros b. apply respeta_mret.
    + apply respeta_ligar; [apply respeta_getitem_float|]. intros b.
      apply respeta_ligar; [apply respeta_getitem_float|]. intros c.
      apply respeta_mret.
  - intros [|]; [|apply respeta_mret].
    apply respeta_ligar; [apply respeta_setitem_bool|].
    intros _. apply respeta_mret.
Qed.

Lemma respeta_procesar_punto_ref d i nivel nuevos p :
  respeta (eq i) (procesar_punto_ref d i nivel nuevos p).
Proof.
  destruct p as [y x]. unfold procesar_punto_ref.
  apply respeta_ligar; [apply respeta_getitem_float|]. intros c.
  apply respeta_para_cada_m. intros s dy.
  apply respeta_para_cada_m. intros s' dx.
  apply respeta_visitar_ref.
Qed.

Lemma respeta_iterar_ref d i nivel n : forall activos,
  respeta (eq i) (iterar_ref d i nivel n activos).
Proof.
  induction n as [|n IH]; intros activos; simpl; [apply respeta_mret|].
  apply respeta_ligar.
  - apply respeta_para_cada_m. intros s p. apply respeta_procesar_punto_ref.
  - intros [|p nuevos]; [apply respeta_mret|apply IH].
Qed.

(** What comes after an allocation may write the new object freely. *)
Lemma respeta_nuevo_ligar {B} o (f : positive -> M B) :
  (forall i, respeta (eq i) (f i)) ->
  respeta (fun _ => False) (nuevo o ≫= f).
Proof.
  intros Hf h l o' H. rewrite ligar_eq. unfold nuevo. simpl.
  assert (fresh (dom h) <> l) as Hne.
  { intros <-. apply (is_fresh (dom h)). apply elem_of_dom. eauto. }
  destruct (Hf (fresh (dom h)) (<[fresh (dom h) := o]> h) l o') as [H1 H2].
  - now rewrite lookup_insert_ne by exact Hne.
  - split; [exact H1|]. intros _. now apply H2.
Qed.

Lemma respeta_propagar_inundacion_ref d s nivel pasos :
  respeta (fun _ => False) (propagar_inundacion_ref d s nivel pasos).
Proof.
  unfold propagar_inundacion_ref.
  apply respeta_ligar; [apply respeta_leer_float|]. intros dem.
  apply respeta_nuevo_ligar. intros i.
  apply respeta_ligar; [apply respeta_leer_bool|]. intros sem.
  apply respeta_ligar.
  { apply respeta_para_cada_m. intros _ [y x]. apply respeta_setitem_bool. }
  intros _. apply respeta_ligar; [apply respeta_iterar_ref|].
  intros _. apply respeta_ligar; [apply respeta_leer_bool|].
  intros a. apply respeta_nuevo.
Qed.

Lemma respeta_extension_ref d s c nivel pasos :
  respeta (fun _ => False) (extension_ref d s c nivel pasos).
Proof.
  unfold extension_ref.
  apply respeta_ligar; [apply respeta_propagar_inundacion_ref|]. intros i.
  destruct c as [cm|]; [|apply respeta_mret].
  apply respeta_ligar; [apply respeta_leer_uint8|]. intros a.
  apply respeta_ligar; [apply respeta_leer_uint8|]. intros m.
  apply respeta_ligar; [apply respeta_elevar|]. intros r.
  apply respeta_nuevo.
Qed.

Lemma da_nuevo_nuevo o : da_nuevo (nuevo o).
Proof.
  intros h h' r [= <- <-]. split.
  - apply not_elem_of_dom, is_fresh.
  - rewrite lookup_insert_eq. eauto.
Qed.

Lemma da_nuevo_ligar {A} P (m : M A) (f : A -> M positive) :
  respeta P m -> (forall a, da_nuevo (f a)) -> da_nuevo (m ≫= f).
Proof.
  intros Hm Hf h h' r E. rewrite ligar_eq in E.
  destruct (m h) as [h1 [a|]] eqn:Em; [|discriminate].
  destruct (Hf a h1 h' r E) as [H1 H2]. split; [|exact H2].
  destruct (h !! r) as [o|] eqn:Hr; [|reflexivity].
  destruct (Hm h r o Hr) as [[o1 Ho1] _]. rewrite Em in Ho1. simpl in Ho1.
  congruence.
Qed.

Lemma da_nuevo_propagar_inundacion_ref d s nivel pasos :
  da_nuevo (propagar_inundacion_ref d s nivel pasos).
Proof.
  unfold propagar_inundacion_ref.
  eapply da_nuevo_ligar; [apply (respeta_leer_float (fun _ => True))|].
  intros dem.
  eapply da_nuevo_ligar; [apply (respeta_nuevo (fun _ => True))|]. intros i.
  eapply da_nuevo_ligar; [apply (respeta_leer_bool (fun _ => True))|].
  intros sem. eapply da_nuevo_ligar.
  { apply respeta_para_cada_m. intros _ [y x]. apply respeta_setitem_bool. }
  intros _. eapply da_nuevo_ligar; [apply respeta_iterar_ref|].
  intros _. eapply da_nuevo_ligar; [apply (respeta_leer_bool (fun _ => True))|].
  intros a. apply da_nuevo_nuevo.
Qed.

Lemma da_nuevo_extension_ref d s c nivel pasos :
  da_nuevo (extension_ref d s c nivel pasos).
Proof.
  unfold extension_ref. destruct c as [cm|].
  - eapply da_nuevo_ligar; [apply respeta_propagar_inundacion_ref|]. intros i.
    eapply da_nuevo_ligar; [apply (respeta_leer_uint8 (fun _ => True))|].
    intros a.
    eapply da_nuevo_ligar; [apply (respeta_leer_uint8 (fun _ => True))|].
    intros m.
    eapply da_nuevo_ligar; [apply (respeta_elevar (fun _ => True))|].
    intros r. apply da_nuevo_nuevo.
  - intros h h' r E. rewrite ligar_eq in E.
    destruct (propagar_inundacion_ref d s nivel pasos h) as [h1 [i|]] eqn:Ep;
      [|discriminate].
    injection E as <- <-.
    eapply da_nuevo_propagar_inundacion_ref; eauto.
Qed.

(** ** The store: agreement with the value-level embedding *)

Lemma run_getitem_float d i dem inund h y x :
  contiene d i dem inund h ->
  getitem_float d y x h = (h, getitem np_index dem y x).
Proof.
  intros [Hd _]. unfold getitem_float. rewrite ligar_eq.
  unfold leer_float. now rewrite Hd.
Qed.

Lemma run_getitem_bool d i dem inund h y x :
  contiene d i dem inund h ->
  getitem_bool i y x h = (h, getitem np_index inund y x).
Proof.
  intros [_ Hi]. unfold getitem_bool. rewrite ligar_eq.
  unfold leer_bool. now rewrite Hi.
Qed.

Lemma contiene_escribir d i dem inund a' h :
  contiene d i dem inund h -> contiene d i dem a' (<[i := ArrBool a']> h).
Proof.
  intros [Hd Hi]. split.
  - rewrite lookup_insert_ne; [exact Hd|]. intros <-. congruence.
  - apply lookup_insert_eq.
Qed.

Lemma run_setitem_bool d i dem inund h y x v :
  contiene d i dem inund h ->
  setitem_bool i y x v h =
  match setitem np_index inund y x v with
  | Some a' => (<[i := ArrBool a']> h, Some tt)
  | None => (h, None)
  end.
Proof.
  intros [_ Hi]. unfold setitem_bool. rewrite ligar_eq.
  unfold leer_bool. rewrite Hi. rewrite ligar_eq. unfold elevar.
  now destruct (setitem np_index inund y x v).
Qed.

Lemma run_y_perezoso_m p q h op oq :
  p h = (h, op) -> q h = (h, oq) ->
  y_perezoso_m p q h = (h, y_perezoso op oq).
Proof.
  intros Hp Hq. unfold y_perezoso_m. rewrite ligar_eq, Hp.
  destruct op as [[|]|]; simpl; auto.
Qed.

Lemma run_puro {A B} (m : M A) (g : A -> B) h o :
  m h = (h, o) -> (a ← m; mret (g a)) h = (h, g <$> o).
Proof. intros Hm. rewrite ligar_eq, Hm. now destruct o. Qed.

Lemma visitar_ref_simula d i dem inund h y x e dy dx nuevos :
  contiene d i dem inund h ->
  simula d i dem (visitar_ref d i y x e dy dx nuevos)
         (visitar np_index dem y x e dy dx (inund, nuevos)) h.
Proof.
  intros Hc. unfold simula.
  remember (visitar_ref d i y x e dy dx nuevos h) as run eqn:Erun.
  unfold visitar_ref in Erun. unfold visitar.
  destruct ((dy =? 0) && (dx =? 0)); [subst run; exists h; auto|].
  rewrite ligar_eq in Erun. unfold shape_float in Erun.
  rewrite ligar_eq in Erun. unfold leer_float in Erun at 1.
  pose proof Hc as [Hd Hi]. rewrite Hd in Erun. simpl in Erun.
  destruct ((0 <=? y + dy) && (y + dy <? Z.of_nat (shape0 dem))
            && ((0 <=? x + dx) && (x + dx <? Z.of_nat (shape1 dem))));
    [|subst run; exists h; auto].
  rewrite ligar_eq in Erun.
  rewrite (run_y_perezoso_m _ _ h
             (negb <$> getitem np_index inund (y + dy) (x + dx))
             (y_perezoso
                (e' ← getitem np_index dem (y + dy) (x + dx);
                 Some (Qle_bool e' e))
                (e' ← getitem np_index dem (y + dy) (x + dx);
                 c ← getitem np_index dem y x; Some (Qle_bool (menos_uno c) e'))))
    in Erun.
  2:{ apply run_puro. eapply run_getitem_bool; eauto. }
  2:{ apply run_y_perezoso_m.
      - rewrite ligar_eq. erewrite run_getitem_float by eauto.
        now destruct (getitem np_index dem (y + dy) (x + dx)).
      - rewrite ligar_eq. erewrite run_getitem_float by eauto.
        destruct (getitem np_index dem (y + dy) (x + dx)) as [en|]; simpl;
          [|reflexivity].
        rewrite ligar_eq. erewrite run_getitem_float by eauto.
        now destruct (getitem np_index dem y x). }
  match goal with
  | |- context [y_perezoso ?p ?q] => destruct (y_perezoso p q) as [[|]|]
  end; simpl in *.
  - rewrite ligar_eq in Erun. erewrite run_setitem_bool in Erun by eauto.
    destruct (setitem np_index inund (y + dy) (x + dx) true) as [a'|];
      simpl in *; subst run; [|reflexivity].
    eexists. split; [reflexivity|]. eapply contiene_escribir; eauto.
  - subst run. exists h. auto.
  - subst run. reflexivity.
Qed.

Lemma para_cada_simula {X} d i dem
    (f : estado -> X -> option estado)
    (fr : list celda -> X -> M (list celda)) (l : list X) :
  (forall x inund nuevos h, contiene d i dem inund h ->
     simula d i dem (fr nuevos x) (f (inund, nuevos) x) h) ->
  forall inund nuevos h, contiene d i dem inund h ->
    simula d i dem (para_cada_m fr l nuevos) (para_cada f l (inund, nuevos)) h.
Proof.
  intros Hf. induction l as [|x l IH]; intros inund nuevos h Hc.
  - exists h. auto.
  - specialize (Hf x inund nuevos h Hc). unfold simula in Hf.
    unfold simula.
    remember (para_cada_m fr (x :: l) nuevos h) as run eqn:Erun.
    simpl in Erun. rewrite ligar_eq in Erun. simpl.
    destruct (f (inund, nuevos) x) as [[inund1 nuevos1]|]; simpl.
    + destruct Hf as (h1 & E1 & Hc1). rewrite E1 in Erun. subst run.
      apply IH. exact Hc1.
    + destruct (fr nuevos x h) as [h1 [a|]]; simpl in Hf; [discriminate|].
      now subst run.
Qed.

Lemma procesar_punto_ref_simula d i dem nivel inund nuevos p h :
  contiene d i dem inund h ->
  simula d i dem (procesar_punto_ref d i nivel nuevos p)
         (procesar_punto np_index dem nivel (inund, nuevos) p) h.
Proof.
  intros Hc. destruct p as [y x].
  assert (procesar_punto_ref d i nivel nuevos (y, x) h
          = match getitem np_index dem y x with
            | Some c =>
                para_cada_m (fun nuevos dy =>
                  para_cada_m (fun nuevos dx =>
                    visitar_ref d i y x (mas_nivel c nivel) dy dx nuevos)
                    [-1; 0; 1] nuevos)
                  [-1; 0; 1] nuevos h
            | None => (h, None)
            end) as Hrun.
  { unfold procesar_punto_ref. rewrite ligar_eq.
    erewrite run_getitem_float by eauto.
    now destruct (getitem np_index dem y x). }
  unfold simula, procesar_punto. rewrite Hrun.
  destruct (getitem np_index dem y x) as [c|]; [|reflexivity].
  apply (para_cada_simula d i dem
           (fun st dy => para_cada
              (fun st dx => visitar np_index dem y x (mas_nivel c nivel) dy dx st)
              [-1; 0; 1] st)
           (fun nuevos dy => para_cada_m
              (fun nuevos dx => visitar_ref d i y x (mas_nivel c nivel) dy dx nuevos)
              [-1; 0; 1] nuevos)
           [-1; 0; 1]); [|exact Hc].
  intros dy inund1 nuevos1 h1 Hc1.
  apply (para_cada_simula d i dem
           (fun st dx => visitar np_index dem y x (mas_nivel c nivel) dy dx st)
           (fun nuevos dx => visitar_ref d i y x (mas_nivel c nivel) dy dx nuevos)
           [-1; 0; 1]); [|exact Hc1].
  intros dx inund2 nuevos2 h2 Hc2. now apply visitar_ref_simula.
Qed.

Lemma iterar_S resolve orden dem nivel n k inund activos :
  iterar resolve orden dem nivel (S n) k inund activos =
  match para_cada (procesar_punto resolve dem nivel) (orden k activos)
                  (inund, []) with
  | Some (inund', []) => Some inund'
  | Some (inund', p :: nuevos) =>
      iterar resolve orden dem nivel n (S k) inund' (p :: nuevos)
  | None => None
  end.
Proof.
  simpl.
  match goal with
  | |- context [para_cada ?f ?l ?s] =>
      destruct (para_cada f l s) as [[inund1 [|p nuevos1]]|]
  end; reflexivity.
Qed.

Lemma iterar_ref_S d i nivel n activos h :
  iterar_ref d i nivel (S n) activos h =
  match para_cada_m (procesar_punto_ref d i nivel) activos [] h with
  | (h', Some []) => (h', Some tt)
  | (h', Some (p :: nuevos)) => iterar_ref d i nivel n (p :: nuevos) h'
  | (h', None) => (h', None)
  end.
Proof.
  simpl. rewrite ligar_eq.
  destruct (para_cada_m (procesar_punto_ref d i nivel) activos [] h)
    as [h' [[|p nuevos]|]]; reflexivity.
Qed.

Lemma iterar_ref_simula d i dem nivel n : forall k inund activos h,
  contiene d i dem inund h ->
  simula d i dem (iterar_ref d i nivel n activos)
         ((fun a => (a, tt)) <$> iterar np_index (fun _ l => l) dem nivel n k
                                        inund activos) h.
Proof.
  induction n as [|n IH]; intros k inund activos h Hc.
  - exists h. auto.
  - pose proof (para_cada_simula d i dem (procesar_punto np_index dem nivel)
                  (procesar_punto_ref d i nivel) activos
                  (fun p inund0 nuevos0 h0 Hc0 =>
                     procesar_punto_ref_simula d i dem nivel inund0 nuevos0 p h0 Hc0)
                  inund [] h Hc) as Hr.
    unfold simula in Hr. unfold simula.
    rewrite iterar_S, iterar_ref_S.
    destruct (para_cada (procesar_punto np_index dem nivel) activos (inund, []))
      as [[inund1 nuevos1]|].
    + destruct Hr as (h1 & E1 & Hc1). rewrite E1.
      destruct nuevos1 as [|p nuevos1]; [exists h1; auto|].
      apply IH. exact Hc1.
    + destruct (para_cada_m (procesar_punto_ref d i nivel) activos [] h)
        as [h1 [a|]]; simpl in Hr; [discriminate|]. reflexivity.
Qed.

Lemma marcar_ref_simula d i dem pts : forall inund h,
  contiene d i dem inund h ->
  simula d i dem
         (para_cada_m (fun (_ : unit) '(y, x) => setitem_bool i y x true) pts tt)
         ((fun a => (a, tt)) <$>
            para_cada (fun inundacion '(y, x) => setitem np_index inundacion y x true)
                      pts inund) h.
Proof.
  induction pts as [|[y x] pts IH]; intros inund h Hc.
  - exists h. auto.
  - unfold simula.
    remember (para_cada_m (fun (_ : unit) '(y, x) => setitem_bool i y x true)
                ((y, x) :: pts) tt h) as run eqn:Erun.
    simpl in Erun. rewrite ligar_eq in Erun.
    erewrite run_setitem_bool in Erun by eauto. simpl.
    destruct (setitem np_index inund y x true) as [a'|]; simpl;
      [|now subst run].
    subst run. apply IH. eapply contiene_escribir; eauto.
Qed.

Lemma propagar_inundacion_ref_ok h d s dem sem nivel pasos :
  h !! d = Some (ArrFloat dem) -> h !! s = Some (ArrBool sem) ->
  match propagar_inundacion dem sem nivel pasos with
  | Some out =>
      exists h' r, propagar_inundacion_ref d s nivel pasos h = (h', Some r)
                   /\ h' !! r = Some (ArrUint8 out)
  | None => (propagar_inundacion_ref d s nivel pasos h).2 = None
  end.
Proof.
  intros Hd Hs.
  remember (propagar_inundacion_ref d s nivel pasos h) as run eqn:Erun.
  unfold propagar_inundacion_ref in Erun.
  rewrite ligar_eq in Erun. unfold leer_float in Erun at 1.
  rewrite Hd in Erun. rewrite ligar_eq in Erun. unfold nuevo in Erun at 1.
  simpl in Erun.
  set (i := fresh (dom h)) in *.
  set (h1 := <[i := ArrBool (zeros_like dem)]> h) in *.
  assert (forall l o, h !! l = Some o -> h1 !! l = Some o) as Hh1.
  { intros l o Hl. unfold h1. rewrite lookup_insert_ne; [exact Hl|].
    intros <-. apply (is_fresh (dom h)). apply elem_of_dom. eauto. }
  assert (contiene d i dem (zeros_like dem) h1) as Hc.
  { split; [now apply Hh1|]. unfold h1. apply lookup_insert_eq. }
  rewrite ligar_eq in Erun. unfold leer_bool in Erun at 1.
  rewrite (Hh1 s _ Hs) in Erun. rewrite ligar_eq in Erun.
  pose proof (marcar_ref_simula d i dem (np_where sem) _ h1 Hc) as Hm.
  unfold simula in Hm.
  unfold propagar_inundacion, propagar_con, marcar_semillas.
  destruct (para_cada (fun inundacion '(y, x) => setitem np_index inundacion y x true)
              (np_where sem) (zeros_like dem)) as [i0|]; simpl in *.
  2:{ match type of Hm with
      | (?t).2 = None => destruct t as [h2 [a|]]
      end; simpl in Hm; [discriminate|]. now subst run. }
  destruct Hm as (h2 & E2 & Hc2). rewrite E2 in Erun.
  rewrite ligar_eq in Erun.
  pose proof (iterar_ref_simula d i dem nivel (Z.to_nat pasos) 0%nat i0
                (np_where sem) h2 Hc2) as Hi.
  unfold simula in Hi.
  destruct (iterar np_index (fun _ l => l) dem nivel (Z.to_nat pasos) 0 i0
              (np_where sem)) as [r|]; simpl in *.
  2:{ destruct (iterar_ref d i nivel (Z.to_nat pasos) (np_where sem) h2)
        as [h3 [a|]]; simpl in Hi; [discriminate|]. now subst run. }
  destruct Hi as (h3 & E3 & Hc3). rewrite E3 in Erun.
  rewrite ligar_eq in Erun. unfold leer_bool in Erun at 1.
  destruct Hc3 as [_ Hi3]. rewrite Hi3 in Erun. unfold nuevo in Erun.
  subst run. eexists. eexists. split; [reflexivity|]. apply lookup_insert_eq.
Qed.

Lemma extension_ref_ok h d s c dem sem cont nivel pasos :
  h !! d = Some (ArrFloat dem) -> h !! s = Some (ArrBool sem) ->
  contencion_en h c cont ->
  match extension dem sem cont nivel pasos with
  | Some out =>
      exists h' r, extension_ref d s c nivel pasos h = (h', Some r)
                   /\ h' !! r = Some (ArrUint8 out)
  | None => (extension_ref d s c nivel pasos h).2 = None
  end.
Proof.
  intros Hd Hs Hcont.
  pose proof (propagar_inundacion_ref_ok h d s dem sem nivel pasos Hd Hs) as Hp.
  pose proof (respeta_propagar_inundacion_ref d s nivel pasos h) as Hfr.
  remember (extension_ref d s c nivel pasos h) as run eqn:Erun.
  unfold extension_ref in Erun. rewrite ligar_eq in Erun.
  unfold extension.
  destruct (propagar_inundacion dem sem nivel pasos) as [out0|]; simpl.
  - destruct Hp as (h1 & r & E & Hr). rewrite E in *. simpl in Hfr.
    destruct c as [l|], cont as [m|]; simpl in Hcont; try contradiction.
    + rewrite ligar_eq in Erun. unfold leer_uint8 in Erun at 1.
      rewrite Hr in Erun. rewrite ligar_eq in Erun.
      unfold leer_uint8 in Erun at 1.
      destruct (Hfr l _ Hcont) as [_ Hl]. rewrite Hl in Erun by tauto.
      rewrite ligar_eq in Erun. unfold elevar in Erun.
      destruct (np_mul_uint8 out0 m) as [out|]; subst run; [|reflexivity].
      unfold nuevo. eexists. eexists. split; [reflexivity|].
      apply lookup_insert_eq.
    + subst run. exists h1, r. auto.
  - destruct (propagar_inundacion_ref d s nivel pasos h) as [h1 [a|]];
      simpl in Hp; [discriminate|]. now subst run.
Qed.

(** ** The properties of the specification *)

(** C1: every cell of the returned extent was a seed or was admitted in one
    of the first [max_iterations] expansion rounds, that is, it is the end of
    a chain of 8-neighbour steps from a seed, each into a cell not yet
    flooded whose elevation is at most the head of the cell it comes from and
    at least that cell's elevation minus 1.0, head and difference being the
    floating-point ones the code compares with; and with a containment mask
    every cell of the extent lies within the mask. *)
Theorem C1_extension_alcanzable dem sem cont nivel pasos :
  entrada_valida dem sem cont = true ->
  exists out, extension dem sem cont nivel pasos = Some out
    /\ forall c, inundada out c ->
         (exists k, (k <= Z.to_nat pasos)%nat /\ ronda dem sem nivel k c)
         /\ match cont with
            | Some m => dentro_de m c
            | None => True
            end.
Proof.
  intros Hv. pose proof Hv as (Hwf & Hws & Hms & _)%entrada_valida_spec.
  destruct (extension_ok dem sem cont nivel pasos Hv)
    as (r & out & _ & _ & Hr & E & Ho).
  exists out. split; [exact E|]. intros c [Hm Hc]%Ho. split.
  - apply alcanza_primera; [exact Hwf|now apply semillas_en_rango|].
    now apply Hr.
  - destruct cont as [m|]; [|exact I].
    destruct Hc as (v & Hv1 & Hv2). exists v. split; [exact Hv1|].
    intros ->. now rewrite Zmod_0_l in Hv2.
Qed.

(** C2: with everything else fixed, the extent at a level is contained in
    the extent at any higher level, in every format whose rounding is
    monotone. *)
Theorem C2_monotonia_nivel dem sem cont l1 l2 pasos :
  monotona fl ->
  entrada_valida dem sem cont = true ->
  (l1 < l2)%Q ->
  exists out1 out2,
    extension dem sem cont l1 pasos = Some out1
    /\ extension dem sem cont l2 pasos = Some out2
    /\ forall c, inundada out1 c -> inundada out2 c.
Proof.
  intros fl_mono Hv Hl.
  destruct (extension_ok dem sem cont l1 pasos Hv)
    as (r1 & out1 & _ & _ & Hr1 & E1 & Ho1).
  destruct (extension_ok dem sem cont l2 pasos Hv)
    as (r2 & out2 & _ & _ & Hr2 & E2 & Ho2).
  exists out1, out2. split; [exact E1|]. split; [exact E2|].
  intros c [Hm Hc]%Ho1. apply Ho2. split; [|exact Hc].
  apply Hr2. apply alcanza_nivel with l1; [exact fl_mono|lra|].
  now apply Hr1.
Qed.

(** C3: on valid inputs the call returns a grid, a function of the inputs
    alone, and walking the frontier of each round in any other order returns
    that same grid; with no round the run returns the seeds, and what one
    more round floods is fixed by the state at the end of the round before,
    whatever the order: the cells already flooded, and the cells that a cell
    admitted in that round admits. *)
Theorem C3_orden_indiferente dem sem nivel pasos
    (orden : nat -> list celda -> list celda) :
  entrada_valida dem sem None = true ->
  (forall k l, Permutation (orden k l) l) ->
  (exists out,
     propagar_inundacion dem sem nivel pasos = Some out
     /\ propagar_con np_index orden dem sem nivel pasos = Some out)
  /\ (exists out,
        propagar_con np_index orden dem sem nivel 0 = Some out
        /\ forall n, inundada out n <-> lee sem n = Some true)
  /\ forall k, 0 <= k ->
       exists out out',
         propagar_con np_index orden dem sem nivel k = Some out
         /\ propagar_con np_index orden dem sem nivel (k + 1) = Some out'
         /\ forall n, inundada out' n <->
                      inundada out n
                      \/ exists c, ronda dem sem nivel (Z.to_nat k) c
                                   /\ paso dem nivel c n.
Proof.
  intros (Hwf & Hws & Hms & _)%entrada_valida_spec Hperm.
  pose proof (semillas_en_rango dem sem Hws Hms) as Hs.
  split; [|split].
  - destruct (propagar_inundacion_ok dem sem nivel pasos Hwf Hs)
      as (r & E & Hb & Hr).
    destruct (propagar_con_ok np_index orden np_index_dentro Hperm
                dem sem nivel pasos Hwf Hs) as (r' & E' & Hb' & Hr').
    exists (astype_uint8 r). split; [exact E|]. rewrite E'.
    do 2 f_equal. apply (bueno_ext dem); auto.
    intros c. now rewrite Hr, Hr'.
  - destruct (propagar_con_ok np_index orden np_index_dentro Hperm
                dem sem nivel 0 Hwf Hs) as (r & E & _ & Hr).
    exists (astype_uint8 r). split; [exact E|]. intros n.
    rewrite inundada_astype, Hr. simpl. apply alcanza_0.
  - intros k Hk.
    destruct (propagar_con_ok np_index orden np_index_dentro Hperm
                dem sem nivel k Hwf Hs) as (r & E & _ & Hr).
    destruct (propagar_con_ok np_index orden np_index_dentro Hperm
                dem sem nivel (k + 1) Hwf Hs) as (r' & E' & _ & Hr').
    exists (astype_uint8 r), (astype_uint8 r').
    split; [exact E|]. split; [exact E'|]. intros n.
    rewrite !inundada_astype, Hr, Hr'.
    replace (Z.to_nat (k + 1)) with (S (Z.to_nat k)) by lia.
    split.
    + intros H.
      destruct (alcanza_dec dem sem nivel (Z.to_nat k) n Hwf Hs) as [Hn|Hn];
        [now left|right].
      assert (ronda dem sem nivel (S (Z.to_nat k)) n) as [_ Hr0]; [|exact Hr0].
      apply alcanza_ronda; [exact H|].
      intros j Hj Hc. apply Hn. eapply alcanza_mono; [exact Hc|lia].
    + intros [H|(c & Hc & Hp)].
      * eapply alcanza_mono; [exact H|lia].
      * eapply alcanza_paso; [|exact Hp]. now apply ronda_alcanza.
Qed.

(** C4, as the code has it: nothing is validated.  The operation fails,
    with no result, exactly when a true seed cell lies outside the elevation
    grid or when the containment mask cannot be broadcast against the
    elevation grid, whatever the level and the budget; a true seed cell
    outside the grid is what makes the marking of the seeds fail, before any
    round; and with a budget that is not positive no round runs: the flood
    fill, when it returns, returns exactly the seed cells. *)
Theorem C4_sin_validacion dem sem cont nivel pasos :
  bien_formado dem = true ->
  (extension dem sem cont nivel pasos = None <->
   (exists c, lee sem c = Some true /\ ~ en_rango dem c)
   \/ (exists m, cont = Some m
         /\ (difusion (shape0 dem) (shape0 m) = None
             \/ difusion (shape1 dem) (shape1 m) = None)))
  /\ (marcar_semillas np_index dem (np_where sem) = None <->
      exists c, lee sem c = Some true /\ ~ en_rango dem c)
  /\ (pasos <= 0 ->
      forall out, propagar_inundacion dem sem nivel pasos = Some out ->
      forall c, inundada out c <-> lee sem c = Some true).
Proof.
  intros Hwf. split; [|split].
  - unfold extension. destruct (semillas_dec dem sem) as [Hs|Hs].
    + destruct (propagar_inundacion_ok dem sem nivel pasos Hwf Hs)
        as (r & E & (_ & H0 & H1) & _).
      rewrite E. simpl. split.
      * destruct cont as [m|]; [|discriminate].
        intros H%np_mul_uint8_None. simpl in H. rewrite H0, H1 in H. eauto.
      * intros [(c & Hc & Hn)|(m & -> & H)]; [elim Hn; auto|].
        apply np_mul_uint8_None. simpl. now rewrite H0, H1.
    + unfold propagar_inundacion.
      rewrite (propagar_con_falla _ _ np_index_dentro np_index_fuera)
        by exact Hs.
      simpl. split; auto.
  - split.
    + intros E. destruct (semillas_dec dem sem) as [Hs|Hs]; [|exact Hs].
      destruct (marcar_semillas_ok np_index np_index_dentro dem (np_where sem))
        as (r & Er & _).
      * intros p Hp. now apply Hs, np_where_In.
      * congruence.
    + apply (marcar_semillas_falla np_index np_index_dentro np_index_fuera).
  - intros Hp out E c. destruct (semillas_dec dem sem) as [Hs|Hs].
    + destruct (propagar_inundacion_ok dem sem nivel pasos Hwf Hs)
        as (r & E' & _ & Hr).
      rewrite E in E'. injection E' as ->.
      rewrite inundada_astype, Hr.
      replace (Z.to_nat pasos) with 0%nat by lia. apply alcanza_0.
    + unfold propagar_inundacion in E.
      rewrite (propagar_con_falla _ _ np_index_dentro np_index_fuera) in E
        by exact Hs.
      discriminate.
Qed.

(** C5, as it holds: reusing the extent of a lower level as extra seeds
    returns the extent of the higher level when the budget lets the run at
    the higher level from the original seeds converge, that is, when one more
    round would flood nothing more (the rounding being monotone). *)
Theorem C5_reutilizar_si_converge dem sem l1 l2 pasos :
  monotona fl ->
  entrada_valida dem sem None = true ->
  (l1 < l2)%Q ->
  0 <= pasos ->
  propagar_inundacion dem sem l2 (pasos + 1)
  = propagar_inundacion dem sem l2 pasos ->
  propagar_reusando dem sem l1 l2 pasos
  = propagar_inundacion dem sem l2 pasos.
Proof.
  intros fl_mono (Hwf & Hws & Hms & _)%entrada_valida_spec Hl Hp Hconv.
  pose proof (semillas_en_rango dem sem Hws Hms) as Hs.
  destruct (propagar_inundacion_ok dem sem l1 pasos Hwf Hs)
    as (r1 & E1 & Hb1 & Hr1).
  destruct (propagar_inundacion_ok dem sem l2 pasos Hwf Hs)
    as (r2 & E2 & Hb2 & Hr2).
  destruct (propagar_inundacion_ok dem sem l2 (pasos + 1) Hwf Hs)
    as (r2' & E2' & Hb2' & Hr2').
  destruct (unir_semillas_ok dem sem r1 Hws Hms Hb1) as (Hwu & Hmu & Hu).
  destruct (propagar_inundacion_ok dem (unir_semillas sem (astype_uint8 r1))
              l2 pasos Hwf (semillas_en_rango _ _ Hwu Hmu))
    as (r3 & E3 & Hb3 & Hr3).
  unfold propagar_reusando. rewrite E1. simpl. rewrite E3, E2.
  do 2 f_equal. apply (bueno_ext dem); auto.
  assert (forall c n, alcanza dem sem l2 (Z.to_nat pasos) c -> paso dem l2 c n ->
                      alcanza dem sem l2 (Z.to_nat pasos) n) as Hcl.
  { intros c n Hc Hpaso. apply Hr2.
    assert (astype_uint8 r2' = astype_uint8 r2) as Hconv' by congruence.
    apply inundada_astype. rewrite <- Hconv', inundada_astype. apply Hr2'.
    replace (Z.to_nat (pasos + 1)) with (S (Z.to_nat pasos)) by lia.
    eapply alcanza_paso; eauto. }
  assert (forall m c, alcanza dem (unir_semillas sem (astype_uint8 r1)) l2 m c ->
                      alcanza dem sem l2 (Z.to_nat pasos) c) as Hsub.
  { intros m c H. induction H as [k c Hc|k c n Hc IH Hpaso].
    - apply Hu in Hc as [Hc|Hc]; [now apply alcanza_semilla|].
      apply alcanza_nivel with l1; [exact fl_mono|lra|]. now apply Hr1.
    - eapply Hcl; eauto. }
  intros c. rewrite Hr3, Hr2. split.
  - apply Hsub.
  - apply alcanza_semillas. intros c0 Hc0. apply Hu. now left.
Qed.

(** C6: with [max_iterations = 0] the call returns, and a cell is flooded
    in the returned extent exactly when it is a true cell of the seed mask
    and, with a containment mask, the [uint8] value of the mask there is not
    zero: no round runs and no other cell is flooded. *)
Theorem C6_sin_rondas dem sem cont nivel :
  entrada_valida dem sem cont = true ->
  exists out,
    extension dem sem cont nivel 0 = Some out
    /\ forall c, inundada out c <->
         lee sem c = Some true
         /\ match cont with
            | Some m => exists v, lee m c = Some v /\ v mod 256 <> 0
            | None => True
            end.
Proof.
  intros Hv.
  destruct (extension_ok dem sem cont nivel 0 Hv)
    as (r & out & _ & _ & Hr & E & Ho).
  exists out. split; [exact E|]. intros c.
  rewrite Ho, Hr. simpl. now rewrite alcanza_0.
Qed.

(** C7: on the 5x5 grid with a wall of elevation 100 in column 3 and a seed
    at (2, 0), at level 1.0 and for any budget no cell of columns 3 and 4 is
    flooded; with a budget of 10 rounds exactly columns 0 to 2 are.  This
    holds in every format with a monotone rounding of which 0 and 1 are
    values. *)
Theorem C7_barrera_columna_3 :
  monotona fl -> representable fl 0 -> representable fl 1 ->
  (forall pasos, exists out,
      propagar_inundacion dem_barrera semilla_2_0 1 pasos = Some out
      /\ forall y x, 3 <= x -> ~ inundada out (y, x))
  /\ propagar_inundacion dem_barrera semilla_2_0 1 10
     = Some (NdArray 5 5 (replicate 5 [1; 1; 1; 0; 0])).
Proof.
  intros fl_mono H0 H1.
  assert (forall c, lee semilla_2_0 c = Some true -> en_rango dem_barrera c)
    as Hs by (apply semillas_en_rango; reflexivity).
  split.
  - intros pasos.
    destruct (propagar_inundacion_ok dem_barrera semilla_2_0 1 pasos eq_refl Hs)
      as (r & E & _ & Hr).
    exists (astype_uint8 r). split; [exact E|].
    intros y x Hx Hc%inundada_astype%Hr%(alcanza_barrera _ _ fl_mono H1).
    simpl in Hc. lia.
  - destruct (propagar_inundacion_ok dem_barrera semilla_2_0 1 10 eq_refl Hs)
      as (r & E & Hb & Hr).
    rewrite E. f_equal.
    replace r
      with (NdArray 5 5 (replicate 5 [true; true; true; false; false]));
      [reflexivity|].
    apply (bueno_ext dem_barrera); [reflexivity| |exact Hb|].
    { repeat split; reflexivity. }
    intros c. rewrite mojada_barrera, Hr. split.
    + intros [Hy Hx].
      apply (caja_alcanza dem_barrera semilla_2_0 1 (2, 0) 0 4 0 2);
        simpl; try lia; try reflexivity.
      * intros a b Hay Hax Hby Hbx. now apply paso_barrera.
      * unfold cerca. simpl. lia.
    + intros Hc. pose proof (alcanza_barrera _ _ fl_mono H1 Hc) as Hcol.
      apply Hr in Hc. destruct Hb as (Hw & Hb0 & Hb1).
      pose proof (lee_Some_en_rango r c true Hw Hc) as [Hy Hx].
      rewrite Hb0 in Hy. rewrite Hb1 in Hx. simpl in Hy, Hx. lia.
Qed.

(** C8: on grids of one shape the call completes, and it completes with
    the same grid when every index outside [[0, n)] is an error: no cell
    outside the grid is read or written, no negative index wraps around, and
    only cells of the grid are flooded. *)
Theorem C8_dentro_de_la_rejilla dem sem nivel pasos :
  entrada_valida dem sem None = true ->
  exists out,
    propagar_inundacion dem sem nivel pasos = Some out
    /\ propagar_con strict_index (fun _ l => l) dem sem nivel pasos = Some out
    /\ forall c, inundada out c -> en_rango dem c.
Proof.
  intros (Hwf & Hws & Hms & _)%entrada_valida_spec.
  pose proof (semillas_en_rango dem sem Hws Hms) as Hs.
  destruct (propagar_inundacion_ok dem sem nivel pasos Hwf Hs)
    as (r & E & Hb & Hr).
  destruct (propagar_con_ok strict_index (fun _ l => l) strict_index_dentro
              (fun _ l => Permutation_refl l) dem sem nivel pasos Hwf Hs)
    as (r' & E' & Hb' & Hr').
  assert (r' = r) as ->
    by (apply (bueno_ext dem); auto; intros c; now rewrite Hr, Hr').
  exists (astype_uint8 r). split; [exact E|]. split; [exact E'|].
  intros c Hc%inundada_astype. destruct Hb as (Hbw & H0 & H1).
  eapply en_rango_forma; [exact H0|exact H1|].
  eapply lee_Some_en_rango; eauto.
Qed.

(** C9: a call changes no array that was in the store before it, whether it
    returns or raises; the array it returns is a new object; and on a store
    that holds the input grids it returns exactly the grid of the value-level
    embedding. *)
Theorem C9_entradas_intactas h d s c nivel pasos :
  (forall l o, h !! l = Some o ->
               (extension_ref d s c nivel pasos h).1 !! l = Some o)
  /\ (forall r, (extension_ref d s c nivel pasos h).2 = Some r ->
                h !! r = None
                /\ is_Some ((extension_ref d s c nivel pasos h).1 !! r))
  /\ (forall dem sem cont,
        h !! d = Some (ArrFloat dem) -> h !! s = Some (ArrBool sem) ->
        contencion_en h c cont ->
        match extension dem sem cont nivel pasos with
        | Some out =>
            exists r, (extension_ref d s c nivel pasos h).2 = Some r
              /\ (extension_ref d s c nivel pasos h).1 !! r = Some (ArrUint8 out)
        | None => (extension_ref d s c nivel pasos h).2 = None
        end).
Proof.
  split; [|split].
  - intros l o Hl.
    destruct (respeta_extension_ref d s c nivel pasos h l o Hl) as [_ H].
    apply H. tauto.
  - intros r Hr.
    destruct (extension_ref d s c nivel pasos h) as [h' res] eqn:E.
    simpl in Hr. subst res. simpl.
    eapply da_nuevo_extension_ref; eauto.
  - intros dem sem cont Hd Hs Hc.
    pose proof (extension_ref_ok h d s c dem sem cont nivel pasos Hd Hs Hc) as H.
    destruct (extension dem sem cont nivel pasos) as [out|]; [|exact H].
    destruct H as (h' & r & E & Hr). rewrite E. simpl. eauto.
Qed.

(** C10: whatever the level and the elevations, the grid the flood fill
    returns has every seed cell flooded; and it does return a grid when the
    seed mask has the shape of the elevation grid. *)
Theorem C10_semillas_siempre dem sem nivel pasos :
  bien_formado dem = true ->
  (bien_formado sem = true -> misma_forma sem dem = true ->
   exists out, propagar_inundacion dem sem nivel pasos = Some out)
  /\ forall out, propagar_inundacion dem sem nivel pasos = Some out ->
       forall c, lee sem c = Some true -> lee out c = Some 1.
Proof.
  intros Hwf. split.
  - intros Hws Hms.
    destruct (propagar_inundacion_ok dem sem nivel pasos Hwf
                (semillas_en_rango dem sem Hws Hms)) as (r & E & _).
    eauto.
  - intros out E c Hc. destruct (semillas_dec dem sem) as [Hs|Hs].
    + destruct (propagar_inundacion_ok dem sem nivel pasos Hwf Hs)
        as (r & E' & _ & Hr).
      rewrite E in E'. injection E' as ->. rewrite lee_astype_uint8.
      assert (mojada r c) as Hm by (apply Hr; now apply alcanza_semilla).
      unfold mojada in Hm. now rewrite Hm.
    + unfold propagar_inundacion in E.
      rewrite (propagar_con_falla _ _ np_index_dentro np_index_fuera) in E
        by exact Hs.
      discriminate.
Qed.

(** ** Further properties of the flood fill *)

Lemma propagar_alcanza dem sem nivel pasos :
  entrada_valida dem sem None = true ->
  exists out, propagar_inundacion dem sem nivel pasos = Some out
    /\ forall c, inundada out c <-> alcanza dem sem nivel (Z.to_nat pasos) c.
Proof.
  intros Hv.
  destruct (extension_ok dem sem None nivel pasos Hv)
    as (r & out & E & _ & Hr & _ & _).
  exists (astype_uint8 r). split; [exact E|].
  intros c. now rewrite inundada_astype.
Qed.

(** On valid inputs two runs return the same grid exactly when they reach
    the same cells. *)
Lemma propagar_igual dem sem nivel nivel' pasos pasos' :
  entrada_valida dem sem None = true ->
  (forall c, alcanza dem sem nivel (Z.to_nat pasos) c
             <-> alcanza dem sem nivel' (Z.to_nat pasos') c) <->
  propagar_inundacion dem sem nivel pasos
  = propagar_inundacion dem sem nivel' pasos'.
Proof.
  intros Hv.
  pose proof Hv as (Hwf & Hws & Hms & _)%entrada_valida_spec.
  pose proof (semillas_en_rango dem sem Hws Hms) as Hs.
  destruct (propagar_inundacion_ok dem sem nivel pasos Hwf Hs)
    as (r & E & Hb & Hr).
  destruct (propagar_inundacion_ok dem sem nivel' pasos' Hwf Hs)
    as (r' & E' & Hb' & Hr').
  rewrite E, E'. split.
  - intros H. do 2 f_equal. apply (bueno_ext dem); auto.
    intros c. now rewrite Hr, Hr', H.
  - intros H c.
    assert (astype_uint8 r = astype_uint8 r') as Ha by congruence.
    now rewrite <- Hr, <- Hr', <- !inundada_astype, Ha.
Qed.

(** X1: the flood fill returns exactly the cells within [pasos] admissible
    steps of a seed: every such cell is flooded, and no other. *)
Theorem X1_inundada_sii_alcanza dem sem nivel pasos :
  entrada_valida dem sem None = true ->
  exists out, propagar_inundacion dem sem nivel pasos = Some out
    /\ forall c, inundada out c <-> alcanza dem sem nivel (Z.to_nat pasos) c.
Proof. exact (propagar_alcanza dem sem nivel pasos). Qed.

(** X2: whenever the flood fill returns, the grid it returns has the shape
    of the elevation grid and holds only 0 and 1. *)
Theorem X2_salida_binaria dem sem nivel pasos out :
  bien_formado dem = true ->
  propagar_inundacion dem sem nivel pasos = Some out ->
  bien_formado out = true
  /\ misma_forma out dem = true
  /\ forall c, en_rango dem c -> lee out c = Some 0 \/ lee out c = Some 1.
Proof.
  intros Hwf E. destruct (semillas_dec dem sem) as [Hs|Hs].
  - destruct (propagar_inundacion_ok dem sem nivel pasos Hwf Hs)
      as (r & E' & (Hbw & H0 & H1) & _).
    rewrite E in E'. injection E' as ->. split; [|split].
    + now apply astype_uint8_bien_formado.
    + apply misma_forma_spec. simpl. auto.
    + intros c Hc. rewrite lee_astype_uint8.
      assert (en_rango r c) as Hc'
        by (apply (en_rango_forma dem r); [congruence|congruence|exact Hc]).
      destruct (lee_en_rango r c Hbw Hc') as [[|] Hb]; rewrite Hb; simpl; auto.
  - unfold propagar_inundacion in E.
    rewrite (propagar_con_falla _ _ np_index_dentro np_index_fuera) in E
      by exact Hs.
    discriminate.
Qed.

(** X3: a larger budget never floods less. *)
Theorem X3_monotonia_pasos dem sem nivel pasos pasos' :
  entrada_valida dem sem None = true ->
  pasos <= pasos' ->
  exists out out',
    propagar_inundacion dem sem nivel pasos = Some out
    /\ propagar_inundacion dem sem nivel pasos' = Some out'
    /\ forall c, inundada out c -> inundada out' c.
Proof.
  intros Hv Hp.
  destruct (propagar_alcanza dem sem nivel pasos Hv) as (out & E & Ho).
  destruct (propagar_alcanza dem sem nivel pasos' Hv) as (out' & E' & Ho').
  exists out, out'. split; [exact E|]. split; [exact E'|].
  intros c Hc%Ho. apply Ho'. eapply alcanza_mono; [exact Hc|lia].
Qed.

(** X4: more seeds never flood less. *)
Theorem X4_monotonia_semillas dem sem sem' nivel pasos :
  entrada_valida dem sem None = true ->
  entrada_valida dem sem' None = true ->
  semillas_incluidas sem sem' ->
  exists out out',
    propagar_inundacion dem sem nivel pasos = Some out
    /\ propagar_inundacion dem sem' nivel pasos = Some out'
    /\ forall c, inundada out c -> inundada out' c.
Proof.
  intros Hv Hv' Hinc.
  destruct (propagar_alcanza dem sem nivel pasos Hv) as (out & E & Ho).
  destruct (propagar_alcanza dem sem' nivel pasos Hv') as (out' & E' & Ho').
  exists out, out'. split; [exact E|]. split; [exact E'|].
  intros c Hc%Ho. apply Ho'. eapply alcanza_semillas; [exact Hinc|exact Hc].
Qed.

(** X5: once one more round changes nothing, no larger budget changes
    anything: the run has reached its fixed point (this is what the early
    exit on an empty frontier relies on). *)
Theorem X5_punto_fijo dem sem nivel k k' :
  entrada_valida dem sem None = true ->
  0 <= k <= k' ->
  propagar_inundacion dem sem nivel (k + 1) = propagar_inundacion dem sem nivel k ->
  propagar_inundacion dem sem nivel k' = propagar_inundacion dem sem nivel k.
Proof.
  intros Hv Hk Heq. apply (propagar_igual dem sem nivel nivel k' k Hv).
  pose proof (proj2 (propagar_igual dem sem nivel nivel (k + 1) k Hv) Heq) as Hc.
  replace (Z.to_nat (k + 1)) with (S (Z.to_nat k)) in Hc by lia.
  intros c. split.
  - apply alcanza_cerrado. intros c0 n0 Hc0 Hp. apply Hc.
    eapply alcanza_paso; eauto.
  - intros H. eapply alcanza_mono; [exact H|lia].
Qed.

(** No step is admissible where the head of every cell is below its
    elevation minus 1.0: the two elevation tests exclude each other. *)
Lemma paso_nivel_bajo dem nivel c n :
  (forall a ea, lee dem a = Some ea -> (mas_nivel ea nivel < menos_uno ea)%Q) ->
  ~ paso dem nivel c n.
Proof.
  intros Hl [_ (ec & en & Hc & _ & H1 & H2)]. specialize (Hl c ec Hc). lra.
Qed.

(** X7: at a level so low that, at every cell, the floating-point head
    (elevation plus level) is below the floating-point elevation minus 1.0,
    nothing but the seeds is flooded, whatever the budget. *)
Theorem X7_nivel_bajo dem sem nivel pasos :
  entrada_valida dem sem None = true ->
  (forall a ea, lee dem a = Some ea -> (mas_nivel ea nivel < menos_uno ea)%Q) ->
  propagar_inundacion dem sem nivel pasos = Some (astype_uint8 sem).
Proof.
  intros Hv Hl.
  pose proof Hv as (Hwf & Hws & Hms & _)%entrada_valida_spec.
  destruct (extension_ok dem sem None nivel pasos Hv)
    as (r & out & E & Hb & Hr & _ & _).
  rewrite E. do 2 f_equal. apply (bueno_ext dem); auto.
  - apply misma_forma_spec in Hms as [H0 H1]. now repeat split.
  - intros c. rewrite Hr. unfold mojada. split.
    + intros H. induction H as [k c Hs|k c n Hc IH Hp]; [exact Hs|].
      now apply (paso_nivel_bajo dem nivel c n Hl) in Hp.
    + apply alcanza_semilla.
Qed.

Lemma alcanza_cerca dem sem nivel k c :
  alcanza dem sem nivel k c ->
  exists s, lee sem s = Some true /\ cerca k s c.
Proof.
  intros H. induction H as [k c Hs|k c n Hc (s & Hs & H1 & H2) Hp].
  - exists c. split; [exact Hs|]. unfold cerca. split; lia.
  - exists s. split; [exact Hs|].
    destruct Hp as [(_ & Hy & Hx) _]. unfold cerca. split; lia.
Qed.

(** X8: the flood advances at most one cell per round: every flooded cell
    is within [pasos] king moves of a seed. *)
Theorem X8_un_paso_por_ronda dem sem nivel pasos out c :
  bien_formado dem = true ->
  propagar_inundacion dem sem nivel pasos = Some out ->
  inundada out c ->
  exists s, lee sem s = Some true /\ cerca (Z.to_nat pasos) s c.
Proof.
  intros Hwf E Hc. destruct (semillas_dec dem sem) as [Hs|Hs].
  - destruct (propagar_inundacion_ok dem sem nivel pasos Hwf Hs)
      as (r & E' & _ & Hr).
    rewrite E in E'. injection E' as ->.
    apply inundada_astype, Hr in Hc. now apply alcanza_cerca in Hc.
  - unfold propagar_inundacion in E.
    rewrite (propagar_con_falla _ _ np_index_dentro np_index_fuera) in E
      by exact Hs.
    discriminate.
Qed.

(** *** The budget that always suffices *)

Lemma todas_In {A} (a : ndarray A) c : In c (todas a) <-> en_rango a c.
Proof.
  unfold todas, en_rango. rewrite in_flat_map. split.
  - intros (i & Hi & Hc). apply in_map_iff in Hc as (j & <- & Hj).
    apply in_seq in Hi, Hj. simpl. lia.
  - intros [Hy Hx]. exists (Z.to_nat c.1). split; [apply in_seq; lia|].
    apply in_map_iff. exists (Z.to_nat c.2). split; [|apply in_seq; lia].
    destruct c; simpl in *. f_equal; lia.
Qed.

Lemma length_todas {A} (a : ndarray A) :
  length (todas a) = (shape0 a * shape1 a)%nat.
Proof.
  unfold todas.
  assert (forall l : list nat,
            length (flat_map (fun i => map (fun j => (Z.of_nat i, Z.of_nat j))
                                           (seq 0 (shape1 a))) l)
            = (length l * shape1 a)%nat) as H.
  { induction l as [|i l IH]; simpl; [reflexivity|].
    now rewrite length_app, length_map, length_seq, IH. }
  now rewrite H, length_seq.
Qed.

Lemma esta_inundada_spec r c : esta_inundada r c = true <-> inundada r c.
Proof.
  unfold esta_inundada, inundada. destruct (lee r c) as [v|]; split.
  - intros H. exists v. split; [reflexivity|].
    apply negb_true_iff, Z.eqb_neq in H. exact H.
  - intros (w & [= <-] & Hw). now apply negb_true_iff, Z.eqb_neq.
  - discriminate.
  - intros (w & [=] & _).
Qed.

Lemma filter_length_mono {A} (p q : A -> bool) (l : list A) :
  (forall x, In x l -> p x = true -> q x = true) ->
  (length (List.filter p l) <= length (List.filter q l))%nat
  /\ ((exists x, In x l /\ p x = false /\ q x = true) ->
      (length (List.filter p l) < length (List.filter q l))%nat).
Proof.
  induction l as [|a l IH]; intros Hpq; simpl.
  - split; [lia|]. intros (x & [] & _).
  - destruct IH as [IH1 IH2];
      [intros x Hx; apply Hpq; now right|].
    pose proof (Hpq a (or_introl eq_refl)) as Ha.
    destruct (p a) eqn:Ep, (q a) eqn:Eq; simpl.
    + split; [lia|]. intros (x & [<-|Hx] & Hp & Hq); [congruence|].
      assert (length (List.filter p l) < length (List.filter q l))%nat
        by (apply IH2; eauto).
      lia.
    + specialize (Ha eq_refl). discriminate.
    + split; [lia|]. intros _. lia.
    + split; [lia|]. intros (x & [<-|Hx] & Hp & Hq); [congruence|].
      apply IH2; eauto.
Qed.

Lemma todos_o_alguno {A} (p q : A -> bool) (l : list A) :
  (forall x, In x l -> q x = true -> p x = true)
  \/ (exists x, In x l /\ p x = false /\ q x = true).
Proof.
  induction l as [|a l [IH|(x & Hx & H)]].
  - left. intros x [].
  - destruct (q a) eqn:Eq, (p a) eqn:Ep.
    + left. intros x [<-|Hx]; auto.
    + right. exists a. split; [now left|]. auto.
    + left. intros x [<-|Hx]; [congruence|auto].
    + left. intros x [<-|Hx]; [congruence|auto].
  - right. exists x. split; [now right|exact H].
Qed.

Lemma alcanza_en_rango dem sem nivel k c :
  bien_formado dem = true ->
  (forall c, lee sem c = Some true -> en_rango dem c) ->
  alcanza dem sem nivel k c -> en_rango dem c.
Proof.
  intros Hwf Hs H. destruct H as [k c Hc|k c n _ [_ (ec & en & _ & Hn & _)]].
  - now apply Hs.
  - eapply lee_Some_en_rango; eauto.
Qed.

(** Either some round within the first [m] floods nothing, or [m] rounds
    have flooded at least [m] cells. *)
Lemma cerrado_o_cuenta dem sem nivel m :
  entrada_valida dem sem None = true ->
  (exists k, (k < m)%nat
             /\ forall c, alcanza dem sem nivel (S k) c -> alcanza dem sem nivel k c)
  \/ (forall out, propagar_inundacion dem sem nivel (Z.of_nat m) = Some out ->
                  (m <= cuenta dem out)%nat).
Proof.
  intros Hv. pose proof Hv as (Hwf & Hws & Hms & _)%entrada_valida_spec.
  pose proof (semillas_en_rango dem sem Hws Hms) as Hs.
  induction m as [|m [(k & Hk & Hc)|IH]].
  - right. intros out _. lia.
  - left. exists k. split; [lia|exact Hc].
  - destruct (propagar_alcanza dem sem nivel (Z.of_nat m) Hv) as (o & E & Ho).
    destruct (propagar_alcanza dem sem nivel (Z.of_nat (S m)) Hv)
      as (o' & E' & Ho').
    rewrite Nat2Z.id in Ho, Ho'. specialize (IH o E).
    destruct (todos_o_alguno (esta_inundada o) (esta_inundada o') (todas dem))
      as [Hall|Hex].
    + left. exists m. split; [lia|]. intros c Hc.
      apply Ho, esta_inundada_spec, Hall.
      * apply todas_In. eapply alcanza_en_rango; eauto.
      * now apply esta_inundada_spec, Ho'.
    + right. intros out E''. rewrite E' in E''. injection E'' as <-.
      destruct (filter_length_mono (esta_inundada o) (esta_inundada o')
                  (todas dem)) as [_ Hlt].
      * intros x _ Hx%esta_inundada_spec%Ho.
        apply esta_inundada_spec, Ho'. eapply alcanza_mono; [exact Hx|lia].
      * specialize (Hlt Hex). unfold cuenta in *. lia.
Qed.

(** X6: a budget of as many rounds as the grid has cells always reaches the
    fixed point: any larger budget returns the same grid. *)
Theorem X6_presupuesto_suficiente dem sem nivel pasos :
  entrada_valida dem sem None = true ->
  Z.of_nat (shape0 dem * shape1 dem) <= pasos ->
  propagar_inundacion dem sem nivel pasos
  = propagar_inundacion dem sem nivel (Z.of_nat (shape0 dem * shape1 dem)).
Proof.
  intros Hv Hp. apply (propagar_igual dem sem nivel nivel _ _ Hv).
  rewrite Nat2Z.id. set (N := (shape0 dem * shape1 dem)%nat) in *.
  destruct (cerrado_o_cuenta dem sem nivel (S N) Hv) as [(k & Hk & Hc)|Hn].
  - assert (forall j c, alcanza dem sem nivel j c -> alcanza dem sem nivel k c)
      as Hcl.
    { apply alcanza_cerrado. intros c n Hcc Hpaso. apply Hc.
      eapply alcanza_paso; eauto. }
    intros c. split; intros H.
    + eapply alcanza_mono; [apply (Hcl _ _ H)|lia].
    + eapply alcanza_mono; [exact H|lia].
  - exfalso.
    destruct (propagar_alcanza dem sem nivel (Z.of_nat (S N)) Hv) as (o & E & _).
    specialize (Hn o E). unfold cuenta in Hn.
    pose proof (filter_length_le (esta_inundada o) (todas dem)) as Hle.
    rewrite length_todas in Hle. fold N in Hle. lia.
Qed.

(** *** Flat terrain *)

Lemma plano_lee dem e0 c e :
  plano dem e0 = true -> lee dem c = Some e -> (e0 == e)%Q.
Proof.
  unfold plano, lee. intros Hp H.
  destruct ((0 <=? c.1) && (0 <=? c.2)); [|discriminate].
  destruct (filas dem !! Z.to_nat c.1) as [f|] eqn:Hf; [|discriminate].
  simpl in H. rewrite forallb_forall in Hp.
  assert (forallb (Qeq_bool e0) f = true) as Hrow.
  { apply Hp. apply list_elem_of_In, list_elem_of_lookup. eauto. }
  rewrite forallb_forall in Hrow. apply Qeq_bool_iff, Hrow.
  apply list_elem_of_In, list_elem_of_lookup. eauto.
Qed.

(** On flat terrain whose elevation is a value of the format, at a level
    that is not negative, every step between neighbours inside the grid is
    admissible. *)
Lemma plano_paso dem e0 nivel c n :
  monotona fl -> representable fl 0 -> representable fl e0 ->
  bien_formado dem = true -> plano dem e0 = true -> (0 <= nivel)%Q ->
  en_rango dem c -> en_rango dem n -> vecinos8 c n -> paso dem nivel c n.
Proof.
  unfold representable. intros fl_mono H0 He Hwf Hp Hl Hc Hn Hv.
  split; [exact Hv|].
  destruct (lee_en_rango dem c Hwf Hc) as [ec Hec].
  destruct (lee_en_rango dem n Hwf Hn) as [en Hen].
  exists ec, en. split; [exact Hec|]. split; [exact Hen|].
  pose proof (plano_lee dem e0 c ec Hp Hec) as Ec.
  pose proof (plano_lee dem e0 n en Hp Hen) as En.
  assert (fl ec == e0)%Q as Efl by (rewrite <- (fl_comp _ _ fl_mono Ec); exact He).
  assert (0 <= fl nivel)%Q as Hfl.
  { apply Qle_trans with (fl 0); [rewrite H0; apply Qle_refl|].
    now apply fl_mono. }
  split.
  - apply Qle_trans with (fl ec); [lra|].
    unfold mas_nivel. apply fl_mono. lra.
  - apply Qle_trans with (fl ec); [|lra].
    unfold menos_uno. apply fl_mono. lra.
Qed.

Lemma cerca_alcanza dem sem e0 nivel s :
  monotona fl -> representable fl 0 -> representable fl e0 ->
  bien_formado dem = true -> plano dem e0 = true -> (0 <= nivel)%Q ->
  lee sem s = Some true -> en_rango dem s ->
  forall k c, en_rango dem c -> cerca k s c -> alcanza dem sem nivel k c.
Proof.
  intros fl_mono H0 He Hwf Hp Hl Hs [Hsy Hsx] k c [Hcy Hcx] Hk.
  apply (caja_alcanza dem sem nivel s
           0 (Z.of_nat (shape0 dem) - 1) 0 (Z.of_nat (shape1 dem) - 1));
    try lia; auto.
  intros a b Hay Hax Hby Hbx Hv.
  apply (plano_paso dem e0); auto; unfold en_rango; lia.
Qed.

(** X9: on flat terrain whose elevation is a value of the format, at a
    level that is not negative, the flood is the set of cells of the grid
    within [pasos] king moves of a seed (for a monotone rounding, of whose
    format 0 is a value). *)
Theorem X9_terreno_plano dem sem e0 nivel pasos :
  monotona fl -> representable fl 0 -> representable fl e0 ->
  entrada_valida dem sem None = true ->
  plano dem e0 = true ->
  (0 <= nivel)%Q ->
  exists out, propagar_inundacion dem sem nivel pasos = Some out
    /\ forall c, inundada out c <->
         en_rango dem c
         /\ exists s, lee sem s = Some true /\ cerca (Z.to_nat pasos) s c.
Proof.
  intros fl_mono H0 He Hv Hp Hl.
  pose proof Hv as (Hwf & Hws & Hms & _)%entrada_valida_spec.
  pose proof (semillas_en_rango dem sem Hws Hms) as Hs.
  destruct (propagar_alcanza dem sem nivel pasos Hv) as (out & E & Ho).
  exists out. split; [exact E|]. intros c. rewrite Ho. split.
  - intros H. split; [eapply alcanza_en_rango; eauto|].
    eapply alcanza_cerca; eauto.
  - intros (Hc & s & Hsem & Hk). eapply (cerca_alcanza dem sem e0); eauto.
Qed.

(** *** The frontier of a round *)

Lemma para_cada_inv {S X} (f : S -> X -> option S) (Inv : S -> Prop)
    (l : list X) :
  (forall s x s', In x l -> Inv s -> f s x = Some s' -> Inv s') ->
  forall s s', Inv s -> para_cada f l s = Some s' -> Inv s'.
Proof.
  induction l as [|x l IH]; intros Hf s s' Hs E; simpl in E.
  - now injection E as <-.
  - destruct (f s x) as [s1|] eqn:E1; [|discriminate]. simpl in E.
    apply (IH (fun s0 x0 s0' Hin => Hf s0 x0 s0' (or_intror Hin)) s1 s');
      [|exact E].
    eapply Hf; eauto. now left.
Qed.

(** A visit leaves the new frontier as it is, or appends the neighbour,
    which was dry. *)
Lemma visitar_forma dem y x e dy dx st st' :
  bueno dem st.1 ->
  visitar np_index dem y x e dy dx st = Some st' ->
  st'.2 = st.2
  \/ (st'.2 = st.2 ++ [(y + dy, x + dx)] /\ ~ mojada st.1 (y + dy, x + dx)).
Proof.
  intros (Hbw & Hb0 & Hb1) E. destruct st as [inund nuevos]. simpl in *.
  unfold visitar in E.
  destruct ((dy =? 0) && (dx =? 0)); [injection E as <-; now left|].
  destruct ((0 <=? y + dy) && (y + dy <? Z.of_nat (shape0 dem))
            && ((0 <=? x + dx) && (x + dx <? Z.of_nat (shape1 dem)))) eqn:Er;
    [|injection E as <-; now left].
  rewrite !andb_true_iff, !Z.leb_le, !Z.ltb_lt in Er.
  assert (en_rango inund (y + dy, x + dx)) as Hn
    by (unfold en_rango; simpl; rewrite Hb0, Hb1; lia).
  rewrite (getitem_lee np_index np_index_dentro inund) in E by exact Hn.
  destruct (lee inund (y + dy, x + dx)) as [[|]|] eqn:Hl; simpl in E.
  - injection E as <-. now left.
  - match type of E with
    | context [y_perezoso ?p ?q] => destruct (y_perezoso p q) as [[|]|]
    end; simpl in E.
    + destruct (setitem np_index inund (y + dy) (x + dx) true) as [i'|];
        [|discriminate].
      simpl in E. injection E as <-. right. simpl. split; [reflexivity|].
      unfold mojada. rewrite Hl. discriminate.
    + injection E as <-. now left.
    + discriminate.
  - discriminate.
Qed.

Lemma visitar_sana dem nivel inund0 y x ec dy dx st st' :
  bien_formado dem = true ->
  lee dem (y, x) = Some ec ->
  -1 <= dy <= 1 -> -1 <= dx <= 1 ->
  bueno dem st.1 /\ frontera_sana inund0 st ->
  visitar np_index dem y x (mas_nivel ec nivel) dy dx st = Some st' ->
  bueno dem st'.1 /\ frontera_sana inund0 st'.
Proof.
  intros Hwf Hec Hdy Hdx [Hb (Hnd & Hin & Hmono)] E.
  destruct (visitar_extiende np_index np_index_dentro dem nivel y x ec dy dx st
              Hwf Hec Hdy Hdx Hb) as (st'' & E' & (Hb' & Hm & Hn)).
  rewrite E in E'. injection E' as <-.
  split; [exact Hb'|]. split; [|split].
  - destruct (visitar_forma dem y x _ dy dx st st' Hb E) as [->|[-> Hdry]];
      [exact Hnd|].
    apply NoDup_app. split; [exact Hnd|]. split; [|apply NoDup_singleton].
    intros c Hc%list_elem_of_In Hc'%list_elem_of_In.
    destruct Hc' as [<-|[]]. apply Hdry. now apply Hin.
  - intros c Hc. apply Hn in Hc as [Hc|[HX Hdry]].
    + destruct (Hin c Hc) as [H1 H2]. split; [apply Hm; now left|exact H2].
    + split; [apply Hm; now right|]. intros H0. apply Hdry. now apply Hmono.
  - intros c Hc. apply Hm. left. now apply Hmono.
Qed.

Lemma procesar_punto_sana dem nivel inund0 st p st' :
  bien_formado dem = true -> en_rango dem p ->
  bueno dem st.1 /\ frontera_sana inund0 st ->
  procesar_punto np_index dem nivel st p = Some st' ->
  bueno dem st'.1 /\ frontera_sana inund0 st'.
Proof.
  intros Hwf Hp Hst E. destruct p as [y x]. unfold procesar_punto in E.
  rewrite (getitem_lee np_index np_index_dentro dem) in E by exact Hp.
  destruct (lee_en_rango dem (y, x) Hwf Hp) as [ec Hec]. rewrite Hec in E.
  refine (para_cada_inv
            (fun st dy => para_cada
               (fun st dx => visitar np_index dem y x (mas_nivel ec nivel) dy dx st)
               [-1; 0; 1] st)
            (fun s => bueno dem s.1 /\ frontera_sana inund0 s)
            [-1; 0; 1] _ st st' Hst E).
  intros s dy s' Hdy Hs Es.
  refine (para_cada_inv
            (fun st dx => visitar np_index dem y x (mas_nivel ec nivel) dy dx st)
            (fun s => bueno dem s.1 /\ frontera_sana inund0 s)
            [-1; 0; 1] _ s s' Hs Es).
  intros s0 dx s0' Hdx Hs0 Es0.
  apply (visitar_sana dem nivel inund0 y x ec dy dx s0 s0'); auto.
  - simpl in Hdy. lia.
  - simpl in Hdx. lia.
Qed.

(** X10: the new frontier a round collects has no repeated cell, and holds
    only cells that were dry when the round started and are flooded when it
    ends: no cell is queued twice, none that was already flooded. *)
Theorem X10_frontera_sin_repetidos dem nivel inund activos inund' nuevos :
  bien_formado dem = true ->
  bueno dem inund ->
  (forall p, In p activos -> en_rango dem p) ->
  para_cada (procesar_punto np_index dem nivel) activos (inund, [])
  = Some (inund', nuevos) ->
  NoDup nuevos
  /\ forall c, In c nuevos -> ~ mojada inund c /\ mojada inund' c.
Proof.
  intros Hwf Hb Hact E.
  assert (bueno dem (inund', nuevos).1 /\ frontera_sana inund (inund', nuevos))
    as [_ (Hnd & Hin & _)].
  { refine (para_cada_inv _
              (fun s => bueno dem s.1 /\ frontera_sana inund s) _ _
              (inund, []) (inund', nuevos) _ E).
    - intros s p s' Hp Hs Es.
      apply (procesar_punto_sana dem nivel inund s p s'); auto.
    - split; [exact Hb|]. split; [apply NoDup_nil_2|].
      split; [intros c []|auto]. }
  split; [exact Hnd|]. intros c Hc. destruct (Hin c Hc). auto.
Qed.

(** ** The simulation loop *)

Lemma eq_escalar_bien_formado a v :
  bien_formado a = true -> bien_formado (eq_escalar a v) = true.
Proof.
  rewrite !bien_formado_spec. simpl. intros [Hl Hf]. split.
  - now rewrite length_map.
  - apply Forall_map. eapply Forall_impl; [exact Hf|].
    intros f Hlen. simpl. now rewrite length_map.
Qed.

Lemma lee_eq_escalar a v c :
  lee (eq_escalar a v) c = (fun w => w =? v) <$> lee a c.
Proof.
  unfold lee. destruct ((0 <=? c.1) && (0 <=? c.2)); [|reflexivity].
  simpl. rewrite list_lookup_fmap.
  destruct (filas a !! Z.to_nat c.1) as [f|]; [|reflexivity].
  simpl. apply list_lookup_fmap.
Qed.

Lemma mascaras_validas_spec dem rio cuenca :
  mascaras_validas dem rio cuenca = true <->
  bien_formado dem = true
  /\ (bien_formado rio = true /\ misma_forma rio dem = true)
  /\ (bien_formado cuenca = true /\ misma_forma cuenca dem = true).
Proof. unfold mascaras_validas. rewrite !andb_true_iff. tauto. Qed.

(** A pass of the loop on masks of the shape of the elevation grid: the
    flooded grid [r] of the flood fill, and its product with the basin
    mask. *)
Lemma simular_nivel_ok dem rio cuenca nivel :
  mascaras_validas dem rio cuenca = true ->
  exists r out,
    simular_nivel dem rio cuenca nivel = Some out
    /\ bueno dem r
    /\ (forall c, mojada r c <->
                  alcanza dem (eq_escalar rio 1) nivel (Z.to_nat 100) c)
    /\ bien_formado out = true
    /\ shape0 out = shape0 dem /\ shape1 out = shape1 dem
    /\ forall c, lee out c =
         va ← lee (astype_uint8 r) c; vb ← lee cuenca c;
         Some ((va * vb) mod 256).
Proof.
  intros (Hwf & (Hwr & Hmr) & (Hwc & Hmc))%mascaras_validas_spec.
  assert (bien_formado (eq_escalar rio 1) = true) as Hws
    by now apply eq_escalar_bien_formado.
  assert (misma_forma (eq_escalar rio 1) dem = true) as Hms by exact Hmr.
  destruct (propagar_inundacion_ok dem (eq_escalar rio 1) nivel 100 Hwf
              (semillas_en_rango dem _ Hws Hms)) as (r & E & Hb & Hr).
  pose proof Hb as (Hbw & Hb0 & Hb1).
  apply misma_forma_spec in Hmc as [Hc0 Hc1].
  destruct (np_mul_uint8_ok (astype_uint8 r) cuenca) as (out & Eo & Hwo & Ho0 & Ho1 & Ho).
  - now apply astype_uint8_bien_formado.
  - exact Hwc.
  - simpl. congruence.
  - simpl. congruence.
  - exists r, out. unfold simular_nivel, extension. rewrite E. simpl.
    split; [exact Eo|]. split; [exact Hb|]. split; [exact Hr|].
    split; [exact Hwo|]. simpl in Ho0, Ho1.
    split; [congruence|]. split; [congruence|exact Ho].
Qed.

(** X11: in a pass of the loop on masks of the shape of the elevation grid,
    the result is confined to the basin, and the river cells (mask value
    exactly 1) inside the basin are flooded at every level. *)
Theorem X11_rio_dentro_de_cuenca dem rio cuenca nivel :
  mascaras_validas dem rio cuenca = true ->
  exists out,
    simular_nivel dem rio cuenca nivel = Some out
    /\ (forall c, inundada out c -> dentro_de cuenca c)
    /\ (forall c v, lee rio c = Some 1 -> lee cuenca c = Some v ->
                    v mod 256 <> 0 -> inundada out c).
Proof.
  intros Hv.
  destruct (simular_nivel_ok dem rio cuenca nivel Hv)
    as (r & out & E & _ & Hr & _ & _ & _ & Ho).
  exists out. split; [exact E|]. split.
  - intros c Hc. apply (inundada_producto r cuenca out c Ho) in Hc
      as (_ & v & Hv1 & Hv2).
    exists v. split; [exact Hv1|]. intros ->. now rewrite Zmod_0_l in Hv2.
  - intros c v Hrio Hcu Hnz. apply (inundada_producto r cuenca out c Ho).
    split; [|eauto]. apply Hr, alcanza_semilla.
    now rewrite lee_eq_escalar, Hrio.
Qed.

(** *** Sums and counts of cells *)

Lemma filas_Forall2 {A B} (P : A -> B -> Prop) (a : ndarray A) (b : ndarray B) :
  bien_formado a = true -> bien_formado b = true ->
  shape0 a = shape0 b -> shape1 a = shape1 b ->
  (forall c va vb, lee a c = Some va -> lee b c = Some vb -> P va vb) ->
  Forall2 (Forall2 P) (filas a) (filas b).
Proof.
  intros [Hla Hfa]%bien_formado_spec [Hlb Hfb]%bien_formado_spec H0 H1 HP.
  apply Forall2_same_length_lookup_2; [congruence|].
  intros i f g Hf Hg.
  apply Forall2_same_length_lookup_2.
  - rewrite (Forall_lookup_1 _ _ _ _ Hfa Hf), (Forall_lookup_1 _ _ _ _ Hfb Hg).
    exact H1.
  - intros j va vb Hva Hvb. apply (HP (Z.of_nat i, Z.of_nat j)).
    + unfold lee. simpl.
      rewrite !(proj2 (Z.leb_le _ _)) by lia. simpl.
      now rewrite !Nat2Z.id, Hf.
    + unfold lee. simpl.
      rewrite !(proj2 (Z.leb_le _ _)) by lia. simpl.
      now rewrite !Nat2Z.id, Hg.
Qed.

Lemma filas_Forall {A} (P : A -> Prop) (a : ndarray A) :
  (forall c v, lee a c = Some v -> P v) -> Forall (Forall P) (filas a).
Proof.
  intros HP. apply Forall_lookup. intros i f Hf.
  apply Forall_lookup. intros j v Hv.
  apply (HP (Z.of_nat i, Z.of_nat j)). unfold lee. simpl.
  rewrite !(proj2 (Z.leb_le _ _)) by lia. simpl.
  now rewrite !Nat2Z.id, Hf.
Qed.

Lemma fold_suma_app l k :
  fold_right Z.add 0 (l ++ k) = fold_right Z.add 0 l + fold_right Z.add 0 k.
Proof. induction l as [|v l IH]; simpl; lia. Qed.

Lemma suma_le a b :
  bien_formado a = true -> bien_formado b = true ->
  shape0 a = shape0 b -> shape1 a = shape1 b ->
  (forall c va vb, lee a c = Some va -> lee b c = Some vb -> va <= vb) ->
  suma a <= suma b.
Proof.
  intros Hwa Hwb H0 H1 HP. unfold suma.
  pose proof (filas_Forall2 Z.le a b Hwa Hwb H0 H1 HP) as HF.
  induction HF as [|f g fs gs Hfg _ IH]; simpl; [lia|].
  rewrite !fold_suma_app.
  assert (fold_right Z.add 0 f <= fold_right Z.add 0 g)
    by (clear -Hfg; induction Hfg; simpl; lia).
  lia.
Qed.

Lemma suma_cota a :
  bien_formado a = true ->
  (forall c v, lee a c = Some v -> 0 <= v <= 255) ->
  0 <= suma a <= 255 * Z.of_nat (shape0 a * shape1 a).
Proof.
  intros [Hl Hf]%bien_formado_spec HP. unfold suma.
  pose proof (filas_Forall _ a HP) as HF.
  rewrite <- Hl. clear Hl HP.
  induction HF as [|f fs Hb _ IH]; simpl; [lia|].
  apply Forall_cons in Hf as [Hlen Hf]. specialize (IH Hf).
  rewrite fold_suma_app.
  assert (0 <= fold_right Z.add 0 f <= 255 * Z.of_nat (length f))
    by (clear -Hb; induction Hb; simpl length; simpl fold_right; lia).
  rewrite Hlen in *. lia.
Qed.

Lemma suma_no_nulas a :
  (forall c v, lee a c = Some v -> v = 0 \/ v = 1) ->
  suma a = Z.of_nat (no_nulas a).
Proof.
  intros HP. unfold suma, no_nulas.
  assert (Forall (fun v => v = 0 \/ v = 1) (concat (filas a))) as HF
    by (apply Forall_concat, filas_Forall; exact HP).
  induction HF as [|v l [-> | ->] _ IH]; simpl; [reflexivity| |]; lia.
Qed.

Lemma np_sum_uint8_suma a :
  bien_formado a = true ->
  (forall c v, lee a c = Some v -> 0 <= v <= 255) ->
  255 * Z.of_nat (shape0 a * shape1 a) < 2 ^ 64 ->
  np_sum_uint8 a = suma a.
Proof.
  intros Hw HP Hsz. unfold np_sum_uint8. fold (suma a).
  pose proof (suma_cota a Hw HP). apply Z.mod_small. lia.
Qed.

(** Cells of a product with a 0/1 left factor. *)
Lemma producto_celda r cuenca out c v :
  (forall c, lee out c =
     va ← lee (astype_uint8 r) c; vb ← lee cuenca c; Some ((va * vb) mod 256)) ->
  lee out c = Some v ->
  exists (b : bool) vm, lee r c = Some b /\ lee cuenca c = Some vm
    /\ v = if b then vm mod 256 else 0.
Proof.
  intros Ho Hv. rewrite Ho, lee_astype_uint8 in Hv.
  destruct (lee r c) as [b|]; [|discriminate]. simpl in Hv.
  destruct (lee cuenca c) as [vm|]; [|discriminate]. simpl in Hv.
  injection Hv as <-. exists b, vm. repeat split.
  destruct b; [now replace (1 * vm) with vm by lia|].
  now rewrite Z.mul_0_l, Zmod_0_l.
Qed.

Lemma producto_cota r cuenca out c v :
  (forall c, lee out c =
     va ← lee (astype_uint8 r) c; vb ← lee cuenca c; Some ((va * vb) mod 256)) ->
  lee out c = Some v -> 0 <= v <= 255.
Proof.
  intros Ho Hv.
  destruct (producto_celda r cuenca out c v Ho Hv) as ([|] & vm & _ & _ & ->);
    [|lia].
  pose proof (Z.mod_pos_bound vm 256). lia.
Qed.

(** *** The log *)

Lemma paso6_cuerpo_eq dem rio cuenca t0 t4 acc nivel :
  paso6_cuerpo dem rio cuenca t0 t4 acc nivel
  = match simular_nivel dem rio cuenca nivel with
    | Some out => Some (acc ++ [registro_de t0 t4 nivel out])
    | None => None
    end.
Proof.
  unfold paso6_cuerpo.
  destruct (simular_nivel dem rio cuenca nivel); reflexivity.
Qed.

Lemma paso6_paso dem rio cuenca t0 t4 nivel niveles acc :
  para_cada (paso6_cuerpo dem rio cuenca t0 t4) (nivel :: niveles) acc
  = match simular_nivel dem rio cuenca nivel with
    | Some out =>
        para_cada (paso6_cuerpo dem rio cuenca t0 t4) niveles
                  (acc ++ [registro_de t0 t4 nivel out])
    | None => None
    end.
Proof.
  cbn [para_cada]. rewrite paso6_cuerpo_eq.
  destruct (simular_nivel dem rio cuenca nivel); reflexivity.
Qed.

Lemma paso6_desde dem rio cuenca t0 t4 niveles : forall acc log,
  para_cada (paso6_cuerpo dem rio cuenca t0 t4) niveles acc = Some log ->
  exists regs, log = acc ++ regs
    /\ Forall2 (fun nivel r => exists out,
                  simular_nivel dem rio cuenca nivel = Some out
                  /\ r = registro_de t0 t4 nivel out) niveles regs.
Proof.
  induction niveles as [|nivel niveles IH]; intros acc log E.
  - simpl in E. injection E as <-. exists [].
    split; [now rewrite app_nil_r|constructor].
  - rewrite paso6_paso in E.
    destruct (simular_nivel dem rio cuenca nivel) as [out|] eqn:Es;
      [|discriminate].
    destruct (IH _ _ E) as (regs & -> & HF).
    exists (registro_de t0 t4 nivel out :: regs). split.
    + now rewrite <- app_assoc.
    + constructor; [|exact HF]. exists out. split; [exact Es|reflexivity].
Qed.

Lemma paso6_total dem rio cuenca t0 t4 niveles : forall acc,
  mascaras_validas dem rio cuenca = true ->
  exists log, para_cada (paso6_cuerpo dem rio cuenca t0 t4) niveles acc = Some log.
Proof.
  induction niveles as [|nivel niveles IH]; intros acc Hv.
  - simpl. eauto.
  - rewrite paso6_paso.
    destruct (simular_nivel_ok dem rio cuenca nivel Hv) as (r & out & E & _).
    rewrite E. apply IH. exact Hv.
Qed.

Lemma paso6_registros dem rio cuenca t0 t4 niveles log :
  paso6 dem rio cuenca t0 t4 niveles = Some log ->
  Forall2 (fun nivel r => exists out,
             simular_nivel dem rio cuenca nivel = Some out
             /\ r = registro_de t0 t4 nivel out) niveles log.
Proof.
  intros E. apply paso6_desde in E as (regs & -> & HF). exact HF.
Qed.

(** The logged area grows with the pixel count. *)
Lemma area_km2_de_mono n m t0 t4 :
  n <= m -> (area_km2_de n t0 t4 <= area_km2_de m t0 t4)%Q.
Proof.
  intros H. unfold area_km2_de. apply float64_monotona.
  unfold Qdiv. apply Qmult_le_compat_r; [|unfold Qle; simpl; lia].
  apply float64_monotona.
  apply Qmult_le_compat_r; [|apply Qabs_nonneg].
  apply float64_monotona. now rewrite <- Zle_Qle.
Qed.

Lemma paso6_In dem rio cuenca t0 t4 niveles log r :
  paso6 dem rio cuenca t0 t4 niveles = Some log -> In r log ->
  exists out, simular_nivel dem rio cuenca (Nivel_m r) = Some out
    /\ Pixeles r = np_sum_uint8 out
    /\ Area_km2 r = area_km2_de (np_sum_uint8 out) t0 t4.
Proof.
  intros E Hr. apply paso6_registros in E.
  apply list_elem_of_In, list_elem_of_lookup in Hr as [i Hi].
  destruct (Forall2_lookup_r _ _ _ _ _ E Hi) as (nivel & _ & out & Es & ->).
  exists out. simpl. auto.
Qed.

(** X12: on masks of the shape of the elevation grid the loop over the
    levels completes and logs one entry per level, in the order of the
    levels; and when the basin mask holds only 0 and 1 (and the sum cannot
    wrap), [Pixeles] is the number of flooded cells of that level. *)
Theorem X12_registro_por_nivel dem rio cuenca t0 t4 niveles :
  mascaras_validas dem rio cuenca = true ->
  exists log,
    paso6 dem rio cuenca t0 t4 niveles = Some log
    /\ map Nivel_m log = niveles
    /\ (es_binaria cuenca = true ->
        255 * Z.of_nat (shape0 dem * shape1 dem) < 2 ^ 64 ->
        Forall2 (fun nivel r => exists out,
                   simular_nivel dem rio cuenca nivel = Some out
                   /\ Pixeles r = Z.of_nat (no_nulas out)) niveles log).
Proof.
  intros Hv.
  destruct (paso6_total dem rio cuenca t0 t4 niveles [] Hv) as (log & E).
  exists log. split; [exact E|].
  pose proof (paso6_registros _ _ _ _ _ _ _ E) as HF. split.
  - clear E. induction HF as [|nivel r niveles log (out & _ & ->) _ IH];
      simpl; [reflexivity|]. now rewrite IH.
  - intros Hbin Hsz. eapply Forall2_impl; [exact HF|].
    intros nivel r (out & Es & ->). exists out. split; [exact Es|]. simpl.
    destruct (simular_nivel_ok dem rio cuenca nivel Hv)
      as (r0 & out0 & E0 & _ & _ & Hwo & Ho0 & Ho1 & Ho).
    rewrite Es in E0. injection E0 as <-.
    rewrite np_sum_uint8_suma; [|exact Hwo| |now rewrite Ho0, Ho1].
    + apply suma_no_nulas. intros c v Hc.
      destruct (producto_celda r0 cuenca out c v Ho Hc)
        as ([|] & vm & _ & Hvm & ->); [|now left].
      unfold es_binaria in Hbin.
      assert (Forall (Forall (fun v => (v =? 0) || (v =? 1) = true))
                     (filas cuenca)) as HB.
      { apply Forall_forall. intros f Hf%list_elem_of_In.
        rewrite forallb_forall in Hbin. specialize (Hbin f Hf).
        apply Forall_forall. intros w Hw%list_elem_of_In.
        rewrite forallb_forall in Hbin. now apply Hbin. }
      unfold lee in Hvm.
      destruct ((0 <=? c.1) && (0 <=? c.2)); [|discriminate].
      destruct (filas cuenca !! Z.to_nat c.1) as [f|] eqn:Hf; [|discriminate].
      simpl in Hvm.
      pose proof (Forall_lookup_1 _ _ _ _ (Forall_lookup_1 _ _ _ _ HB Hf) Hvm)
        as Hb.
      apply orb_true_iff in Hb as [->%Z.eqb_eq | ->%Z.eqb_eq]; auto.
    + intros c v Hc. eapply producto_cota; eauto.
Qed.

(** The extents of two levels in order, cell by cell. *)
Lemma simular_nivel_le dem rio cuenca l1 l2 out1 out2 :
  monotona fl ->
  mascaras_validas dem rio cuenca = true ->
  (l1 <= l2)%Q ->
  simular_nivel dem rio cuenca l1 = Some out1 ->
  simular_nivel dem rio cuenca l2 = Some out2 ->
  suma out1 <= suma out2.
Proof.
  intros fl_mono Hv Hl E1 E2.
  destruct (simular_nivel_ok dem rio cuenca l1 Hv)
    as (r1 & o1 & E1' & _ & Hr1 & Hw1 & H10 & H11 & Ho1).
  destruct (simular_nivel_ok dem rio cuenca l2 Hv)
    as (r2 & o2 & E2' & _ & Hr2 & Hw2 & H20 & H21 & Ho2).
  rewrite E1 in E1'. injection E1' as <-.
  rewrite E2 in E2'. injection E2' as <-.
  apply suma_le; try congruence.
  intros c v1 v2 Hv1 Hv2.
  destruct (producto_celda r1 cuenca out1 c v1 Ho1 Hv1)
    as (b1 & vm & Hb1 & Hvm & ->).
  destruct (producto_celda r2 cuenca out2 c v2 Ho2 Hv2)
    as (b2 & vm' & Hb2 & Hvm' & ->).
  rewrite Hvm in Hvm'. injection Hvm' as <-.
  pose proof (Z.mod_pos_bound vm 256).
  destruct b1; [|destruct b2; lia].
  assert (mojada r2 c) as Hm
    by (apply Hr2; apply alcanza_nivel with l1;
        [exact fl_mono|exact Hl|now apply Hr1]).
  unfold mojada in Hm. rewrite Hb2 in Hm. injection Hm as ->. lia.
Qed.

Lemma simular_nivel_np_sum dem rio cuenca nivel out :
  mascaras_validas dem rio cuenca = true ->
  255 * Z.of_nat (shape0 dem * shape1 dem) < 2 ^ 64 ->
  simular_nivel dem rio cuenca nivel = Some out ->
  np_sum_uint8 out = suma out.
Proof.
  intros Hv Hsz E.
  destruct (simular_nivel_ok dem rio cuenca nivel Hv)
    as (r & o & E' & _ & _ & Hw & H0 & H1 & Ho).
  rewrite E in E'. injection E' as <-.
  apply np_sum_uint8_suma; [exact Hw| |now rewrite H0, H1].
  intros c v Hc. eapply producto_cota; eauto.
Qed.

(** X13: in the log, a higher level never has a smaller pixel count or a
    smaller area (as long as the sum cannot wrap, and for a monotone
    rounding). *)
Theorem X13_pixeles_crecen dem rio cuenca t0 t4 niveles log r r' :
  monotona fl ->
  mascaras_validas dem rio cuenca = true ->
  255 * Z.of_nat (shape0 dem * shape1 dem) < 2 ^ 64 ->
  paso6 dem rio cuenca t0 t4 niveles = Some log ->
  In r log -> In r' log ->
  (Nivel_m r <= Nivel_m r')%Q ->
  Pixeles r <= Pixeles r' /\ (Area_km2 r <= Area_km2 r')%Q.
Proof.
  intros fl_mono Hv Hsz E Hr Hr' Hl.
  destruct (paso6_In _ _ _ _ _ _ _ _ E Hr) as (out & Es & -> & ->).
  destruct (paso6_In _ _ _ _ _ _ _ _ E Hr') as (out' & Es' & -> & ->).
  assert (np_sum_uint8 out <= np_sum_uint8 out') as Hp.
  { rewrite (simular_nivel_np_sum _ _ _ _ _ Hv Hsz Es),
      (simular_nivel_np_sum _ _ _ _ _ Hv Hsz Es').
    eapply simular_nivel_le; eauto. }
  split; [exact Hp|]. now apply area_km2_de_mono.
Qed.

Lemma es_uint8_lee a c v :
  es_uint8 a = true -> lee a c = Some v -> 0 <= v <= 255.
Proof.
  unfold es_uint8, lee. intros Hu H.
  destruct ((0 <=? c.1) && (0 <=? c.2)); [|discriminate].
  destruct (filas a !! Z.to_nat c.1) as [f|] eqn:Hf; [|discriminate].
  simpl in H. rewrite forallb_forall in Hu.
  assert (forallb (fun v => (0 <=? v) && (v <? 256)) f = true) as Hrow.
  { apply Hu. apply list_elem_of_In, list_elem_of_lookup. eauto. }
  rewrite forallb_forall in Hrow.
  assert ((0 <=? v) && (v <? 256) = true) as Hb.
  { apply Hrow. apply list_elem_of_In, list_elem_of_lookup. eauto. }
  apply andb_true_iff in Hb as [H1%Z.leb_le H2%Z.ltb_lt]. lia.
Qed.

(** X14: every pixel count of the log lies between the count of the river
    cells inside the basin (the extent with no round at all) and the sum of
    the basin mask. *)
Theorem X14_pixeles_acotados dem rio cuenca t0 t4 niveles log r :
  mascaras_validas dem rio cuenca = true ->
  es_uint8 cuenca = true ->
  255 * Z.of_nat (shape0 dem * shape1 dem) < 2 ^ 64 ->
  paso6 dem rio cuenca t0 t4 niveles = Some log ->
  In r log ->
  exists base,
    np_mul_uint8 (astype_uint8 (eq_escalar rio 1)) cuenca = Some base
    /\ np_sum_uint8 base <= Pixeles r <= np_sum_uint8 cuenca.
Proof.
  intros Hv Hu Hsz E Hr.
  pose proof Hv as (Hwf & (Hwr & Hmr) & (Hwc & Hmc))%mascaras_validas_spec.
  apply misma_forma_spec in Hmr as [Hr0 Hr1].
  apply misma_forma_spec in Hmc as [Hc0 Hc1].
  destruct (paso6_In _ _ _ _ _ _ _ _ E Hr) as (out & Es & -> & _).
  destruct (simular_nivel_ok dem rio cuenca (Nivel_m r) Hv)
    as (r0 & o & E' & _ & Hr0' & Hwo & Ho0 & Ho1 & Ho).
  rewrite Es in E'. injection E' as <-.
  destruct (np_mul_uint8_ok (astype_uint8 (eq_escalar rio 1)) cuenca)
    as (base & Eb & Hwb & Hb0 & Hb1 & Hb).
  - apply astype_uint8_bien_formado. now apply eq_escalar_bien_formado.
  - exact Hwc.
  - simpl. congruence.
  - simpl. congruence.
  - simpl in Hb0, Hb1. exists base. split; [exact Eb|].
    rewrite (simular_nivel_np_sum _ _ _ _ _ Hv Hsz Es).
    rewrite (np_sum_uint8_suma base), (np_sum_uint8_suma cuenca);
      try assumption.
    + split.
      * apply suma_le; try congruence.
        intros c v1 v2 Hv1 Hv2.
        destruct (producto_celda _ cuenca base c v1 Hb Hv1)
          as (b1 & vm & Hb1' & Hvm & ->).
        destruct (producto_celda r0 cuenca out c v2 Ho Hv2)
          as (b2 & vm' & Hb2 & Hvm' & ->).
        rewrite Hvm in Hvm'. injection Hvm' as <-.
        pose proof (Z.mod_pos_bound vm 256).
        destruct b1; [|destruct b2; lia].
        assert (mojada r0 c) as Hm by (apply Hr0'; now apply alcanza_semilla).
        unfold mojada in Hm. rewrite Hb2 in Hm. injection Hm as ->. lia.
      * apply suma_le; try congruence.
        intros c v1 v2 Hv1 Hv2.
        destruct (producto_celda r0 cuenca out c v1 Ho Hv1)
          as (b1 & vm & _ & Hvm & ->).
        rewrite Hvm in Hv2. injection Hv2 as ->.
        pose proof (es_uint8_lee cuenca c v2 Hu Hvm).
        destruct b1; [rewrite Z.mod_small|]; lia.
    + intros c v Hc. eapply es_uint8_lee; eauto.
    + now rewrite Hc0, Hc1.
    + intros c v Hc. eapply producto_cota; eauto.
    + now rewrite Hb0, Hb1, Hr0, Hr1.
Qed.

(** ** How runs of the flood fill compose *)

(** Two runs, possibly from different seeds, return the same grid exactly
    when they reach the same cells. *)
Lemma propagar_igual_semillas dem sem sem' nivel nivel' pasos pasos' :
  entrada_valida dem sem None = true ->
  entrada_valida dem sem' None = true ->
  (forall c, alcanza dem sem nivel (Z.to_nat pasos) c
             <-> alcanza dem sem' nivel' (Z.to_nat pasos') c) ->
  propagar_inundacion dem sem nivel pasos
  = propagar_inundacion dem sem' nivel' pasos'.
Proof.
  intros Hv Hv' H.
  pose proof Hv as (Hwf & Hws & Hms & _)%entrada_valida_spec.
  pose proof Hv' as (_ & Hws' & Hms' & _)%entrada_valida_spec.
  destruct (propagar_inundacion_ok dem sem nivel pasos Hwf
              (semillas_en_rango dem sem Hws Hms)) as (r & E & Hb & Hr).
  destruct (propagar_inundacion_ok dem sem' nivel' pasos' Hwf
              (semillas_en_rango dem sem' Hws' Hms')) as (r' & E' & Hb' & Hr').
  rewrite E, E'. do 2 f_equal. apply (bueno_ext dem); auto.
  intros c. now rewrite Hr, Hr', H.
Qed.

Lemma alcanza_union dem sem1 sem2 sem nivel k c :
  (forall c, lee sem c = Some true <->
             lee sem1 c = Some true \/ lee sem2 c = Some true) ->
  alcanza dem sem nivel k c <->
  alcanza dem sem1 nivel k c \/ alcanza dem sem2 nivel k c.
Proof.
  intros Hu. split.
  - intros H. induction H as [k c Hs|k c n Hc [IH|IH] Hp].
    + apply Hu in Hs as [Hs|Hs]; [left|right]; now apply alcanza_semilla.
    + left. eapply alcanza_paso; eauto.
    + right. eapply alcanza_paso; eauto.
  - intros [H|H]; (eapply alcanza_semillas; [|exact H]);
      intros c0 Hc0; apply Hu; auto.
Qed.

(** X15: the flood from the union of two seed masks is the union of the
    floods from each of them. *)
Theorem X15_union_de_semillas dem sem1 sem2 sem nivel pasos :
  entrada_valida dem sem1 None = true ->
  entrada_valida dem sem2 None = true ->
  entrada_valida dem sem None = true ->
  (forall c, lee sem c = Some true <->
             lee sem1 c = Some true \/ lee sem2 c = Some true) ->
  exists out1 out2 out,
    propagar_inundacion dem sem1 nivel pasos = Some out1
    /\ propagar_inundacion dem sem2 nivel pasos = Some out2
    /\ propagar_inundacion dem sem nivel pasos = Some out
    /\ forall c, inundada out c <-> inundada out1 c \/ inundada out2 c.
Proof.
  intros Hv1 Hv2 Hv Hu.
  destruct (propagar_alcanza dem sem1 nivel pasos Hv1) as (out1 & E1 & Ho1).
  destruct (propagar_alcanza dem sem2 nivel pasos Hv2) as (out2 & E2 & Ho2).
  destruct (propagar_alcanza dem sem nivel pasos Hv) as (out & E & Ho).
  exists out1, out2, out. repeat (split; [assumption|]).
  intros c. rewrite Ho, Ho1, Ho2. now apply alcanza_union.
Qed.

Lemma lee_semilla_centro c : lee semilla_centro c = Some true -> c = (2, 2).
Proof.
  intros H.
  pose proof (lee_Some_en_rango semilla_centro c true eq_refl H) as [Hy Hx].
  destruct c as [y x]. simpl in *.
  assert (y = 0 \/ y = 1 \/ y = 2 \/ y = 3 \/ y = 4) as Hy' by lia.
  assert (x = 0 \/ x = 1 \/ x = 2 \/ x = 3 \/ x = 4) as Hx' by lia.
  destruct Hy' as [->|[->|[->|[->| ->]]]];
    destruct Hx' as [->|[->|[->|[->| ->]]]];
    vm_compute in H; try discriminate; reflexivity.
Qed.

Lemma lee_semillas_dos c :
  lee semillas_dos c = Some true -> c = (2, 0) \/ c = (2, 2).
Proof.
  intros H.
  pose proof (lee_Some_en_rango semillas_dos c true eq_refl H) as [Hy Hx].
  destruct c as [y x]. simpl in *.
  assert (y = 0 \/ y = 1 \/ y = 2 \/ y = 3 \/ y = 4) as Hy' by lia.
  assert (x = 0 \/ x = 1 \/ x = 2 \/ x = 3 \/ x = 4) as Hx' by lia.
  destruct Hy' as [->|[->|[->|[->| ->]]]];
    destruct Hx' as [->|[->|[->|[->| ->]]]];
    vm_compute in H; try discriminate; auto.
Qed.

Lemma alcanza_compone dem sem sem' nivel a b c :
  (forall c, lee sem' c = Some true <-> alcanza dem sem nivel a c) ->
  alcanza dem sem' nivel b c <-> alcanza dem sem nivel (a + b) c.
Proof.
  intros Hs. split.
  - intros H. induction H as [k c Hc|k c n Hc IH Hp].
    + apply Hs in Hc. eapply alcanza_mono; [exact Hc|lia].
    + replace (a + S k)%nat with (S (a + k)) by lia.
      eapply alcanza_paso; eauto.
  - revert c. induction b as [|b IH]; intros c H.
    + rewrite Nat.add_0_r in H. now apply alcanza_semilla, Hs.
    + replace (a + S b)%nat with (S (a + b)) in H by lia.
      apply alcanza_S in H as [H|(c0 & Hc0 & Hp)].
      * eapply alcanza_mono; [apply IH, H|lia].
      * eapply alcanza_paso; [apply IH, Hc0|exact Hp].
Qed.

(** X16: rounds compose: running [b] rounds from the cells a run of [a]
    rounds flooded (its result compared with 1, as the script compares the
    river mask) returns what one run of [a + b] rounds returns. *)
Theorem X16_rondas_componen dem sem nivel a b :
  entrada_valida dem sem None = true ->
  0 <= a -> 0 <= b ->
  exists out,
    propagar_inundacion dem sem nivel a = Some out
    /\ propagar_inundacion dem (eq_escalar out 1) nivel b
       = propagar_inundacion dem sem nivel (a + b).
Proof.
  intros Hv Ha Hb.
  pose proof Hv as (Hwf & Hws & Hms & _)%entrada_valida_spec.
  destruct (extension_ok dem sem None nivel a Hv)
    as (r & out & E & (Hbw & Hb0 & Hb1) & Hr & _ & _).
  exists (astype_uint8 r). split; [exact E|].
  assert (forall c, lee (eq_escalar (astype_uint8 r) 1) c = Some true
                    <-> alcanza dem sem nivel (Z.to_nat a) c) as Hs.
  { intros c. rewrite <- Hr, lee_eq_escalar, lee_astype_uint8. unfold mojada.
    destruct (lee r c) as [[|]|]; simpl; split; congruence. }
  apply propagar_igual_semillas; [|exact Hv|].
  - apply entrada_valida_spec. split; [exact Hwf|]. split; [|split; [|exact I]].
    + now apply eq_escalar_bien_formado, astype_uint8_bien_formado.
    + apply misma_forma_spec. simpl. auto.
  - intros c. replace (Z.to_nat (a + b)) with (Z.to_nat a + Z.to_nat b)%nat
      by lia.
    now apply alcanza_compone.
Qed.

(** X17: when one more round changes nothing, the flood is closed under
    the admission rule: no flooded cell has an admissible neighbour that is
    dry. *)
Theorem X17_cerrada_en_el_punto_fijo dem sem nivel k out c n :
  entrada_valida dem sem None = true ->
  0 <= k ->
  propagar_inundacion dem sem nivel (k + 1) = propagar_inundacion dem sem nivel k ->
  propagar_inundacion dem sem nivel k = Some out ->
  inundada out c -> paso dem nivel c n -> inundada out n.
Proof.
  intros Hv Hk Heq E Hc Hp.
  destruct (propagar_alcanza dem sem nivel k Hv) as (o & E' & Ho).
  rewrite E in E'. injection E' as <-.
  pose proof (proj2 (propagar_igual dem sem nivel nivel (k + 1) k Hv) Heq) as Hcl.
  apply Ho, Hcl. replace (Z.to_nat (k + 1)) with (S (Z.to_nat k)) by lia.
  eapply alcanza_paso; [apply Ho, Hc|exact Hp].
Qed.

End Formato.

(** ** Rounding at work *)

(** In binary32 the head 1024.5 - 2^-14 rounds up to 1024.5, and the cell of
    elevation 1024.5 is flooded; in exact arithmetic it stays dry. *)
Lemma redondeo_decide :
  propagar_inundacion float32 dem_redondeo semilla_izquierda (1 # 2) 1
  = Some (NdArray 1 2 [[1; 1]])
  /\ propagar_inundacion exacto dem_redondeo semilla_izquierda (1 # 2) 1
     = Some (NdArray 1 2 [[1; 0]]).
Proof. split; vm_compute; reflexivity. Qed.

(** In binary64, at level -(1 + 2^-52) the head of the cell of elevation
    1000 rounds to 999: the cell one metre lower is flooded, below
    level -1.0. *)
Lemma redondeo_nivel_bajo :
  propagar_inundacion float64 dem_escalon semilla_izquierda
    (- (1 + (1 # 4503599627370496))) 1
  = Some (NdArray 1 2 [[1; 1]]).
Proof. vm_compute. reflexivity. Qed.

(** ** The properties at concrete inputs, in binary64 and binary32 *)

(** On the barrier scenario, restricted to the two leftmost columns. *)
Lemma C1_witness :
  entrada_valida dem_barrera semilla_2_0 (Some cuenca_izquierda) = true
  /\ exists out,
       extension float64 dem_barrera semilla_2_0 (Some cuenca_izquierda) 1 10
       = Some out
       /\ forall c, inundada out c ->
            (exists k, (k <= 10)%nat
                       /\ ronda float64 dem_barrera semilla_2_0 1 k c)
            /\ dentro_de cuenca_izquierda c.
Proof.
  split; [reflexivity|].
  exact (C1_extension_alcanzable float64 dem_barrera semilla_2_0
           (Some cuenca_izquierda) 1 10 eq_refl).
Defined.

(** Levels 0.5 and 1.0 on the barrier scenario. *)
Lemma C2_witness :
  entrada_valida dem_barrera semilla_2_0 (Some cuenca_izquierda) = true
  /\ ((1 # 2) < 1)%Q
  /\ exists out1 out2,
       extension float64 dem_barrera semilla_2_0 (Some cuenca_izquierda) (1 # 2) 10
       = Some out1
       /\ extension float64 dem_barrera semilla_2_0 (Some cuenca_izquierda) 1 10
          = Some out2
       /\ forall c, inundada out1 c -> inundada out2 c.
Proof.
  split; [reflexivity|]. split; [reflexivity|].
  apply (C2_monotonia_nivel float64 dem_barrera semilla_2_0
           (Some cuenca_izquierda) (1 # 2) 1 10 float64_monotona);
    reflexivity.
Defined.

(** Every round walks its frontier backwards. *)
Lemma C3_witness :
  entrada_valida dem_barrera semilla_2_0 None = true
  /\ exists out,
       propagar_inundacion float64 dem_barrera semilla_2_0 1 10 = Some out
       /\ propagar_con float64 np_index (fun _ l => rev l)
            dem_barrera semilla_2_0 1 10 = Some out.
Proof.
  split; [reflexivity|].
  apply (C3_orden_indiferente float64 dem_barrera semilla_2_0 1 10
           (fun _ l => rev l)).
  - reflexivity.
  - intros k l. apply Permutation_sym, Permutation_rev.
Defined.

(** A 2x2 seed mask whose seed (1, 1) is outside a 1x1 elevation grid. *)
Lemma C4_witness :
  bien_formado dem_1x1 = true
  /\ extension float64 dem_1x1 semilla_2x2 None 1 10 = None
  /\ marcar_semillas np_index dem_1x1 (np_where semilla_2x2) = None.
Proof.
  split; [reflexivity|].
  destruct (C4_sin_validacion float64 dem_1x1 semilla_2x2 None 1 10 eq_refl)
    as (H1 & H2 & _).
  assert (exists c, lee semilla_2x2 c = Some true /\ ~ en_rango dem_1x1 c)
    as Hc.
  { exists (1, 1). split; [reflexivity|]. unfold en_rango. simpl. lia. }
  split; [apply H1; now left|apply H2; exact Hc].
Defined.

(** A 1x1 seed mask on a 1x2 elevation grid, level -1 and no round: the
    call returns a grid. *)
Lemma C4_contraejemplo :
  ~ (forall dem sem cont nivel pasos,
       configuracion_invalida dem sem cont nivel pasos ->
       extension float64 dem sem cont nivel pasos = None).
Proof.
  intros H.
  assert (extension float64 dem_1x2 semilla_1x1 None (-1) 0 = None) as E.
  { apply H. left. reflexivity. }
  vm_compute in E. discriminate.
Qed.

(** The barrier scenario converges within 10 rounds. *)
Lemma C5_witness :
  entrada_valida dem_barrera semilla_2_0 None = true
  /\ propagar_reusando float64 dem_barrera semilla_2_0 (1 # 2) 1 10
     = propagar_inundacion float64 dem_barrera semilla_2_0 1 10.
Proof.
  split; [reflexivity|].
  apply (C5_reutilizar_si_converge float64 dem_barrera semilla_2_0
           (1 # 2) 1 10 float64_monotona).
  - reflexivity.
  - reflexivity.
  - lia.
  - vm_compute. reflexivity.
Defined.

(** On the flat strip, with the script's budget of 100 rounds, cell
    (0, 150) is flooded with the reused seeds and dry without them. *)
Lemma C5_contraejemplo :
  ~ (forall dem sem l1 l2 pasos,
       entrada_valida dem sem None = true -> (l1 < l2)%Q ->
       propagar_reusando float64 dem sem l1 l2 pasos
       = propagar_inundacion float64 dem sem l2 pasos).
Proof.
  intros H.
  specialize (H franja semilla_franja 1%Q 2%Q 100 eq_refl eq_refl).
  apply (f_equal (fun o => a ← o; lee a (0, 150))) in H.
  vm_compute in H. discriminate.
Qed.

(** No round on the barrier scenario. *)
Lemma C6_witness :
  entrada_valida dem_barrera semilla_2_0 (Some cuenca_izquierda) = true
  /\ exists out,
       extension float64 dem_barrera semilla_2_0 (Some cuenca_izquierda) 1 0
       = Some out
       /\ forall c, inundada out c <->
            lee semilla_2_0 c = Some true
            /\ exists v, lee cuenca_izquierda c = Some v /\ v mod 256 <> 0.
Proof.
  split; [reflexivity|].
  exact (C6_sin_rondas float64 dem_barrera semilla_2_0 (Some cuenca_izquierda)
           1 eq_refl).
Defined.

(** Cells (2, 3) and (2, 4) after 100 rounds, in binary64. *)
Lemma C7_witness :
  representable float64 0 /\ representable float64 1
  /\ exists out,
       propagar_inundacion float64 dem_barrera semilla_2_0 1 100 = Some out
       /\ ~ inundada out (2, 3) /\ ~ inundada out (2, 4).
Proof.
  split; [reflexivity|]. split; [reflexivity|].
  destruct (proj1 (C7_barrera_columna_3 float64 float64_monotona
                     eq_refl eq_refl) 100) as (out & E & H).
  exists out. split; [exact E|]. split; apply H; lia.
Defined.

(** The seed (2, 0) of the barrier scenario lies on the left edge. *)
Lemma C8_witness :
  entrada_valida dem_barrera semilla_2_0 None = true
  /\ exists out,
       propagar_inundacion float64 dem_barrera semilla_2_0 1 10 = Some out
       /\ propagar_con float64 strict_index (fun _ l => l) dem_barrera semilla_2_0 1 10
          = Some out
       /\ forall c, inundada out c -> en_rango dem_barrera c.
Proof.
  split; [reflexivity|].
  exact (C8_dentro_de_la_rejilla float64 dem_barrera semilla_2_0 1 10 eq_refl).
Defined.

(** Both input grids of the example store after the call. *)
Lemma C9_witness :
  (extension_ref float64 1 2 None 1 10 almacen_ejemplo).1 !! 1%positive
  = Some (ArrFloat dem_barrera)
  /\ (extension_ref float64 1 2 None 1 10 almacen_ejemplo).1 !! 2%positive
     = Some (ArrBool semilla_2_0).
Proof.
  split.
  - apply (proj1 (C9_entradas_intactas float64 almacen_ejemplo 1 2 None 1 10)).
    reflexivity.
  - apply (proj1 (C9_entradas_intactas float64 almacen_ejemplo 1 2 None 1 10)).
    reflexivity.
Defined.

(** A negative level on the barrier scenario. *)
Lemma C10_witness :
  bien_formado dem_barrera = true
  /\ forall out,
       propagar_inundacion float64 dem_barrera semilla_2_0 (-5) 10 = Some out ->
       lee out (2, 0) = Some 1.
Proof.
  split; [reflexivity|]. intros out E.
  apply (proj2 (C10_semillas_siempre float64 dem_barrera semilla_2_0 (-5) 10 eq_refl)
           out E (2, 0)).
  reflexivity.
Defined.

(** The two cells that rounding brings together, in binary32. *)
Lemma X1_witness :
  entrada_valida dem_redondeo semilla_izquierda None = true
  /\ exists out,
       propagar_inundacion float32 dem_redondeo semilla_izquierda (1 # 2) 1
       = Some out
       /\ forall c, inundada out c <->
            alcanza float32 dem_redondeo semilla_izquierda (1 # 2) 1 c.
Proof.
  split; [reflexivity|].
  exact (X1_inundada_sii_alcanza float32 dem_redondeo semilla_izquierda
           (1 # 2) 1 eq_refl).
Defined.

(** A seed mask smaller than the elevation grid. *)
Lemma X2_witness :
  bien_formado dem_1x2 = true
  /\ misma_forma (NdArray 1 2 [[1; 0]]) dem_1x2 = true.
Proof.
  split; [reflexivity|].
  apply (X2_salida_binaria float64 dem_1x2 semilla_1x1 1 0 (NdArray 1 2 [[1; 0]]));
    reflexivity.
Defined.

(** Budgets 1 and 3 on the barrier scenario. *)
Lemma X3_witness :
  entrada_valida dem_barrera semilla_2_0 None = true
  /\ exists out out',
       propagar_inundacion float64 dem_barrera semilla_2_0 1 1 = Some out
       /\ propagar_inundacion float64 dem_barrera semilla_2_0 1 3 = Some out'
       /\ forall c, inundada out c -> inundada out' c.
Proof.
  split; [reflexivity|].
  apply (X3_monotonia_pasos float64 dem_barrera semilla_2_0 1 1 3); [reflexivity|lia].
Defined.

(** The seed (2, 0) alone, and together with the seed (2, 2). *)
Lemma X4_witness :
  entrada_valida dem_barrera semilla_2_0 None = true
  /\ entrada_valida dem_barrera semillas_dos None = true
  /\ exists out out',
       propagar_inundacion float64 dem_barrera semilla_2_0 1 1 = Some out
       /\ propagar_inundacion float64 dem_barrera semillas_dos 1 1 = Some out'
       /\ forall c, inundada out c -> inundada out' c.
Proof.
  split; [reflexivity|]. split; [reflexivity|].
  apply (X4_monotonia_semillas float64 dem_barrera semilla_2_0 semillas_dos 1 1);
    [reflexivity|reflexivity|].
  intros c Hc. apply lee_semilla_2_0 in Hc. subst c. reflexivity.
Defined.

(** The barrier scenario is at its fixed point after 4 rounds. *)
Lemma X5_witness :
  propagar_inundacion float64 dem_barrera semilla_2_0 1 100
  = propagar_inundacion float64 dem_barrera semilla_2_0 1 4.
Proof.
  apply (X5_punto_fijo float64 dem_barrera semilla_2_0 1 4 100).
  - reflexivity.
  - lia.
  - vm_compute. reflexivity.
Defined.

(** Level -2 on the barrier scenario, in binary64: the heads are -2 and
    98, below 0 - 1 and 100 - 1. *)
Lemma X7_witness :
  propagar_inundacion float64 dem_barrera semilla_2_0 (-2) 10
  = Some (astype_uint8 semilla_2_0).
Proof.
  apply (X7_nivel_bajo float64 dem_barrera semilla_2_0 (-2) 10);
    [reflexivity|].
  intros a ea ->%lee_dem_barrera. destruct (a.2 =? 3); reflexivity.
Defined.

(** Cell (3, 1) after one round on the barrier scenario. *)
Lemma X8_witness :
  exists s, lee semilla_2_0 s = Some true /\ cerca 1 s (3, 1).
Proof.
  apply (X8_un_paso_por_ronda float64 dem_barrera semilla_2_0 1 1
           (NdArray 5 5 [[0; 0; 0; 0; 0]; [1; 1; 0; 0; 0]; [1; 1; 0; 0; 0];
                         [1; 1; 0; 0; 0]; [0; 0; 0; 0; 0]]) (3, 1)).
  - reflexivity.
  - vm_compute. reflexivity.
  - exists 1. split; [reflexivity|lia].
Defined.

(** On the 5x5 barrier scenario 25 rounds are as good as 1000. *)
Lemma X6_witness :
  propagar_inundacion float64 dem_barrera semilla_2_0 1 1000
  = propagar_inundacion float64 dem_barrera semilla_2_0 1 25.
Proof.
  apply (X6_presupuesto_suficiente float64 dem_barrera semilla_2_0 1 1000).
  - reflexivity.
  - simpl. lia.
Defined.

(** A flat 5x5 grid with a seed at its centre, level 1.0 and 10 rounds. *)
Lemma X9_witness :
  exists out, propagar_inundacion float64 dem_plano semilla_centro 1 10 = Some out
    /\ forall c, inundada out c <->
         en_rango dem_plano c
         /\ exists s, lee semilla_centro s = Some true /\ cerca 10 s c.
Proof.
  apply (X9_terreno_plano float64 dem_plano semilla_centro 0 1 10
           float64_monotona).
  - reflexivity.
  - reflexivity.
  - reflexivity.
  - reflexivity.
  - unfold Qle. simpl. lia.
Defined.

(** The first round of the barrier scenario, from the seed (2, 0). *)
Lemma X10_witness :
  NoDup [(1, 0); (1, 1); (2, 1); (3, 0); (3, 1)].
Proof.
  apply (X10_frontera_sin_repetidos float64 dem_barrera 1 semilla_2_0 [(2, 0)]
           (NdArray 5 5 [replicate 5 false;
                         [true; true; false; false; false];
                         [true; true; false; false; false];
                         [true; true; false; false; false];
                         replicate 5 false])).
  - reflexivity.
  - repeat split; reflexivity.
  - intros p [<-|[]]. unfold en_rango. simpl. lia.
  - vm_compute. reflexivity.
Defined.

(** The barrier scenario with the river at (2, 0) and the basin on the two
    leftmost columns. *)
Lemma X11_witness :
  exists out,
    simular_nivel float64 dem_barrera rio_ejemplo cuenca_izquierda 1 = Some out
    /\ (forall c, inundada out c -> dentro_de cuenca_izquierda c)
    /\ (forall c v, lee rio_ejemplo c = Some 1 ->
                    lee cuenca_izquierda c = Some v ->
                    v mod 256 <> 0 -> inundada out c).
Proof.
  apply (X11_rio_dentro_de_cuenca float64 dem_barrera rio_ejemplo cuenca_izquierda 1).
  reflexivity.
Defined.

(** The script's 13 levels on the barrier scenario. *)
Lemma X12_witness :
  exists log,
    paso6 float64 dem_barrera rio_ejemplo cuenca_izquierda 90 (-90) niveles_agua
    = Some log
    /\ map Nivel_m log = niveles_agua.
Proof.
  destruct (X12_registro_por_nivel float64 dem_barrera rio_ejemplo cuenca_izquierda
              90 (-90) niveles_agua eq_refl) as (log & E & Hn & _).
  exists log. auto.
Defined.

(** The script's 13 levels on the barrier scenario, with 90 m cells. *)
Lemma X13_witness :
  exists log,
    paso6 float64 dem_barrera rio_ejemplo cuenca_izquierda 90 (-90) niveles_agua
    = Some log
    /\ forall r r', In r log -> In r' log -> (Nivel_m r <= Nivel_m r')%Q ->
                    Pixeles r <= Pixeles r' /\ (Area_km2 r <= Area_km2 r')%Q.
Proof.
  destruct (paso6_total float64 dem_barrera rio_ejemplo cuenca_izquierda 90 (-90)
              niveles_agua [] eq_refl) as (log & E).
  exists log. split; [exact E|]. intros r r' Hr Hr' Hl.
  apply (X13_pixeles_crecen float64 dem_barrera rio_ejemplo cuenca_izquierda
           90 (-90) niveles_agua log r r' float64_monotona
           eq_refl eq_refl E Hr Hr' Hl).
Defined.

(** The bounds on the same log. *)
Lemma X14_witness :
  exists log,
    paso6 float64 dem_barrera rio_ejemplo cuenca_izquierda 90 (-90) niveles_agua
    = Some log
    /\ forall r, In r log ->
         exists base,
           np_mul_uint8 (astype_uint8 (eq_escalar rio_ejemplo 1))
                        cuenca_izquierda = Some base
           /\ np_sum_uint8 base <= Pixeles r <= np_sum_uint8 cuenca_izquierda.
Proof.
  destruct (paso6_total float64 dem_barrera rio_ejemplo cuenca_izquierda 90 (-90)
              niveles_agua [] eq_refl) as (log & E).
  exists log. split; [exact E|]. intros r Hr.
  apply (X14_pixeles_acotados float64 dem_barrera rio_ejemplo cuenca_izquierda 90 (-90)
           niveles_agua log r eq_refl eq_refl eq_refl E Hr).
Defined.

(** The seeds (2, 0) and (2, 2) of the barrier scenario, apart and
    together, with one round. *)
Lemma X15_witness :
  exists out1 out2 out,
    propagar_inundacion float64 dem_barrera semilla_2_0 1 1 = Some out1
    /\ propagar_inundacion float64 dem_barrera semilla_centro 1 1 = Some out2
    /\ propagar_inundacion float64 dem_barrera semillas_dos 1 1 = Some out
    /\ forall c, inundada out c <-> inundada out1 c \/ inundada out2 c.
Proof.
  apply (X15_union_de_semillas float64 dem_barrera semilla_2_0 semilla_centro
           semillas_dos 1 1); try reflexivity.
  intros c. split.
  - intros [-> | ->]%lee_semillas_dos; [left|right]; reflexivity.
  - intros [->%lee_semilla_2_0 | ->%lee_semilla_centro]; reflexivity.
Defined.

(** Two rounds, then three, on the barrier scenario. *)
Lemma X16_witness :
  exists out,
    propagar_inundacion float64 dem_barrera semilla_2_0 1 2 = Some out
    /\ propagar_inundacion float64 dem_barrera (eq_escalar out 1) 1 3
       = propagar_inundacion float64 dem_barrera semilla_2_0 1 5.
Proof.
  apply (X16_rondas_componen float64 dem_barrera semilla_2_0 1 2 3);
    [reflexivity|lia|lia].
Defined.

(** The barrier scenario after 10 rounds: from (2, 0) into (2, 1). *)
Lemma X17_witness :
  inundada (NdArray 5 5 (replicate 5 [1; 1; 1; 0; 0])) (2, 1).
Proof.
  apply (X17_cerrada_en_el_punto_fijo float64 dem_barrera semilla_2_0 1 10
           (NdArray 5 5 (replicate 5 [1; 1; 1; 0; 0])) (2, 0) (2, 1)).
  - reflexivity.
  - lia.
  - vm_compute. reflexivity.
  - vm_compute. reflexivity.
  - exists 1. split; [reflexivity|lia].
  - split.
    + split; [discriminate|]. simpl. lia.
    + exists 0%Q, 0%Q. split; [reflexivity|]. split; [reflexivity|].
      split; vm_compute; discriminate.
Defined.
